(** * PyPoE stat translations: a shallow embedding of
      [PyPoE/poe/file/translations.py] and the properties of its
      range scoring, variant selection, formatting, merge and query code. *)

From Stdlib Require Import ZArith List String Ascii Bool Lia Arith.
From Stdlib Require Import DecimalString QArith Qround.
From Stdlib Require Import DecimalPos DecimalZ.
From Stdlib Require Import Permutation.
Import ListNotations.

Local Open Scope string_scope.
Local Open Scope list_scope.
Local Open Scope Z_scope.

(** ** The Python runtime pieces the module relies on *)

Module Py.

(** The exceptions the modelled code can raise. *)
Inductive exn : Type :=
| IndexError | ValueError | KeyError | TypeError | AttributeError
| OverflowError.

Inductive result (A : Type) : Type :=
| Ok (a : A)
| Raise (e : exn).
Arguments Ok {A} a.
Arguments Raise {A} e.

Definition bind {A B} (c : result A) (k : A -> result B) : result B :=
  match c with
  | Ok a => k a
  | Raise e => Raise e
  end.

(** [l[i]] for an index that is known to be non-negative. *)
Definition getitem {A} (l : list A) (i : nat) : result A :=
  match nth_error l i with
  | Some a => Ok a
  | None => Raise IndexError
  end.

(** [l[z]] for an arbitrary integer: negative indices count from the end. *)
Definition getitem_z {A} (l : list A) (z : Z) : result A :=
  let n := Z.of_nat (List.length l) in
  if (0 <=? z) && (z <? n) then getitem l (Z.to_nat z)
  else if (- n <=? z) && (z <? 0) then getitem l (Z.to_nat (n + z))
  else Raise IndexError.

(** The position a (possibly negative) index designates, when in range. *)
Definition norm_index {A} (l : list A) (z : Z) : result nat :=
  let n := Z.of_nat (List.length l) in
  if (0 <=? z) && (z <? n) then Ok (Z.to_nat z)
  else if (- n <=? z) && (z <? 0) then Ok (Z.to_nat (n + z))
  else Raise IndexError.

(** [l[i] = v] for a non-negative [i], on a copy of the list. *)
Fixpoint setitem {A} (l : list A) (i : nat) (v : A) : result (list A) :=
  match l, i with
  | [], _ => Raise IndexError
  | _ :: t, O => Ok (v :: t)
  | h :: t, S j =>
      match setitem t j v with
      | Ok t' => Ok (h :: t')
      | Raise e => Raise e
      end
  end.

(** [del l[i]] for a non-negative [i]. *)
Fixpoint delitem {A} (l : list A) (i : nat) : result (list A) :=
  match l, i with
  | [], _ => Raise IndexError
  | _ :: t, O => Ok t
  | h :: t, S j =>
      match delitem t j with
      | Ok t' => Ok (h :: t')
      | Raise e => Raise e
      end
  end.

(** Position of the first element satisfying [p]: the search behind
    [list.index] and [in]. *)
Fixpoint find_index {A} (p : A -> bool) (l : list A) : option nat :=
  match l with
  | [] => None
  | h :: t => if p h then Some O else option_map S (find_index p t)
  end.

(** [list.remove(x)] with the [ValueError] caught: drops the first element
    satisfying [p], if any. *)
Fixpoint remove_first {A} (p : A -> bool) (l : list A) : list A :=
  match l with
  | [] => []
  | h :: t => if p h then t else h :: remove_first p t
  end.

(** [enumerate(l)]. *)
Fixpoint enumerate_from {A} (n : nat) (l : list A) : list (nat * A) :=
  match l with
  | [] => []
  | h :: t => (n, h) :: enumerate_from (S n) t
  end.
Definition enumerate {A} (l : list A) := enumerate_from 0 l.

(** [str(i)] for an integer. *)
Definition str_int (z : Z) : string := NilZero.string_of_int (Z.to_int z).

(** Is [p] a prefix of [s]? *)
Fixpoint startswith (p s : string) : bool :=
  match p, s with
  | EmptyString, _ => true
  | String a p', String b s' => Ascii.eqb a b && startswith p' s'
  | String _ _, EmptyString => false
  end.

(** [sub in s]. *)
Fixpoint contains (sub s : string) : bool :=
  startswith sub s ||
  match s with
  | EmptyString => false
  | String _ s' => contains sub s'
  end.

(** [s.replace(old, new)] for a non-empty [old]: scan left to right, and at
    a position where [old] starts emit [new] and skip over the match.
    [skip] counts the characters of the current match still to drop. *)
Fixpoint replace_from (skip : nat) (old new s : string) : string :=
  match s with
  | EmptyString => EmptyString
  | String c s' =>
      match skip with
      | S k => replace_from k old new s'
      | O =>
          if startswith old s
          then (new ++ replace_from (String.length old - 1) old new s')%string
          else String c (replace_from O old new s')
      end
  end.

(** With an empty [old] Python puts [new] before every character and at
    the end. *)
Fixpoint intersperse (new s : string) : string :=
  match s with
  | EmptyString => new
  | String c s' => (new ++ String c (intersperse new s'))%string
  end.

Definition replace (old new s : string) : string :=
  match old with
  | EmptyString => intersperse new s
  | String _ _ => replace_from O old new s
  end.

(** Does every character of [s] satisfy [p]? *)
Fixpoint all_chars (p : ascii -> bool) (s : string) : bool :=
  match s with
  | EmptyString => true
  | String c s' => p c && all_chars p s'
  end.

Definition is_digit (c : ascii) : bool :=
  match c with
  | "0" | "1" | "2" | "3" | "4" | "5" | "6" | "7" | "8" | "9" => true
  | _ => false
  end%char.

(** [list.sort(key=...)]: a stable sort, here by insertion, on integer keys. *)
Section Sort.
Context {A : Type} (key : A -> Z).

Fixpoint insert_sorted (x : A) (l : list A) : list A :=
  match l with
  | [] => [x]
  | h :: t => if key x <=? key h then x :: l else h :: insert_sorted x t
  end.

Fixpoint sort_by (l : list A) : list A :=
  match l with
  | [] => []
  | h :: t => insert_sorted h (sort_by t)
  end.
End Sort.

(** A [dict] with string keys, in insertion order. *)
Definition dict (V : Type) : Type := list (string * V).

Fixpoint dict_get {V} (d : dict V) (k : string) : option V :=
  match d with
  | [] => None
  | (k', v) :: t => if String.eqb k k' then Some v else dict_get t k
  end.

(** [d[k] = v]: an existing key keeps its place, a new one goes last. *)
Fixpoint dict_set {V} (d : dict V) (k : string) (v : V) : dict V :=
  match d with
  | [] => [(k, v)]
  | (k', v') :: t =>
      if String.eqb k k' then (k', v) :: t else (k', v') :: dict_set t k v
  end.

End Py.

Import Py.

Notation "x <- c ;; k" := (Py.bind c (fun x => k))
  (at level 61, c at next level, right associativity).

(** ** The data model *)

(** [TranslationRange]: [min] and [max], each possibly [None]. *)
Record TranslationRange : Type := mkRange {
  rmin : option Z;
  rmax : option Z
}.

Definition is_none {A} (o : option A) : bool :=
  match o with
  | None => true
  | Some _ => false
  end.

(** [value <= bound] and [value >= bound] for a bound that is present; the
    tests of [in_range] never reach a comparison with [None]. *)
Definition le_bound (value : Z) (bound : option Z) : bool :=
  match bound with
  | Some b => value <=? b
  | None => false
  end.

Definition ge_bound (value : Z) (bound : option Z) : bool :=
  match bound with
  | Some b => value >=? b
  | None => false
  end.

(** [TranslationRange.in_range]. *)
Definition in_range (r : TranslationRange) (value : Z) : Z :=
  if is_none (rmin r) && is_none (rmax r) then 1
  else if is_none (rmin r) && le_bound value (rmax r) then 2
  else if is_none (rmax r) && ge_bound value (rmin r) then 2
  else if negb (is_none (rmin r)) && negb (is_none (rmax r))
          && (ge_bound value (rmin r) && le_bound value (rmax r))
  then 3
  else 0.

(** The floating-point side of the Python runtime.  Quantifiers divide and
    round, which takes an integer to a [float]; the operations are those of
    the interpreter and are taken as given. *)
Class PyFloat : Type := {
  float : Type;
  (** [a / b] on two integers. *)
  int_truediv : Z -> Z -> result float;
  (** [x / b] for a float [x] and an integer [b]. *)
  float_truediv : float -> Z -> float;
  (** [x * b] for a float [x] and an integer [b]. *)
  float_mul : float -> Z -> float;
  (** [-x]. *)
  float_neg : float -> float;
  (** [round(x, ndigits)]. *)
  float_round : float -> Z -> float;
  (** [int(x)]. *)
  float_to_int : float -> result Z;
  (** [str(x)]. *)
  str_float : float -> string
}.

(** A value handed in by the caller: an integer or a pair of integers
    (a range of acceptable values). *)
Inductive value : Type :=
| VInt (v : Z)
| VRange (lo hi : Z).

(** [TranslationQuantifier]: [registered_handlers] maps a handler name to the
    1-based value indices it applies to. *)
Record TranslationQuantifier : Type := mkQuantifier {
  registered_handlers : dict (list Z)
}.

(** [TranslationString]; the [parent] back-pointer takes no part in
    equality or in any computation and is left out, here and below. *)
Record TranslationString : Type := mkString {
  quantifier : TranslationQuantifier;
  range : list TranslationRange;
  string : string
}.

(** [TranslationLanguage]. *)
Record TranslationLanguage : Type := mkLanguage {
  language : String.string;
  strings : list TranslationString
}.

(** [Translation]. *)
Record Translation : Type := mkTranslation {
  languages : list TranslationLanguage;
  ids : list String.string
}.

(** ** Equality ([__eq__]) *)

Definition option_eqb {A} (eqb : A -> A -> bool) (a b : option A) : bool :=
  match a, b with
  | None, None => true
  | Some x, Some y => eqb x y
  | _, _ => false
  end.

(** [==] on lists: same length and equal elements. *)
Fixpoint list_eqb {A} (eqb : A -> A -> bool) (a b : list A) : bool :=
  match a, b with
  | [], [] => true
  | x :: a', y :: b' => eqb x y && list_eqb eqb a' b'
  | _, _ => false
  end.

(** [==] on dicts does not look at insertion order: every key of either side
    is bound to an equal value on the other. *)
Definition dict_sub {V} (eqb : V -> V -> bool) (a b : dict V) : bool :=
  forallb
    (fun kv => option_eqb eqb (dict_get a (fst kv)) (dict_get b (fst kv)))
    a.

Definition dict_eqb {V} (eqb : V -> V -> bool) (a b : dict V) : bool :=
  dict_sub eqb a b && dict_sub eqb b a.

Definition range_eqb (a b : TranslationRange) : bool :=
  option_eqb Z.eqb (rmin a) (rmin b) && option_eqb Z.eqb (rmax a) (rmax b).

Definition quantifier_eqb (a b : TranslationQuantifier) : bool :=
  dict_eqb (list_eqb Z.eqb) (registered_handlers a) (registered_handlers b).

Definition tstring_eqb (a b : TranslationString) : bool :=
  quantifier_eqb (quantifier a) (quantifier b)
  && list_eqb range_eqb (range a) (range b)
  && String.eqb (string a) (string b).

Definition language_eqb (a b : TranslationLanguage) : bool :=
  String.eqb (language a) (language b)
  && list_eqb tstring_eqb (strings a) (strings b).

Definition ids_eqb (a b : list String.string) : bool := list_eqb String.eqb a b.

(** [Translation.__eq__]: ids first, then languages. *)
Definition translation_eqb (a b : Translation) : bool :=
  ids_eqb (ids a) (ids b) && list_eqb language_eqb (languages a) (languages b).

(** ** Variants: scoring *)

(** [TranslationString.match_range]. *)
Fixpoint match_range_from (rating : Z) (ts : TranslationString)
    (values : list Z) (indexes : list nat) : result Z :=
  match indexes with
  | [] => Ok rating
  | i :: rest =>
      r <- getitem (range ts) i ;;
      v <- getitem values i ;;
      match_range_from (rating + in_range r v) ts values rest
  end.

Definition match_range (ts : TranslationString) (values : list Z)
    (indexes : list nat) : result Z :=
  match_range_from 0 ts values indexes.

(** The score of position [i] alone, [range[i].in_range(values[i])]. *)
Definition score_at (ts : TranslationString) (values : list Z) (i : nat) : Z :=
  in_range (nth i (range ts) (mkRange None None)) (nth i values 0).

(** Membership of a value in a range, as the data model words it: no bound
    that is present is violated. *)
Definition in_bounds (r : TranslationRange) (v : Z) : Prop :=
  (forall mn, rmin r = Some mn -> mn <= v) /\
  (forall mx, rmax r = Some mx -> v <= mx).

(** The sum of a list of scores. *)
Definition zsum (l : list Z) : Z := fold_right Z.add 0 l.

(** ** Quantifiers *)

Section Translations.
Context {PF : PyFloat}.

(** A number as the quantifiers leave it: still an integer, or a float. *)
Inductive num : Type :=
| NInt (z : Z)
| NFloat (x : float).

(** An entry of the value list inside [handle] and [format_string]: a
    number or a pair of numbers. *)
Inductive hval : Type :=
| HNum (n : num)
| HPair (a b : num).

Definition hval_of_value (v : value) : hval :=
  match v with
  | VInt z => HNum (NInt z)
  | VRange lo hi => HPair (NInt lo) (NInt hi)
  end.

(** [v / d], [v * k] and [-v] on a number. *)
Definition truediv (v : num) (d : Z) : result float :=
  match v with
  | NInt z => int_truediv z d
  | NFloat x => Ok (float_truediv x d)
  end.

Definition mul (v : num) (k : Z) : num :=
  match v with
  | NInt z => NInt (z * k)
  | NFloat x => NFloat (float_mul x k)
  end.

Definition neg (v : num) : num :=
  match v with
  | NInt z => NInt (- z)
  | NFloat x => NFloat (float_neg x)
  end.

(** [TranslationQuantifier.handlers]. *)
Definition handlers : dict (num -> result num) :=
  [ ("deciseconds_to_seconds", fun v => Ok (mul v 10));
    ("divide_by_one_hundred", fun v => x <- truediv v 100 ;; Ok (NFloat x));
    ("per_minute_to_per_second", fun v => x <- truediv v 60 ;; Ok (NFloat x));
    ("milliseconds_to_seconds", fun v => x <- truediv v 1000 ;; Ok (NFloat x));
    ("negate", fun v => Ok (mul v (-1)));
    ("divide_by_one_hundred_and_negate",
      fun v => x <- truediv (neg v) 100 ;; Ok (NFloat x));
    ("old_leech_percent", fun v => x <- truediv v 5 ;; Ok (NFloat x));
    ("old_leech_permyriad", fun v => x <- truediv v 50 ;; Ok (NFloat x));
    ("per_minute_to_per_second_0dp",
      fun v => x <- truediv v 60 ;; z <- float_to_int (float_round x 0) ;;
               Ok (NInt z));
    ("per_minute_to_per_second_2dp",
      fun v => x <- truediv v 60 ;; Ok (NFloat (float_round x 2)));
    ("milliseconds_to_seconds_0dp",
      fun v => x <- truediv v 1000 ;; z <- float_to_int (float_round x 0) ;;
               Ok (NInt z));
    ("milliseconds_to_seconds_2dp",
      fun v => x <- truediv v 1000 ;; Ok (NFloat (float_round x 2))) ].

(** [TranslationQuantifier.register]; the boolean tells whether the
    [UnknownIdentifierWarning] was issued. *)
Definition register (q : TranslationQuantifier) (handler : String.string)
    (index : Z) : TranslationQuantifier * bool :=
  match dict_get (registered_handlers q) handler with
  | Some l =>
      (mkQuantifier (dict_set (registered_handlers q) handler (l ++ [index])),
       false)
  | None =>
      match dict_get handlers handler with
      | Some _ =>
          (mkQuantifier (dict_set (registered_handlers q) handler [index]),
           false)
      | None => (q, true)
      end
  end.

(** One round of the inner loop of [handle]: [index -= 1], then the value
    at that (possibly negative) index is replaced by its image under [f],
    componentwise when [is_range] says it is a pair.  A flag that does not
    agree with the shape of the value is a [TypeError]; [get_string] never
    produces one. *)
Definition handle_index (f : num -> result num) (is_range : list bool)
    (values : list hval) (index : Z) : result (list hval) :=
  let index := index - 1 in
  flag <- getitem_z is_range index ;;
  v <- getitem_z values index ;;
  pos <- norm_index values index ;;
  match flag, v with
  | true, HPair a b =>
      a' <- f a ;; b' <- f b ;; setitem values pos (HPair a' b')
  | false, HNum n =>
      n' <- f n ;; setitem values pos (HNum n')
  | _, _ => Raise TypeError
  end.

Fixpoint handle_indices (f : num -> result num) (is_range : list bool)
    (values : list hval) (indices : list Z) : result (list hval) :=
  match indices with
  | [] => Ok values
  | index :: rest =>
      values' <- handle_index f is_range values index ;;
      handle_indices f is_range values' rest
  end.

Fixpoint handle_names (registered : dict (list Z)) (is_range : list bool)
    (values : list hval) : result (list hval) :=
  match registered with
  | [] => Ok values
  | (handler_name, indices) :: rest =>
      match dict_get handlers handler_name with
      | None => Raise KeyError
      | Some f =>
          values' <- handle_indices f is_range values indices ;;
          handle_names rest is_range values'
      end
  end.

(** [TranslationQuantifier.handle]. *)
Definition handle (q : TranslationQuantifier) (values : list value)
    (is_range : list bool) : result (list hval) :=
  handle_names (registered_handlers q) is_range (map hval_of_value values).

(** ** Variants: formatting *)

(** What [format_string] returns first: the text, or with [only_values] the
    list of values. *)
Inductive line : Type :=
| LStr (s : String.string)
| LVals (l : list hval).

Definition str_num (n : num) : String.string :=
  match n with
  | NInt z => str_int z
  | NFloat x => str_float x
  end.

(** [str(val)]; a pair prints as a tuple. *)
Definition str_hval (v : hval) : String.string :=
  match v with
  | HNum n => str_num n
  | HPair a b => ("(" ++ str_num a ++ ", " ++ str_num b ++ ")")%string
  end.

(** [TranslationString.tags], each applied to a number. *)
Definition tags (n : Z) : list String.string :=
  [ ("%" ++ str_int n ++ "%")%string; ("%" ++ str_int n ++ "$+d")%string ].

(** [TranslationString._tag_iter]. *)
Definition _tag_iter (i : nat) : list String.string :=
  tags (Z.of_nat i + 1).

(** [TranslationString._replace]. *)
Definition _replace (i : nat) (s rpl : String.string)
    : String.string * bool :=
  let new := fold_left (fun new tag => replace tag rpl new) (_tag_iter i) s in
  (new, String.eqb s new).

(** [string.ascii_letters]. *)
Definition ascii_letters : list ascii :=
  list_ascii_of_string
    "abcdefghijklmnopqrstuvwxyzABCDEFGHIJKLMNOPQRSTUVWXYZ".

(** The [only_values] loop of [format_string]. *)
Fixpoint only_values_loop (s : String.string) (items : list (nat * hval))
    (rtr unused : list hval) : list hval * list hval :=
  match items with
  | [] => (rtr, unused)
  | (i, value) :: rest =>
      let '(rtr', unused') :=
        fold_left
          (fun acc tag =>
             if contains tag s then (fst acc ++ [value], snd acc)
             else (fst acc, snd acc ++ [value]))
          (_tag_iter i) (rtr, unused) in
      only_values_loop s rest rtr' unused'
  end.

(** The [use_placeholder] loop. *)
Fixpoint placeholder_loop (items : list (nat * hval)) (s : String.string)
    (unused : list hval) : result (String.string * list hval) :=
  match items with
  | [] => Ok (s, unused)
  | (i, val) :: rest =>
      c <- getitem ascii_letters (23 + i) ;;
      let '(s', r) := _replace i s (String c EmptyString) in
      placeholder_loop rest s' (if r then unused ++ [val] else unused)
  end.

(** The text put in place of the tags of one value. *)
Definition replacement (flag : bool) (val : hval) : result String.string :=
  if flag then
    match val with
    | HPair a b => Ok ("(" ++ str_num a ++ " to " ++ str_num b ++ ")")%string
    | HNum _ => Raise TypeError
    end
  else Ok (str_hval val).

(** The final loop: the values themselves are put in. *)
Fixpoint literal_loop (is_range : list bool) (items : list (nat * hval))
    (s : String.string) (unused : list hval)
    : result (String.string * list hval) :=
  match items with
  | [] => Ok (s, unused)
  | (i, val) :: rest =>
      flag <- getitem is_range i ;;
      rpl <- replacement flag val ;;
      let '(s', r) := _replace i s rpl in
      literal_loop is_range rest s' (if r then unused ++ [val] else unused)
  end.

(** [TranslationString.format_string]. *)
Definition format_string (ts : TranslationString) (values : list value)
    (is_range : list bool) (use_placeholder only_values : bool)
    : result (line * list hval) :=
  let s := replace "%%" "%" (string ts) in
  values <- handle (quantifier ts) values is_range ;;
  if only_values then
    let '(rtr, unused) := only_values_loop s (enumerate values) [] [] in
    Ok (LVals rtr, unused)
  else if use_placeholder then
    r <- placeholder_loop (enumerate values) s [] ;;
    Ok (LStr (fst r), snd r)
  else
    r <- literal_loop is_range (enumerate values) s [] ;;
    Ok (LStr (fst r), snd r).

(** The literal mode with its steps in the order the specification gives
    them: the placeholders are filled in on the raw template and [%%]
    becomes [%] afterwards.  It is here to be compared with
    [format_string]. *)
Definition format_string_spec (ts : TranslationString) (values : list value)
    (is_range : list bool) : result (line * list hval) :=
  values <- handle (quantifier ts) values is_range ;;
  r <- literal_loop is_range (enumerate values) (string ts) [] ;;
  Ok (LStr (replace "%%" "%" (fst r)), snd r).

(** ** Language bundles *)

(** The three lists [get_string] builds from the values: the number a
    value is tested with, the value with a one-point range collapsed, and
    whether it is still a range. *)
Definition test_value (item : value) : Z :=
  match item with
  | VInt z => z
  | VRange lo _ => lo
  end.

Definition short_value (item : value) : value :=
  match item with
  | VInt z => VInt z
  | VRange lo hi => if lo =? hi then VInt lo else VRange lo hi
  end.

Definition range_flag (item : value) : bool :=
  match item with
  | VInt _ => false
  | VRange lo hi => negb (lo =? hi)
  end.

(** The loop that rates every string of the language. *)
Fixpoint rate_strings (strs : list TranslationString) (test_values : list Z)
    (indexes : list nat) : result (list (Z * TranslationString)) :=
  match strs with
  | [] => Ok []
  | ts :: rest =>
      match_ <- match_range ts test_values indexes ;;
      temp <- rate_strings rest test_values indexes ;;
      Ok ((match_, ts) :: temp)
  end.

(** [TranslationLanguage.get_string]. *)
Definition get_string (tl : TranslationLanguage) (values : list value)
    (indexes : list nat) (use_placeholder only_values : bool)
    : result (line * list hval) :=
  let is_range := map range_flag values in
  let test_values := map test_value values in
  let short_values := map short_value values in
  temp <- rate_strings (strings tl) test_values indexes ;;
  let temp := sort_by (fun x => - fst x) temp in
  x <- getitem temp 0 ;;
  format_string (snd x) short_values is_range use_placeholder only_values.

(** [Translation.get_language]; [None] when neither the language asked
    for nor English is there. *)
Fixpoint get_language_from (etr : option TranslationLanguage)
    (langs : list TranslationLanguage) (lang : String.string)
    : option TranslationLanguage :=
  match langs with
  | [] => etr
  | tr :: rest =>
      if String.eqb (language tr) lang then Some tr
      else if String.eqb (language tr) "English"
      then get_language_from (Some tr) rest lang
      else get_language_from etr rest lang
  end.

Definition get_language (t : Translation) (lang : String.string)
    : option TranslationLanguage :=
  get_language_from None (languages t) lang.

(** ** Files *)

(** [TranslationFile]: the translations in order and the index from an id
    to the translations it takes part in. *)
Record TranslationFile : Type := mkFile {
  _translations : list Translation;
  _translations_hash : dict (list Translation)
}.

Inductive warning : Type :=
| DuplicateIdentifierWarning (translation_id : String.string).

(** The loop of [_add_translation_hashed].  It runs over the very list it
    appends to: [pending] is what the iteration has still to visit, the
    appended copies included.  [fuel] bounds the rounds. *)
Fixpoint add_scan (fuel : nat) (translation_id : String.string)
    (translation : Translation) (pending : list Translation)
    (self : TranslationFile) (warns : list warning)
    : TranslationFile * list warning :=
  match fuel with
  | O => (self, warns)
  | S fuel' =>
      match pending with
      | [] => (self, warns)
      | old_translation :: rest =>
          if translation_eqb translation old_translation then (self, warns)
          else if ids_eqb (ids translation) (ids old_translation) then
            (mkFile
               (remove_first (fun x => translation_eqb x old_translation)
                  (_translations self))
               (dict_set (_translations_hash self) translation_id
                  [translation]),
             warns)
          else
            let bucket :=
              match dict_get (_translations_hash self) translation_id with
              | Some b => b
              | None => []
              end in
            add_scan fuel' translation_id translation (rest ++ [translation])
              (mkFile (_translations self)
                 (dict_set (_translations_hash self) translation_id
                    (bucket ++ [translation])))
              (warns ++ [DuplicateIdentifierWarning translation_id])
      end
  end.

(** [TranslationFile._add_translation_hashed]; the second component lists
    the warnings issued.  One round more than the bucket is long is all the
    loop can take, see [add_scan_fuel]. *)
Definition _add_translation_hashed (self : TranslationFile)
    (translation_id : String.string) (translation : Translation)
    : TranslationFile * list warning :=
  match dict_get (_translations_hash self) translation_id with
  | Some bucket =>
      add_scan (S (List.length bucket)) translation_id translation bucket
        self []
  | None =>
      (mkFile (_translations self)
         (dict_set (_translations_hash self) translation_id [translation]),
       [])
  end.

Fixpoint merge_bucket (self : TranslationFile) (trans_id : String.string)
    (bucket : list Translation) (warns : list warning)
    : TranslationFile * list warning :=
  match bucket with
  | [] => (self, warns)
  | trans :: rest =>
      let '(self', w) := _add_translation_hashed self trans_id trans in
      merge_bucket self' trans_id rest (warns ++ w)
  end.

Fixpoint merge_hash (self : TranslationFile)
    (other_hash : dict (list Translation)) (warns : list warning)
    : TranslationFile * list warning :=
  match other_hash with
  | [] => (self, warns)
  | (trans_id, bucket) :: rest =>
      let '(self', warns') := merge_bucket self trans_id bucket warns in
      merge_hash self' rest warns'
  end.

(** [TranslationFile.merge], for an [other] that is not [self] itself. *)
Definition merge (self other : TranslationFile)
    : TranslationFile * list warning :=
  merge_hash
    (mkFile (_translations self ++ _translations other)
       (_translations_hash self))
    (_translations_hash other) [].

(** ** Queries *)

(** [TranslationResult]. *)
Record TranslationResult : Type := mkResult {
  found : list Translation;
  lines : list line;
  indexes : list (list nat);
  missing_ids : list String.string;
  missing_values : list value;
  values : list (list value);
  invalid : list Translation;
  values_unused : list (list hval)
}.

(** What [get_translation] hands back: the result object when
    [full_result] is set, the lines alone otherwise. *)
Inductive translation_output : Type :=
| Full (r : TranslationResult)
| Lines (l : list line).

(** The marker for a position no value was given for. *)
Definition sentinel : Z := 4294967295.

(** The bookkeeping lists of [get_translation]. *)
Record scan : Type := mkScan {
  trans_found : list Translation;
  trans_missing : list String.string;
  trans_missing_values : list value;
  trans_found_indexes : list (list nat);
  trans_found_values : list (list value)
}.

(** The body of the loop over the bucket of a tag. *)
Definition touch (vals : list value) (i : nat) (tag : String.string)
    (st : scan) (tr : Translation) : result scan :=
  match find_index (String.eqb tag) (ids tr) with
  | None => Raise ValueError
  | Some index =>
      match find_index (fun x => translation_eqb x tr) (trans_found st) with
      | Some tf_index =>
          idx <- getitem (trans_found_indexes st) tf_index ;;
          found_indexes <-
            setitem (trans_found_indexes st) tf_index (idx ++ [index]) ;;
          vi <- getitem vals i ;;
          v <- getitem (trans_found_values st) tf_index ;;
          v' <- setitem v index vi ;;
          found_values <- setitem (trans_found_values st) tf_index v' ;;
          Ok (mkScan (trans_found st) (trans_missing st)
                (trans_missing_values st) found_indexes found_values)
      | None =>
          let v := repeat (VInt sentinel) (List.length (ids tr)) in
          vi <- getitem vals i ;;
          v' <- setitem v index vi ;;
          Ok (mkScan (trans_found st ++ [tr]) (trans_missing st)
                (trans_missing_values st)
                (trans_found_indexes st ++ [[index]])
                (trans_found_values st ++ [v']))
      end
  end.

Fixpoint touch_bucket (vals : list value) (i : nat) (tag : String.string)
    (st : scan) (bucket : list Translation) : result scan :=
  match bucket with
  | [] => Ok st
  | tr :: rest =>
      st' <- touch vals i tag st tr ;;
      touch_bucket vals i tag st' rest
  end.

(** The loop over the tags. *)
Fixpoint scan_tags (self : TranslationFile) (vals : list value)
    (items : list (nat * String.string)) (st : scan) : result scan :=
  match items with
  | [] => Ok st
  | (i, tag) :: rest =>
      st' <-
        match dict_get (_translations_hash self) tag with
        | None =>
            vi <- getitem vals i ;;
            Ok (mkScan (trans_found st) (trans_missing st ++ [tag])
                  (trans_missing_values st ++ [vi])
                  (trans_found_indexes st) (trans_found_values st))
        | Some bucket => touch_bucket vals i tag st bucket
        end ;;
      scan_tags self vals rest st'
  end.

Definition is_sentinel (v : value) : bool :=
  match v with
  | VInt z => z =? sentinel
  | VRange _ _ => false
  end.

(** The loop that collects the invalid translations. *)
Fixpoint collect_invalid (found_ : list Translation)
    (items : list (nat * list value)) : result (list Translation) :=
  match items with
  | [] => Ok []
  | (i, vs) :: rest =>
      if existsb is_sentinel vs then
        tr <- getitem found_ i ;;
        inv <- collect_invalid found_ rest ;;
        Ok (tr :: inv)
      else collect_invalid found_ rest
  end.

(** The loop that deletes them from the three lists. *)
Fixpoint remove_invalid (inv : list Translation) (st : scan) : result scan :=
  match inv with
  | [] => Ok st
  | tr :: rest =>
      match find_index (fun x => translation_eqb x tr) (trans_found st) with
      | None => Raise ValueError
      | Some index =>
          f <- delitem (trans_found st) index ;;
          fi <- delitem (trans_found_indexes st) index ;;
          fv <- delitem (trans_found_values st) index ;;
          remove_invalid rest
            (mkScan f (trans_missing st) (trans_missing_values st) fi fv)
      end
  end.

(** The loop that renders what is left.  [get_string] hands back a pair,
    which is never falsy: the [if result:] guard always passes. *)
Fixpoint render (st : scan) (lang : String.string)
    (full_result use_placeholder only_values : bool)
    (items : list (nat * Translation))
    (trans_lines : list line) (unused : list (list hval))
    : result (list line * list (list hval)) :=
  match items with
  | [] => Ok (trans_lines, unused)
  | (i, tr) :: rest =>
      match get_language tr lang with
      | None => Raise AttributeError
      | Some tl =>
          vs <- getitem (trans_found_values st) i ;;
          ixs <- getitem (trans_found_indexes st) i ;;
          res <- get_string tl vs ixs use_placeholder only_values ;;
          render st lang full_result use_placeholder only_values rest
            (trans_lines ++ [fst res])
            (if full_result then unused ++ [snd res] else unused)
      end
  end.

(** [TranslationFile.get_translation]; [tags] is the list of tags (a lone
    string has been wrapped into a list). *)
Definition get_translation (self : TranslationFile)
    (tags : list String.string) (vals : list value) (lang : String.string)
    (full_result use_placeholder only_values : bool)
    : result translation_output :=
  st <- scan_tags self vals (enumerate tags) (mkScan [] [] [] [] []) ;;
  inv <- collect_invalid (trans_found st)
           (enumerate (trans_found_values st)) ;;
  st <- remove_invalid inv st ;;
  r <- render st lang full_result use_placeholder only_values
         (enumerate (trans_found st)) [] [] ;;
  if full_result then
    Ok (Full (mkResult (trans_found st) (fst r) (trans_found_indexes st)
                (trans_missing st) (trans_missing_values st)
                (trans_found_values st) inv (snd r)))
  else Ok (Lines (fst r)).

End Translations.

(** Exact rationals in the place of the interpreter's binary floats.  The
    examples run on it; a quotient prints there as a fraction. *)
Definition rational_float : PyFloat := {|
  float := Q;
  int_truediv := fun a b => Ok (inject_Z a / inject_Z b)%Q;
  float_truediv := fun x b => (x / inject_Z b)%Q;
  float_mul := fun x b => (x * inject_Z b)%Q;
  float_neg := Qopp;
  float_round := fun x nd =>
    (inject_Z (Qfloor (x * inject_Z (Z.pow 10 nd) + (1 # 2)))
     / inject_Z (Z.pow 10 nd))%Q;
  float_to_int := fun x => Ok (Z.quot (Qnum x) (Zpos (Qden x)));
  str_float := fun x =>
    (str_int (Qnum x) ++ "/" ++ str_int (Zpos (Qden x)))%string
|}.

(** ** Sample data *)

Definition no_quantifier : TranslationQuantifier := mkQuantifier [].

Definition wildcard : TranslationRange := mkRange None None.


(** A language whose only variant asks for the value 1. *)
Definition exactly_one_language : TranslationLanguage :=
  mkLanguage "English"
    [ mkString no_quantifier [mkRange (Some 1) (Some 1)] "one" ].

(** A variant of two ranges, the first of them the point 1. *)
Definition one_and_any : TranslationString :=
  mkString no_quantifier [mkRange (Some 1) (Some 1); wildcard] "%1% and %2%".

(** A translation of one id and a file that holds it. *)
Definition life_regen : Translation :=
  mkTranslation
    [ mkLanguage "English"
        [ mkString no_quantifier [wildcard] "%1% life regen" ] ]
    ["life_regen"].

Definition life_file : TranslationFile :=
  mkFile [life_regen] [("life_regen", [life_regen])].

(** A translation of the two ids [a] and [b] and a file that holds it. *)
Definition a_and_b : Translation :=
  mkTranslation
    [ mkLanguage "English"
        [ mkString no_quantifier [wildcard; wildcard] "%1% and %2%" ] ]
    ["a"; "b"].

Definition pair_file : TranslationFile :=
  mkFile [a_and_b] [("a", [a_and_b]); ("b", [a_and_b])].

(** A translation of the id [a] alone, and a file whose bucket for [a]
    holds it before [a_and_b]. *)
Definition only_a : Translation :=
  mkTranslation
    [ mkLanguage "English" [ mkString no_quantifier [wildcard] "%1%" ] ]
    ["a"].

Definition two_in_bucket : TranslationFile :=
  mkFile [only_a; a_and_b] [("a", [only_a; a_and_b]); ("b", [a_and_b])].

(** The same ids as [a_and_b] with another text. *)
Definition a_and_b_reworded : Translation :=
  mkTranslation
    [ mkLanguage "English"
        [ mkString no_quantifier [wildcard; wildcard] "%1% with %2%" ] ]
    ["a"; "b"].

(** The template of a reduction in percent, its value negated first. *)
Definition reduced_damage : TranslationString :=
  mkString (mkQuantifier [("negate", [1])]) [wildcard]
    "%1%% reduced damage".





(** ** Invariants of the bookkeeping of [get_translation] *)

(** No two members are equal. *)
Fixpoint pairwise_ne (l : list Translation) : Prop :=
  match l with
  | [] => True
  | x :: t =>
      (forall y, In y t -> translation_eqb x y = false) /\ pairwise_ne t
  end.

(** The translation and the value vector at one position. *)
Definition entry (st : scan) (k : nat) (x : Translation)
    (vs : list value) : Prop :=
  nth_error (trans_found st) k = Some x /\
  nth_error (trans_found_values st) k = Some vs.

(** The three lists run in step, the translations found are pairwise
    different, and each value vector is as long as the ids of its
    translation. *)
Definition scan_wf (st : scan) : Prop :=
  List.length (trans_found_indexes st) = List.length (trans_found st) /\
  List.length (trans_found_values st) = List.length (trans_found st) /\
  pairwise_ne (trans_found st) /\
  (forall k x vs, entry st k x vs ->
     List.length vs = List.length (ids x)).

(** The index of a file built by [_add_translation_hashed]: no bucket is
    empty and an id leads to translations that have it. *)
Definition index_ok (self : TranslationFile) : Prop :=
  forall tag bucket,
    dict_get (_translations_hash self) tag = Some bucket ->
    bucket <> [] /\ forall tr, In tr bucket -> In tag (ids tr).

(** Every value in a vector is the marker or was put there for one of
    the tags. *)
Definition written_by (tags : list String.string) (st : scan) : Prop :=
  forall k x vs q v,
    entry st k x vs -> nth_error vs q = Some v ->
    v = VInt sentinel \/
    exists tag, In tag tags /\ find_index (String.eqb tag) (ids x) = Some q.

(** The translation has a vector. *)
Definition has_entry (T : Translation) (st : scan) : Prop :=
  exists k x vs, entry st k x vs /\ translation_eqb x T = true.

(** The translation has a vector that holds the marker at position [p]. *)
Definition marker_at (T : Translation) (p : nat) (st : scan) : Prop :=
  exists k x vs,
    entry st k x vs /\ translation_eqb x T = true /\
    nth_error vs p = Some (VInt sentinel).

(** Every index noted for a found translation is a position of its ids. *)
Definition indexes_ok (st : scan) : Prop :=
  forall k x ixs,
    nth_error (trans_found st) k = Some x ->
    nth_error (trans_found_indexes st) k = Some ixs ->
    forall i, In i ixs -> (i < List.length (ids x))%nat.

(** A file that came out of another by [_add_translation_hashed] calls for
    the pairs [added] of an id and a translation: the ordered list gained
    nothing, no key of the index was lost, and what a bucket holds was in
    the bucket of that id before or was added under that id. *)
Definition grown_from (self r : TranslationFile)
    (added : list (String.string * Translation)) : Prop :=
  (forall x, In x (_translations r) -> In x (_translations self)) /\
  (forall k, dict_get (_translations_hash r) k = None ->
     dict_get (_translations_hash self) k = None /\
     forall T, ~ In (k, T) added) /\
  (forall k b x, dict_get (_translations_hash r) k = Some b -> In x b ->
     (exists b0, dict_get (_translations_hash self) k = Some b0 /\
                 In x b0) \/
     In (k, x) added).

(** ** The file cache *)

(** [TranslationFileCache.__getitem__] up to its call of [get_file]: the
    name the file is looked up under. *)
Definition cache_item_name (item : String.string) : String.string :=
  if startswith "Metadata/" item then item
  else ("Metadata/" ++ item)%string.

(** ** The variant line of the parser *)

(** What reading a variant line can end in: an exception of the runtime, or
    the plain [Exception(matchstr)] raised for a limiter token that is
    neither [#], a number nor a pair. *)
Inductive parse_error : Type :=
| PyError (e : exn)
| PlainException (arg : String.string).

Inductive parsed (A : Type) : Type :=
| Parsed (a : A)
| Failed (e : parse_error).
Arguments Parsed {A} a.
Arguments Failed {A} e.

Definition parsed_bind {A B} (c : parsed A) (k : A -> parsed B) : parsed B :=
  match c with
  | Parsed a => k a
  | Failed e => Failed e
  end.

(** The characters a limiter token is made of: it is a piece, cut at white
    space, of a match of [[0-9\-\|#]+]. *)
Definition is_limit_char (c : ascii) : bool :=
  is_digit c || Ascii.eqb c "-" || Ascii.eqb c "|" || Ascii.eqb c "#".

(** [int(s)] on a text of such characters: digits, after a minus sign or
    not. *)
Definition int_of_token (s : String.string) : parsed Z :=
  match NilZero.int_of_string s with
  | Some d => Parsed (Z.of_int d)
  | None => Failed (PyError ValueError)
  end.

(** [regex_isnumber.match(s)] on a token: one or more of the digits and the
    minus sign, and nothing else. *)
Definition isnumber (s : String.string) : bool :=
  match s with
  | EmptyString => false
  | String _ _ => all_chars (fun c => is_digit c || Ascii.eqb c "-") s
  end.

(** [s.split(sep)] for a separator of one character. *)
Fixpoint split_on (sep : ascii) (s : String.string) : list String.string :=
  match s with
  | EmptyString => [EmptyString]
  | String c s' =>
      if Ascii.eqb c sep then EmptyString :: split_on sep s'
      else
        match split_on sep s' with
        | h :: t => String c h :: t
        | [] => [String c EmptyString]
        end
  end.

(** One side of a pair: [int(part) if part != '#' else None]. *)
Definition parse_bound (part : String.string) : parsed (option Z) :=
  if String.eqb part "#" then Parsed None
  else parsed_bind (int_of_token part) (fun v => Parsed (Some v)).

(** How the file writes a bound: the number, or [#] where there is none. *)
Definition bound_token (bound : option Z) : String.string :=
  match bound with
  | Some z => str_int z
  | None => "#"
  end.

Definition parsed_getitem {A} (l : list A) (i : nat) : parsed A :=
  match nth_error l i with
  | Some a => Parsed a
  | None => Failed (PyError IndexError)
  end.

(** The body of the limiter loop of [_read]: the range one token stands
    for. *)
Definition parse_limit (matchstr : String.string) : parsed TranslationRange :=
  if String.eqb matchstr "#" then Parsed (mkRange None None)
  else if isnumber matchstr then
    parsed_bind (int_of_token matchstr)
      (fun value => Parsed (mkRange (Some value) (Some value)))
  else if contains "|" matchstr then
    let minmax := split_on "|" matchstr in
    parsed_bind (parsed_getitem minmax 0) (fun m0 =>
    parsed_bind (parse_bound m0) (fun min_ =>
    parsed_bind (parsed_getitem minmax 1) (fun m1 =>
    parsed_bind (parse_bound m1) (fun max_ =>
    Parsed (mkRange min_ max_)))))
  else Failed (PlainException matchstr).

(** The limiter loop: [for i in range(0, id_count)], each round appending a
    range to the string. *)
Fixpoint parse_limits (limiter : list String.string) (rounds : list nat)
    (ranges : list TranslationRange) : parsed (list TranslationRange) :=
  match rounds with
  | [] => Parsed ranges
  | i :: rest =>
      parsed_bind (parsed_getitem limiter i) (fun matchstr =>
      parsed_bind (parse_limit matchstr) (fun r =>
      parse_limits limiter rest (ranges ++ [r])))
  end.

Definition parse_limiter (id_count : nat) (limiter : list String.string)
    : parsed (list TranslationRange) :=
  parse_limits limiter (seq 0 id_count) [].

Section VariantLine.
Context {PF : PyFloat}.

(** The quantifier loop of [_read]: the words come in pairs, a name and an
    index, and each pair is registered; the list tells the names that drew
    an [UnknownIdentifierWarning]. *)
Fixpoint register_pairs (quant : list String.string)
    (q : TranslationQuantifier) (unknown : list String.string)
    : parsed (TranslationQuantifier * list String.string) :=
  match quant with
  | [] => Parsed (q, unknown)
  | [_] => Failed (PyError IndexError)
  | name :: index :: rest =>
      parsed_bind (int_of_token index) (fun n =>
      let '(q', warned) := register q name n in
      register_pairs rest q' (if warned then unknown ++ [name] else unknown))
  end.

(** The names bound in a quantifier are known handlers, each bound once. *)
Definition quantifier_ok (q : TranslationQuantifier) : Prop :=
  NoDup (map fst (registered_handlers q)) /\
  forall name, In name (map fst (registered_handlers q)) ->
    exists f, dict_get handlers name = Some f.

End VariantLine.

(** The end of the [description] branch of [_read]: the translation goes
    to the end of the ordered list and is entered in the index under each
    of its ids. *)
Fixpoint add_under_ids (self : TranslationFile) (translation : Translation)
    (translation_ids : list String.string) (warns : list warning)
    : TranslationFile * list warning :=
  match translation_ids with
  | [] => (self, warns)
  | translation_id :: rest =>
      let '(self', w) :=
        _add_translation_hashed self translation_id translation in
      add_under_ids self' translation rest (warns ++ w)
  end.

Definition append_translation (self : TranslationFile)
    (translation : Translation) : TranslationFile * list warning :=
  add_under_ids
    (mkFile (_translations self ++ [translation]) (_translations_hash self))
    translation (ids translation) [].

(** ** The shape of the values of a call *)

Section Shapes.
Context {PF : PyFloat}.

(** A flag of [is_range] and the value it goes with agree: a pair where the
    flag is set, a number where it is not.  [get_string] builds both lists
    from the same values. *)
Definition same_shape (flag : bool) (v : hval) : bool :=
  match flag, v with
  | true, HPair _ _ => true
  | false, HNum _ => true
  | _, _ => false
  end.

End Shapes.

(** * Properties *)

(** ** The runtime helpers *)

Lemma bind_ok {A B} (c : result A) (k : A -> result B) (b : B) :
  (x <- c ;; k x) = Ok b -> exists a, c = Ok a /\ k a = Ok b.
Proof.
  destruct c as [a|e]; simpl; intros H; [exists a; auto | discriminate].
Qed.

Lemma getitem_ok {A} (l : list A) (i : nat) (a : A) :
  getitem l i = Ok a <-> nth_error l i = Some a.
Proof.
  unfold getitem. destruct (nth_error l i); split; intros H;
    inversion H; reflexivity.
Qed.

Lemma getitem_in_range {A} (l : list A) (i : nat) :
  (i < List.length l)%nat -> exists a, getitem l i = Ok a.
Proof.
  intros H. unfold getitem.
  destruct (nth_error l i) eqn:E; [eauto|].
  apply nth_error_None in E. lia.
Qed.

Lemma getitem_out_of_range {A} (l : list A) (i : nat) :
  (List.length l <= i)%nat -> getitem l i = Raise IndexError.
Proof.
  intros H. unfold getitem.
  apply nth_error_None in H. now rewrite H.
Qed.

Lemma getitem_nth {A} (l : list A) (i : nat) (d : A) :
  (i < List.length l)%nat -> getitem l i = Ok (nth i l d).
Proof.
  intros H. apply getitem_ok. now apply nth_error_nth'.
Qed.

(** ** Ranges *)

Lemma in_range_nonneg (r : TranslationRange) (v : Z) : 0 <= in_range r v.
Proof.
  unfold in_range.
  repeat match goal with
         | |- context [if ?c then _ else _] => destruct c
         end; lia.
Qed.

(** C2.  [in_range] is the score table of the data model: 1 for a range
    without bounds, 2 for a one-sided range the value satisfies, 3 for a
    two-sided range that contains the value and 0 in every other case; the
    score is one of 0, 1, 2, 3 and is positive exactly for the values that
    lie in the range. *)
Theorem in_range_table (r : TranslationRange) (v : Z) :
  (rmin r = None -> rmax r = None -> in_range r v = 1) /\
  (forall mx, rmin r = None -> rmax r = Some mx ->
     in_range r v = if v <=? mx then 2 else 0) /\
  (forall mn, rmin r = Some mn -> rmax r = None ->
     in_range r v = if mn <=? v then 2 else 0) /\
  (forall mn mx, rmin r = Some mn -> rmax r = Some mx ->
     in_range r v = if (mn <=? v) && (v <=? mx) then 3 else 0) /\
  (in_range r v = 0 \/ in_range r v = 1 \/
   in_range r v = 2 \/ in_range r v = 3) /\
  (0 < in_range r v <-> in_bounds r v).
Proof.
  destruct r as [[mn|] [mx|]]; unfold in_range, in_bounds; simpl;
    rewrite ?Z.geb_leb.
  - repeat split; try discriminate.
    + intros mn' mx' [= <-] [= <-]. reflexivity.
    + destruct (mn <=? v) eqn:E1, (v <=? mx) eqn:E2; simpl; auto.
    + intros mn' [= <-]. destruct (mn <=? v) eqn:E1, (v <=? mx) eqn:E2;
        simpl in *; lia.
    + intros mx' [= <-]. destruct (mn <=? v) eqn:E1, (v <=? mx) eqn:E2;
        simpl in *; lia.
    + intros [H1 H2]. specialize (H1 _ eq_refl). specialize (H2 _ eq_refl).
      apply Z.leb_le in H1, H2. rewrite H1, H2. simpl. lia.
  - repeat split; try discriminate.
    + intros mn' [= <-] _. reflexivity.
    + destruct (mn <=? v); auto.
    + intros mn' [= <-]. destruct (mn <=? v) eqn:E; lia.
    + intros [H1 _]. specialize (H1 _ eq_refl).
      apply Z.leb_le in H1. rewrite H1. lia.
  - repeat split; try discriminate.
    + intros mx' _ [= <-]. reflexivity.
    + destruct (v <=? mx); auto.
    + intros mx' [= <-]. destruct (v <=? mx) eqn:E; lia.
    + intros [_ H2]. specialize (H2 _ eq_refl).
      apply Z.leb_le in H2. rewrite H2. lia.
  - repeat split; try discriminate; auto; lia.
Qed.

(** ** Scoring a variant *)

Lemma zsum_nonneg (l : list Z) :
  (forall x, In x l -> 0 <= x) -> 0 <= zsum l.
Proof.
  induction l as [|x l IH]; simpl; intros H; [lia|].
  assert (0 <= x) by (apply H; now left).
  assert (0 <= zsum l) by (apply IH; intros; apply H; now right).
  lia.
Qed.

Lemma zsum_zero (l : list Z) :
  (forall x, In x l -> 0 <= x) ->
  (zsum l = 0 <-> forall x, In x l -> x = 0).
Proof.
  induction l as [|x l IH]; simpl; intros H.
  - split; [intros _ y []|reflexivity].
  - assert (Hx : 0 <= x) by (apply H; now left).
    assert (Hl : forall y, In y l -> 0 <= y) by (intros; apply H; now right).
    pose proof (zsum_nonneg l Hl) as Hs. specialize (IH Hl).
    split.
    + intros E y [<-|Hy]; [lia|]. apply IH; [lia|assumption].
    + intros E. rewrite (E x) by now left.
      assert (zsum l = 0) by (apply IH; intros; apply E; now right). lia.
Qed.

Lemma match_range_from_sum (ts : TranslationString) (vals : list Z)
    (ixs : list nat) (rating : Z) :
  (forall i, In i ixs ->
     (i < List.length (range ts))%nat /\ (i < List.length vals)%nat) ->
  match_range_from rating ts vals ixs
  = Ok (rating + zsum (map (score_at ts vals) ixs)).
Proof.
  revert rating. induction ixs as [|i ixs IH]; intros rating H; simpl.
  - f_equal. lia.
  - destruct (H i (or_introl eq_refl)) as [Hr Hv].
    rewrite (getitem_nth _ _ (mkRange None None) Hr). simpl.
    rewrite (getitem_nth _ _ 0 Hv). simpl.
    rewrite IH by (intros; apply H; now right).
    unfold score_at. f_equal. lia.
Qed.

(** C7 (as amended).  For indexes that are positions of the variant,
    [match_range] is the sum of the scores of the present indexes alone, and
    that sum is zero exactly when every present index scores zero. *)
Theorem match_range_sum (ts : TranslationString) (vals : list Z)
    (ixs : list nat) :
  (forall i, In i ixs ->
     (i < List.length (range ts))%nat /\ (i < List.length vals)%nat) ->
  match_range ts vals ixs = Ok (zsum (map (score_at ts vals) ixs)) /\
  (zsum (map (score_at ts vals) ixs) = 0 <->
   forall i, In i ixs -> score_at ts vals i = 0).
Proof.
  intros H. split.
  - unfold match_range. now rewrite match_range_from_sum.
  - rewrite zsum_zero.
    + split.
      * intros E i Hi. apply E. now apply in_map.
      * intros E x Hx. apply in_map_iff in Hx as [i [<- Hi]]. now apply E.
    + intros x Hx. apply in_map_iff in Hx as [i [<- _]].
      apply in_range_nonneg.
Qed.

(** An index that is no position of the variant, or of the values, makes
    [match_range] raise. *)
Lemma match_range_from_raise (ts : TranslationString) (vals : list Z)
    (ixs : list nat) (rating : Z) :
  (exists i, In i ixs /\
     ((List.length (range ts) <= i)%nat \/ (List.length vals <= i)%nat)) ->
  match_range_from rating ts vals ixs = Raise IndexError.
Proof.
  revert rating. induction ixs as [|i ixs IH]; intros rating [j [Hj Hb]].
  - destruct Hj.
  - simpl. unfold getitem at 1.
    destruct (nth_error (range ts) i) as [r|] eqn:Er; simpl; [|reflexivity].
    unfold getitem at 1.
    destruct (nth_error vals i) as [v|] eqn:Ev; simpl; [|reflexivity].
    destruct Hj as [->|Hj].
    + exfalso. destruct Hb as [Hb|Hb]; apply nth_error_None in Hb; congruence.
    + apply IH. eauto.
Qed.

(** ** Selection within a language *)

Section SortHead.
Context {A : Type} (key : A -> Z).

Lemma insert_sorted_head (x : A) (l : list A) :
  exists rest,
    insert_sorted key x l
    = (match l with
       | [] => x
       | h :: _ => if key x <=? key h then x else h
       end) :: rest.
Proof.
  destruct l as [|h t]; simpl; [eauto|].
  destruct (key x <=? key h); eauto.
Qed.

Lemma sort_by_nil (l : list A) : sort_by key l = [] -> l = [].
Proof.
  destruct l as [|h t]; simpl; [reflexivity|].
  destruct (insert_sorted_head h (sort_by key t)) as [rest ->]. discriminate.
Qed.

(** The head of the sorted list is the first element of least key. *)
Lemma sort_by_head (l : list A) (x : A) (rest : list A) :
  sort_by key l = x :: rest ->
  exists k,
    nth_error l k = Some x /\
    (forall y, In y l -> key x <= key y) /\
    (forall j y, (j < k)%nat -> nth_error l j = Some y -> key x < key y).
Proof.
  revert x rest. induction l as [|h t IH]; intros x rest; simpl.
  - discriminate.
  - destruct (sort_by key t) as [|x' rest'] eqn:Es.
    + apply sort_by_nil in Es. subst t. simpl. intros [= <- <-].
      exists 0%nat. repeat split.
      * intros y [<-|[]]. lia.
      * intros j y Hj. lia.
    + destruct (IH _ _ eq_refl) as [k [Hk [Hmin Hfirst]]].
      simpl. destruct (key h <=? key x') eqn:E.
      * intros [= <- <-]. exists 0%nat. repeat split.
        -- intros y [<-|Hy]; [lia|].
           apply Z.leb_le in E. specialize (Hmin y Hy). lia.
        -- intros j y Hj. lia.
      * intros [= <- <-]. apply Z.leb_gt in E.
        exists (S k). repeat split.
        -- assumption.
        -- intros y [<-|Hy]; [lia|]. now apply Hmin.
        -- intros [|j] y Hj; simpl.
           ++ intros [= <-]. lia.
           ++ apply Hfirst. lia.
Qed.
End SortHead.

Section Selection.
Context {PF : PyFloat}.

Lemma rate_strings_ok (strs : list TranslationString) (tv : list Z)
    (ixs : list nat) :
  (forall ts, In ts strs -> exists s, match_range ts tv ixs = Ok s) ->
  exists temp,
    rate_strings strs tv ixs = Ok temp /\
    List.length temp = List.length strs /\
    forall j p, nth_error temp j = Some p ->
      nth_error strs j = Some (snd p) /\
      match_range (snd p) tv ixs = Ok (fst p).
Proof.
  induction strs as [|ts strs IH]; intros H; simpl.
  - exists []. split; [reflexivity|]. split; [reflexivity|].
    intros [|j] p; discriminate.
  - destruct (H ts (or_introl eq_refl)) as [s Hs].
    destruct IH as [temp [Ht [Hlen Hnth]]];
      [intros; apply H; now right|].
    rewrite Hs, Ht. simpl. exists ((s, ts) :: temp).
    split; [reflexivity|]. split; [simpl; now rewrite Hlen|].
    intros [|j] p Hp; simpl in Hp.
    + inversion Hp. subst p. simpl. auto.
    + now apply Hnth.
Qed.

(** A language without strings has nothing to pick from: [temp[0]]
    raises. *)
Lemma get_string_no_strings (name : String.string) (vals : list value)
    (ixs : list nat) (ph ov : bool) :
  get_string (mkLanguage name []) vals ixs ph ov = Raise IndexError.
Proof. reflexivity. Qed.


End Selection.

(** ** Text replacement and the printing of integers *)

Lemma append_empty_r (s : String.string) : (s ++ "")%string = s.
Proof. induction s as [|c s IH]; simpl; [reflexivity|now rewrite IH]. Qed.

Lemma all_chars_impl (p q : ascii -> bool) (s : String.string) :
  (forall c, p c = true -> q c = true) ->
  all_chars p s = true -> all_chars q s = true.
Proof.
  intros Hpq. induction s as [|c s IH]; simpl; [reflexivity|].
  intros H. apply andb_true_iff in H as [Hc Hs].
  rewrite (Hpq _ Hc). now apply IH.
Qed.

Lemma replace_from_keep (c : ascii) (s old new : String.string) :
  startswith old (String c s) = false ->
  replace_from 0 old new (String c s) = String c (replace_from 0 old new s).
Proof. intros H. cbn [replace_from]. now rewrite H. Qed.

Lemma replace_from_match (c : ascii) (s old new : String.string) :
  startswith old (String c s) = true ->
  replace_from 0 old new (String c s)
  = (new ++ replace_from (String.length old - 1) old new s)%string.
Proof. intros H. cbn [replace_from]. now rewrite H. Qed.

Lemma startswith_head_differs (a c : ascii) (old' s : String.string) :
  Ascii.eqb a c = false -> startswith (String a old') (String c s) = false.
Proof. intros H. cbn [startswith]. now rewrite H. Qed.

(** A text in which the first character of [old] does not occur is left as
    it is. *)
Lemma replace_from_absent (a : ascii) (old' new s : String.string) :
  all_chars (fun c => negb (Ascii.eqb a c)) s = true ->
  replace_from 0 (String a old') new s = s.
Proof.
  induction s as [|c s IH]; [reflexivity|]. cbn [all_chars].
  intros H. apply andb_true_iff in H as [Hc Hs].
  apply negb_true_iff in Hc.
  rewrite replace_from_keep by now apply startswith_head_differs.
  now rewrite IH.
Qed.

(** The same text followed by a lone [%]: the escape [%%] does not occur. *)
Lemma unescape_no_percent (d : String.string) :
  all_chars (fun c => negb (Ascii.eqb "%" c)) d = true ->
  replace_from 0 "%%" "%" (d ++ "%") = (d ++ "%")%string.
Proof.
  induction d as [|c d IH]; [reflexivity|]. cbn [all_chars append].
  intros H. apply andb_true_iff in H as [Hc Hs].
  apply negb_true_iff in Hc.
  rewrite replace_from_keep by now apply startswith_head_differs.
  now rewrite IH.
Qed.

Lemma uint_digits (d : Decimal.uint) :
  all_chars is_digit (NilEmpty.string_of_uint d) = true.
Proof. induction d; simpl; auto. Qed.

Lemma uint_digits_zero (d : Decimal.uint) :
  all_chars is_digit (NilZero.string_of_uint d) = true.
Proof. destruct d; try apply uint_digits. reflexivity. Qed.

Lemma uint_head_zero (d : Decimal.uint) :
  exists c rest, NilZero.string_of_uint d = String c rest /\ is_digit c = true.
Proof. destruct d; simpl; eauto. Qed.

(** [str] of a non-negative integer starts with a digit, [str] of a
    negative one with the minus sign; digits follow. *)
Lemma str_int_nonneg (w : Z) :
  0 <= w ->
  exists c rest, str_int w = String c rest /\ is_digit c = true
                 /\ all_chars is_digit rest = true.
Proof.
  intros H. unfold str_int.
  assert (E : exists d, Z.to_int w = Decimal.Pos d).
  { destruct w; simpl; eauto. lia. }
  destruct E as [d ->]. simpl.
  destruct (uint_head_zero d) as [c [rest [E Hc]]].
  exists c, rest. repeat split; try assumption.
  pose proof (uint_digits_zero d) as Hd. rewrite E in Hd. simpl in Hd.
  now apply andb_true_iff in Hd as [_ Hd].
Qed.

Lemma str_int_neg (w : Z) :
  w < 0 ->
  exists rest, str_int w = String "-" rest /\ all_chars is_digit rest = true.
Proof.
  intros H. unfold str_int. destruct w; try lia. simpl.
  eexists. split; [reflexivity|]. apply uint_digits_zero.
Qed.

Lemma digit_not_percent (c : ascii) :
  is_digit c = true -> Ascii.eqb "%" c = false.
Proof.
  destruct c as [[|] [|] [|] [|] [|] [|] [|] [|]]; simpl; congruence.
Qed.

Lemma str_int_no_percent (w : Z) :
  all_chars (fun c => negb (Ascii.eqb "%" c)) (str_int w) = true.
Proof.
  assert (Hd : forall s, all_chars is_digit s = true ->
                 all_chars (fun c => negb (Ascii.eqb "%" c)) s = true).
  { intros s. apply all_chars_impl. intros c Hc.
    now rewrite digit_not_percent. }
  destruct (Z_lt_le_dec w 0) as [Hw|Hw].
  - destruct (str_int_neg w Hw) as [rest [-> Hr]].
    cbn [all_chars]. rewrite (Hd _ Hr). reflexivity.
  - destruct (str_int_nonneg w Hw) as [c [rest [-> [Hc Hr]]]].
    cbn [all_chars]. rewrite (digit_not_percent _ Hc), (Hd _ Hr). reflexivity.
Qed.

Lemma str_int_head (w : Z) :
  exists c rest, str_int w = String c rest /\ Ascii.eqb "%" c = false.
Proof.
  pose proof (str_int_no_percent w) as H.
  destruct (str_int w) as [|c rest] eqn:E.
  - exfalso. destruct (Z_lt_le_dec w 0) as [Hw|Hw].
    + destruct (str_int_neg w Hw) as [? [E' _]]. congruence.
    + destruct (str_int_nonneg w Hw) as [? [? [E' _]]]. congruence.
  - cbn [all_chars] in H. apply andb_true_iff in H as [Hc _].
    apply negb_true_iff in Hc. eauto.
Qed.

(** Unescaping the tag [%N%], and the escape followed by [N%], gives the tag
    in both cases. *)
Lemma unescape_tag (n : Z) :
  replace "%%" "%" ("%" ++ str_int n ++ "%") = ("%" ++ str_int n ++ "%")%string.
Proof.
  destruct (str_int_head n) as [c [rest [E Hc]]].
  pose proof (str_int_no_percent n) as Hn.
  unfold replace. rewrite E in *. cbn [append].
  rewrite replace_from_keep.
  - f_equal.
    change (String c (rest ++ "%"))%string with (String c rest ++ "%")%string.
    now apply unescape_no_percent.
  - cbn [startswith]. rewrite Hc. now rewrite andb_false_r.
Qed.

Lemma unescape_escaped_tag (n : Z) :
  replace "%%" "%" ("%%" ++ str_int n ++ "%")
  = ("%" ++ str_int n ++ "%")%string.
Proof.
  unfold replace.
  change ("%%" ++ str_int n ++ "%")%string
    with (String "%" (String "%" (str_int n ++ "%"))).
  rewrite replace_from_match by reflexivity.
  cbn [String.length Nat.sub replace_from append]. f_equal.
  apply unescape_no_percent, str_int_no_percent.
Qed.

Lemma startswith_refl (s : String.string) : startswith s s = true.
Proof.
  induction s as [|c s IH]; [reflexivity|].
  cbn [startswith]. now rewrite Ascii.eqb_refl, IH.
Qed.

Lemma startswith_common_prefix (d t1 t2 : String.string) :
  startswith t1 t2 = false -> startswith (d ++ t1) (d ++ t2) = false.
Proof.
  intros H. induction d as [|c d IH]; [exact H|].
  cbn [append startswith]. now rewrite Ascii.eqb_refl, IH.
Qed.

Lemma replace_from_skip (k : nat) (old new s : String.string) :
  (String.length s <= k)%nat -> replace_from k old new s = "".
Proof.
  revert k. induction s as [|c s IH]; intros k H; [reflexivity|].
  destruct k as [|k]; [simpl in H; lia|].
  cbn [replace_from]. apply IH. simpl in H. lia.
Qed.

(** Replacing a text that is [old] itself leaves [new]. *)
Lemma replace_whole (a : ascii) (o new : String.string) :
  replace (String a o) new (String a o) = new.
Proof.
  unfold replace. rewrite replace_from_match by apply startswith_refl.
  rewrite replace_from_skip; [apply append_empty_r|].
  simpl. lia.
Qed.

Lemma all_chars_app (p : ascii -> bool) (s t : String.string) :
  all_chars p s = true -> all_chars p t = true ->
  all_chars p (s ++ t) = true.
Proof.
  intros Hs Ht. induction s as [|c s IH]; [exact Ht|].
  cbn [all_chars append] in *. apply andb_true_iff in Hs as [Hc Hs].
  now rewrite Hc, IH.
Qed.

(** The plain tag does not occur in the sign-form tag of the same number. *)
Lemma replace_plain_in_sign_form (n : Z) (new : String.string) :
  replace ("%" ++ str_int n ++ "%") new ("%" ++ str_int n ++ "$+d")
  = ("%" ++ str_int n ++ "$+d")%string.
Proof.
  unfold replace. cbn [append].
  rewrite replace_from_keep.
  - f_equal. apply replace_from_absent.
    apply all_chars_app; [apply str_int_no_percent|reflexivity].
  - cbn [startswith]. rewrite Ascii.eqb_refl.
    now rewrite startswith_common_prefix.
Qed.

(** ** Formatting *)

Section Formatting.
Context {PF : PyFloat}.

(** C5 (as amended).  [format_string] unescapes the raw template first and
    fills the placeholders in afterwards: two templates with the same
    unescaped text are formatted alike, and so the escape followed by [N%]
    is formatted as the placeholder [%N%] is, for every [N]. *)
Theorem format_string_unescapes_first :
  (forall ts1 ts2 vals flags ph ov,
     quantifier ts1 = quantifier ts2 ->
     replace "%%" "%" (string ts1) = replace "%%" "%" (string ts2) ->
     format_string ts1 vals flags ph ov = format_string ts2 vals flags ph ov)
  /\
  (forall q rng n vals flags ph ov,
     format_string (mkString q rng ("%%" ++ str_int n ++ "%"))
       vals flags ph ov
     = format_string (mkString q rng ("%" ++ str_int n ++ "%"))
         vals flags ph ov).
Proof.
  assert (G : forall ts1 ts2 vals flags ph ov,
     quantifier ts1 = quantifier ts2 ->
     replace "%%" "%" (string ts1) = replace "%%" "%" (string ts2) ->
     format_string ts1 vals flags ph ov = format_string ts2 vals flags ph ov).
  { intros ts1 ts2 vals flags ph ov Hq Hs.
    unfold format_string. now rewrite Hq, Hs. }
  split; [exact G|].
  intros q rng n vals flags ph ov. apply G; [reflexivity|]. cbn [string].
  now rewrite unescape_tag, unescape_escaped_tag.
Qed.

Lemma eqb_tag_str_int (t : String.string) (w : Z) :
  String.eqb (String "%" t) (str_int w) = false.
Proof.
  destruct (str_int_head w) as [c [rest [-> Hc]]].
  cbn [String.eqb]. now rewrite Hc.
Qed.

(** The literal loop on a single number that is not a range. *)
Lemma literal_loop_single (s : String.string) (w : Z) :
  literal_loop [false] (enumerate [HNum (NInt w)]) s []
  = Ok (let new := replace "%1$+d" (str_int w)
                     (replace "%1%" (str_int w) s) in
        (new, if String.eqb s new then [HNum (NInt w)] else [])).
Proof. reflexivity. Qed.

(** For every position, the two tags of that position are replaced by the
    same text. *)
Lemma _replace_both_tags (i : nat) (w : Z) :
  _replace i ("%" ++ str_int (Z.of_nat i + 1) ++ "$+d") (str_int w)
  = (str_int w, false) /\
  _replace i ("%" ++ str_int (Z.of_nat i + 1) ++ "%") (str_int w)
  = (str_int w, false).
Proof.
  unfold _replace, _tag_iter, tags. cbn [fold_left]. split.
  - rewrite replace_plain_in_sign_form. cbn [append].
    rewrite replace_whole. now rewrite eqb_tag_str_int.
  - cbn [append]. rewrite replace_whole.
    unfold replace.
    rewrite replace_from_absent by apply str_int_no_percent.
    now rewrite eqb_tag_str_int.
Qed.

End Formatting.

(** ** Equality is an equivalence *)

Section ListEqb.
Context {A : Type} (eqb : A -> A -> bool).

Lemma list_eqb_refl :
  (forall x, eqb x x = true) -> forall l, list_eqb eqb l l = true.
Proof.
  intros R. induction l as [|x l IH]; simpl; [reflexivity|].
  now rewrite R, IH.
Qed.

Lemma list_eqb_sym :
  (forall x y, eqb x y = true -> eqb y x = true) ->
  forall a b, list_eqb eqb a b = true -> list_eqb eqb b a = true.
Proof.
  intros S. induction a as [|x a IH]; intros [|y b]; simpl; auto.
  intros H. apply andb_true_iff in H as [H1 H2].
  now rewrite (S _ _ H1), (IH _ H2).
Qed.

Lemma list_eqb_trans :
  (forall x y z, eqb x y = true -> eqb y z = true -> eqb x z = true) ->
  forall a b c,
    list_eqb eqb a b = true -> list_eqb eqb b c = true ->
    list_eqb eqb a c = true.
Proof.
  intros T. induction a as [|x a IH]; intros [|y b] [|z c]; simpl; auto;
    try discriminate.
  intros H H'. apply andb_true_iff in H as [H1 H2].
  apply andb_true_iff in H' as [H1' H2'].
  now rewrite (T _ _ _ H1 H1'), (IH _ _ H2 H2').
Qed.

Lemma list_eqb_eq :
  (forall x y, eqb x y = true <-> x = y) ->
  forall a b, list_eqb eqb a b = true <-> a = b.
Proof.
  intros E. induction a as [|x a IH]; intros [|y b]; simpl;
    try (split; [discriminate|discriminate]); [tauto|].
  rewrite andb_true_iff, E, IH. split.
  - intros [-> ->]. reflexivity.
  - intros [= -> ->]. auto.
Qed.
End ListEqb.

Lemma option_eqb_eq {A} (eqb : A -> A -> bool) :
  (forall x y, eqb x y = true <-> x = y) ->
  forall a b, option_eqb eqb a b = true <-> a = b.
Proof.
  intros E [x|] [y|]; simpl; try (split; discriminate); [|tauto].
  rewrite E. split; [now intros ->|now intros [= ->]].
Qed.

Lemma ids_eqb_eq (a b : list String.string) : ids_eqb a b = true <-> a = b.
Proof. apply list_eqb_eq. apply String.eqb_eq. Qed.

Lemma range_eqb_eq (a b : TranslationRange) : range_eqb a b = true <-> a = b.
Proof.
  unfold range_eqb. rewrite andb_true_iff.
  rewrite !(option_eqb_eq Z.eqb Z.eqb_eq).
  destruct a, b; simpl. split.
  - now intros [-> ->].
  - now intros [= -> ->].
Qed.

Lemma dict_get_in {V} (d : dict V) (k : String.string) (v : V) :
  dict_get d k = Some v -> In (k, v) d.
Proof.
  induction d as [|[k' v'] d IH]; simpl; [discriminate|].
  destruct (String.eqb_spec k k') as [->|N].
  - intros [= ->]. now left.
  - intros H. right. now apply IH.
Qed.

(** Two dicts are equal when every key is bound alike in both. *)
Lemma dict_eqb_lookup {V} (eqb : V -> V -> bool) (a b : dict V) :
  (forall x y, eqb x y = true <-> x = y) ->
  (dict_eqb eqb a b = true <-> forall k, dict_get a k = dict_get b k).
Proof.
  intros E. pose proof (option_eqb_eq eqb E) as OE.
  unfold dict_eqb, dict_sub. rewrite andb_true_iff, !forallb_forall. split.
  - intros [Hab Hba] k.
    destruct (dict_get a k) as [v|] eqn:Ea.
    + apply dict_get_in in Ea as Hin. specialize (Hab _ Hin). simpl in Hab.
      apply OE in Hab. congruence.
    + destruct (dict_get b k) as [v|] eqn:Eb; [|reflexivity].
      apply dict_get_in in Eb as Hin. specialize (Hba _ Hin). simpl in Hba.
      apply OE in Hba. congruence.
  - intros H. split; intros kv _; apply OE; [apply H|symmetry; apply H].
Qed.

Lemma quantifier_eqb_lookup (a b : TranslationQuantifier) :
  quantifier_eqb a b = true <->
  forall k, dict_get (registered_handlers a) k
            = dict_get (registered_handlers b) k.
Proof.
  apply dict_eqb_lookup. apply list_eqb_eq. apply Z.eqb_eq.
Qed.

Lemma tstring_eqb_refl (a : TranslationString) : tstring_eqb a a = true.
Proof.
  unfold tstring_eqb. rewrite !andb_true_iff. repeat split.
  - now apply quantifier_eqb_lookup.
  - now apply (list_eqb_eq _ range_eqb_eq).
  - apply String.eqb_refl.
Qed.

Lemma tstring_eqb_sym (a b : TranslationString) :
  tstring_eqb a b = true -> tstring_eqb b a = true.
Proof.
  unfold tstring_eqb. rewrite !andb_true_iff. intros [[Hq Hr] Hs].
  repeat split.
  - apply quantifier_eqb_lookup. intros k. symmetry.
    revert k. now apply quantifier_eqb_lookup.
  - apply (list_eqb_eq _ range_eqb_eq). symmetry.
    now apply (list_eqb_eq _ range_eqb_eq).
  - now rewrite String.eqb_sym.
Qed.

Lemma tstring_eqb_trans (a b c : TranslationString) :
  tstring_eqb a b = true -> tstring_eqb b c = true -> tstring_eqb a c = true.
Proof.
  unfold tstring_eqb. rewrite !andb_true_iff.
  intros [[Hq Hr] Hs] [[Hq' Hr'] Hs']. repeat split.
  - apply quantifier_eqb_lookup. intros k.
    rewrite (proj1 (quantifier_eqb_lookup _ _) Hq k).
    now apply quantifier_eqb_lookup.
  - apply (list_eqb_eq _ range_eqb_eq).
    apply (list_eqb_eq _ range_eqb_eq) in Hr, Hr'. congruence.
  - apply String.eqb_eq in Hs, Hs'. apply String.eqb_eq. congruence.
Qed.

Lemma language_eqb_refl (a : TranslationLanguage) : language_eqb a a = true.
Proof.
  unfold language_eqb. rewrite String.eqb_refl. simpl.
  apply list_eqb_refl, tstring_eqb_refl.
Qed.

Lemma language_eqb_sym (a b : TranslationLanguage) :
  language_eqb a b = true -> language_eqb b a = true.
Proof.
  unfold language_eqb. rewrite !andb_true_iff. intros [Hl Hs]. split.
  - now rewrite String.eqb_sym.
  - revert Hs. apply list_eqb_sym, tstring_eqb_sym.
Qed.

Lemma language_eqb_trans (a b c : TranslationLanguage) :
  language_eqb a b = true -> language_eqb b c = true ->
  language_eqb a c = true.
Proof.
  unfold language_eqb. rewrite !andb_true_iff. intros [Hl Hs] [Hl' Hs'].
  split.
  - apply String.eqb_eq in Hl, Hl'. apply String.eqb_eq. congruence.
  - revert Hs Hs'. apply list_eqb_trans, tstring_eqb_trans.
Qed.

Lemma translation_eqb_refl (a : Translation) : translation_eqb a a = true.
Proof.
  unfold translation_eqb. rewrite (proj2 (ids_eqb_eq _ _) eq_refl). simpl.
  apply list_eqb_refl, language_eqb_refl.
Qed.

Lemma translation_eqb_sym (a b : Translation) :
  translation_eqb a b = true -> translation_eqb b a = true.
Proof.
  unfold translation_eqb. rewrite !andb_true_iff. intros [Hi Hl]. split.
  - apply ids_eqb_eq. symmetry. now apply ids_eqb_eq.
  - revert Hl. apply list_eqb_sym, language_eqb_sym.
Qed.

Lemma translation_eqb_trans (a b c : Translation) :
  translation_eqb a b = true -> translation_eqb b c = true ->
  translation_eqb a c = true.
Proof.
  unfold translation_eqb. rewrite !andb_true_iff. intros [Hi Hl] [Hi' Hl'].
  split.
  - apply ids_eqb_eq in Hi, Hi'. apply ids_eqb_eq. congruence.
  - revert Hl Hl'. apply list_eqb_trans, language_eqb_trans.
Qed.

(** Equal translations have the same ids. *)
Lemma translation_eqb_ids (a b : Translation) :
  translation_eqb a b = true -> ids a = ids b.
Proof.
  unfold translation_eqb. rewrite andb_true_iff. intros [Hi _].
  now apply ids_eqb_eq.
Qed.

Lemma translation_eqb_false_sym (a b : Translation) :
  translation_eqb a b = false -> translation_eqb b a = false.
Proof.
  intros H. destruct (translation_eqb b a) eqn:E; [|reflexivity].
  apply translation_eqb_sym in E. congruence.
Qed.

(** ** List helpers *)

Lemma setitem_ok {A} (l : list A) (i : nat) (v : A) :
  (i < List.length l)%nat -> exists l', setitem l i v = Ok l'.
Proof.
  revert i. induction l as [|h t IH]; intros [|i] H; simpl in *; try lia.
  - eauto.
  - destruct (IH i) as [t' ->]; [lia|]. eauto.
Qed.

Lemma setitem_spec {A} (l l' : list A) (i : nat) (v : A) :
  setitem l i v = Ok l' ->
  List.length l' = List.length l /\
  nth_error l' i = Some v /\
  forall j, j <> i -> nth_error l' j = nth_error l j.
Proof.
  revert l' i. induction l as [|h t IH]; intros l' [|i]; simpl;
    try discriminate.
  - intros [= <-]. repeat split. intros [|j] Hj; [lia|reflexivity].
  - destruct (setitem t i v) as [t'|] eqn:E; [|discriminate].
    intros [= <-]. destruct (IH _ _ E) as [Hl [Hi Hj]].
    simpl. repeat split; [now rewrite Hl|assumption|].
    intros [|j] Hne; [reflexivity|]. simpl. apply Hj. lia.
Qed.

Lemma delitem_spec {A} (l l' : list A) (i : nat) :
  delitem l i = Ok l' ->
  exists a x b, l = a ++ x :: b /\ List.length a = i /\ l' = a ++ b.
Proof.
  revert l' i. induction l as [|h t IH]; intros l' [|i]; simpl;
    try discriminate.
  - intros [= <-]. now exists [], h, t.
  - destruct (delitem t i) as [t'|] eqn:E; [|discriminate].
    intros [= <-]. destruct (IH _ _ E) as [a [x [b [-> [Hl ->]]]]].
    exists (h :: a), x, b. simpl. now rewrite Hl.
Qed.

Lemma find_index_some {A} (p : A -> bool) (l : list A) (k : nat) :
  find_index p l = Some k ->
  exists x, nth_error l k = Some x /\ p x = true.
Proof.
  revert k. induction l as [|h t IH]; intros k; simpl; [discriminate|].
  destruct (p h) eqn:E.
  - intros [= <-]. exists h. now split.
  - destruct (find_index p t) as [j|]; simpl; [|discriminate].
    intros [= <-]. simpl. now apply IH.
Qed.

Lemma find_index_none {A} (p : A -> bool) (l : list A) :
  find_index p l = None -> forall x, In x l -> p x = false.
Proof.
  induction l as [|h t IH]; simpl; [intros _ x []|].
  destruct (p h) eqn:E; [discriminate|].
  destruct (find_index p t); simpl; [discriminate|].
  intros _ x [<-|Hx]; auto.
Qed.

Lemma find_index_in {A} (p : A -> bool) (l : list A) (x : A) :
  In x l -> p x = true -> exists k, find_index p l = Some k.
Proof.
  intros Hin Hp. destruct (find_index p l) eqn:E; [eauto|].
  pose proof (find_index_none _ _ E x Hin). congruence.
Qed.

(** [ids.index(tag)] finds a position that holds the tag. *)
Lemma index_of_tag (tag : String.string) (l : list String.string) (k : nat) :
  find_index (String.eqb tag) l = Some k -> nth_error l k = Some tag.
Proof.
  intros H. apply find_index_some in H as [x [Hx E]].
  apply String.eqb_eq in E. now subst.
Qed.

Lemma index_of_member (tag : String.string) (l : list String.string) :
  In tag l ->
  exists k, find_index (String.eqb tag) l = Some k /\ (k < List.length l)%nat.
Proof.
  intros H. destruct (find_index_in (String.eqb tag) l tag H) as [k E].
  - apply String.eqb_refl.
  - exists k. split; [assumption|].
    apply index_of_tag in E. apply nth_error_Some. congruence.
Qed.

Lemma length_enumerate_from {A} (n : nat) (l : list A) :
  List.length (enumerate_from n l) = List.length l.
Proof.
  revert n. induction l as [|h t IH]; intros n; simpl; [reflexivity|].
  now rewrite IH.
Qed.

Lemma enumerate_from_app {A} (n : nat) (a b : list A) :
  enumerate_from n (a ++ b)
  = enumerate_from n a ++ enumerate_from (n + List.length a) b.
Proof.
  revert n. induction a as [|h t IH]; intros n; simpl.
  - now rewrite Nat.add_0_r.
  - rewrite IH. do 3 f_equal. lia.
Qed.

Lemma in_enumerate_from {A} (n : nat) (l : list A) (i : nat) (x : A) :
  In (i, x) (enumerate_from n l) ->
  (n <= i)%nat /\ nth_error l (i - n) = Some x.
Proof.
  revert n. induction l as [|h t IH]; intros n; simpl; [intros []|].
  intros [[= <- <-]|H].
  - rewrite Nat.sub_diag. split; [lia|reflexivity].
  - apply IH in H as [Hn Hx]. split; [lia|].
    replace (i - n)%nat with (S (i - S n)) by lia. exact Hx.
Qed.

Lemma pairwise_ne_app (l : list Translation) (tr : Translation) :
  pairwise_ne l ->
  (forall x, In x l -> translation_eqb x tr = false) ->
  pairwise_ne (l ++ [tr]).
Proof.
  induction l as [|h t IH]; simpl; intros Hp Hn.
  - split; [intros y []|exact I].
  - destruct Hp as [Hh Ht]. split.
    + intros y Hy. apply in_app_or in Hy as [Hy|[<-|[]]]; auto.
    + apply IH; auto.
Qed.

Lemma pairwise_ne_remove (a b : list Translation) (x : Translation) :
  pairwise_ne (a ++ x :: b) ->
  pairwise_ne (a ++ b) /\
  forall y, In y (a ++ b) -> translation_eqb y x = false.
Proof.
  induction a as [|h t IH]; simpl.
  - intros [Hx Hb]. split; [assumption|].
    intros y Hy. apply translation_eqb_false_sym. now apply Hx.
  - intros [Hh Ht]. destruct (IH Ht) as [Hp Hn]. split; [split|].
    + intros y Hy. apply Hh. apply in_app_or in Hy as [Hy|Hy];
        apply in_or_app; [now left|right; now right].
    + assumption.
    + intros y [<-|Hy]; [|now apply Hn].
      apply Hh. apply in_or_app. right. now left.
Qed.

(** ** The scan over the tags *)

Section Scan.
Context {PF : PyFloat}.

Lemma nth_error_snoc {A} (l : list A) (a : A) (k : nat) (x : A) :
  nth_error (l ++ [a]) k = Some x ->
  ((k < List.length l)%nat /\ nth_error l k = Some x) \/
  (k = List.length l /\ x = a).
Proof.
  intros H. destruct (Nat.lt_ge_cases k (List.length l)) as [Hk|Hk].
  - left. split; [assumption|]. now rewrite nth_error_app1 in H.
  - right. rewrite nth_error_app2 in H by assumption.
    destruct (k - List.length l)%nat as [|n] eqn:E.
    + simpl in H. inversion H. split; [lia|reflexivity].
    + simpl in H. destruct n; discriminate.
Qed.

(** What one round of the bucket loop does to the bookkeeping, when it
    does not raise. *)
Lemma touch_effect (vals : list value) (i : nat) (tag : String.string)
    (st st' : scan) (tr : Translation) :
  scan_wf st ->
  touch vals i tag st tr = Ok st' ->
  exists index vi,
    find_index (String.eqb tag) (ids tr) = Some index /\
    nth_error vals i = Some vi /\
    scan_wf st' /\
    (exists k x vs, entry st' k x vs /\ translation_eqb x tr = true /\
                    nth_error vs index = Some vi) /\
    (forall k x vs, entry st k x vs ->
       exists vs', entry st' k x vs' /\
         (vs' = vs \/
          (translation_eqb x tr = true /\ setitem vs index vi = Ok vs'))) /\
    (forall k x vs', entry st' k x vs' ->
       (exists vs, entry st k x vs /\
          (vs' = vs \/
           (translation_eqb x tr = true /\ setitem vs index vi = Ok vs')))
       \/ (x = tr /\
           setitem (repeat (VInt sentinel) (List.length (ids tr))) index vi
           = Ok vs')).
Proof.
  intros [Hli [Hlv [Hne Hlen]]] H. unfold touch in H.
  destruct (find_index (String.eqb tag) (ids tr)) as [index|] eqn:Ei;
    [|discriminate].
  destruct (find_index (fun x => translation_eqb x tr) (trans_found st))
    as [tf|] eqn:Ef.
  - apply bind_ok in H as [idx [H1 H]].
    apply bind_ok in H as [fi [H2 H]].
    apply bind_ok in H as [vi [H3 H]].
    apply bind_ok in H as [v [H4 H]].
    apply bind_ok in H as [v' [H5 H]].
    apply bind_ok in H as [fv [H6 H]].
    inversion H; subst st'; clear H.
    apply getitem_ok in H3, H4.
    apply find_index_some in Ef as [x0 [Hx0 Heq]].
    destruct (setitem_spec _ _ _ _ H2) as [Hfi _].
    destruct (setitem_spec _ _ _ _ H5) as [Hv'l [Hv'i Hv'j]].
    destruct (setitem_spec _ _ _ _ H6) as [Hfvl [Hfvi Hfvj]].
    exists index, vi. split; [reflexivity|]. split; [assumption|].
    split; [|split; [|split]].
    + unfold scan_wf, entry; simpl. repeat split; try congruence.
      intros k x vs [Hx Hvs].
      destruct (Nat.eq_dec k tf) as [->|Hk].
      * assert (x = x0) by congruence. subst x.
        assert (vs = v') by congruence. subst vs.
        rewrite Hv'l. apply (Hlen tf). now split.
      * rewrite Hfvj in Hvs by assumption. apply (Hlen k). now split.
    + exists tf, x0, v'. unfold entry; simpl. auto.
    + intros k x vs [Hx Hvs]. unfold entry; simpl.
      destruct (Nat.eq_dec k tf) as [->|Hk].
      * assert (x = x0) by congruence. subst x.
        assert (vs = v) by congruence. subst vs.
        exists v'. auto.
      * exists vs. rewrite Hfvj by assumption. auto.
    + intros k x vs' [Hx Hvs]. simpl in Hx, Hvs. left.
      destruct (Nat.eq_dec k tf) as [->|Hk].
      * assert (x = x0) by congruence. subst x.
        assert (vs' = v') by congruence. subst vs'.
        exists v. unfold entry. auto.
      * rewrite Hfvj in Hvs by assumption. exists vs'. unfold entry. auto.
  - apply bind_ok in H as [vi [H3 H]].
    apply bind_ok in H as [v' [H5 H]].
    inversion H; subst st'; clear H.
    apply getitem_ok in H3.
    destruct (setitem_spec _ _ _ _ H5) as [Hv'l [Hv'i Hv'j]].
    rewrite repeat_length in Hv'l.
    pose proof (find_index_none _ _ Ef) as Hnone.
    exists index, vi. split; [reflexivity|]. split; [assumption|].
    split; [|split; [|split]].
    + unfold scan_wf, entry; simpl. rewrite !length_app. simpl.
      repeat split; try lia.
      * now apply pairwise_ne_app.
      * intros k x vs [Hx Hvs].
        apply nth_error_snoc in Hx as [[Hk Hx]|[Hk ->]];
          apply nth_error_snoc in Hvs as [[Hk' Hvs]|[Hk' ->]]; try lia.
        apply (Hlen k). now split.
    + exists (List.length (trans_found st)), tr, v'.
      unfold entry; simpl. repeat split.
      * rewrite nth_error_app2, Nat.sub_diag by lia. reflexivity.
      * rewrite <- Hlv at 1.
        rewrite nth_error_app2, Nat.sub_diag by lia. reflexivity.
      * apply translation_eqb_refl.
      * assumption.
    + intros k x vs [Hx Hvs]. exists vs. unfold entry; simpl.
      split; [|now left]. split.
      * rewrite nth_error_app1; [assumption|].
        apply nth_error_Some. congruence.
      * rewrite nth_error_app1; [assumption|].
        apply nth_error_Some. congruence.
    + intros k x vs' [Hx Hvs]. simpl in Hx, Hvs.
      apply nth_error_snoc in Hx as [[Hk Hx]|[Hk ->]];
        apply nth_error_snoc in Hvs as [[Hk' Hvs]|[Hk' ->]]; try lia.
      * left. exists vs'. unfold entry. auto.
      * right. auto.
Qed.

Lemma scan_wf_missing (st : scan) (m : list String.string)
    (mv : list value) :
  scan_wf st ->
  scan_wf (mkScan (trans_found st) m mv (trans_found_indexes st)
             (trans_found_values st)).
Proof. intros H. exact H. Qed.

Lemma touch_bucket_app (vals : list value) (i : nat) (tag : String.string)
    (a b : list Translation) (st : scan) :
  touch_bucket vals i tag st (a ++ b)
  = (st' <- touch_bucket vals i tag st a ;; touch_bucket vals i tag st' b).
Proof.
  revert st. induction a as [|tr a IH]; intros st; simpl; [reflexivity|].
  destruct (touch vals i tag st tr); simpl; [apply IH|reflexivity].
Qed.

Lemma scan_tags_app (self : TranslationFile) (vals : list value)
    (a b : list (nat * String.string)) (st : scan) :
  scan_tags self vals (a ++ b) st
  = (st' <- scan_tags self vals a st ;; scan_tags self vals b st').
Proof.
  revert st. induction a as [|[i tag] a IH]; intros st; simpl;
    [reflexivity|].
  match goal with |- (x <- ?c ;; _) = _ => destruct c end; simpl;
    [apply IH|reflexivity].
Qed.

(** A property that every round keeps holds when the loops are over. *)
Section Invariant.
Variable P : scan -> Prop.
Variable vals : list value.
Variable ok : nat -> String.string -> Prop.
Hypothesis P_missing : forall st m mv,
  P st ->
  P (mkScan (trans_found st) m mv (trans_found_indexes st)
       (trans_found_values st)).
Hypothesis P_touch : forall i tag st tr st',
  ok i tag -> scan_wf st -> P st ->
  touch vals i tag st tr = Ok st' -> P st'.

Lemma touch_bucket_inv (i : nat) (tag : String.string)
    (bucket : list Translation) (st st' : scan) :
  ok i tag -> scan_wf st -> P st ->
  touch_bucket vals i tag st bucket = Ok st' ->
  scan_wf st' /\ P st'.
Proof.
  intros Hok. revert st. induction bucket as [|tr b IH]; intros st W HP;
    simpl.
  - intros [= <-]. auto.
  - intros H. apply bind_ok in H as [st1 [H1 H]].
    destruct (touch_effect _ _ _ _ _ _ W H1) as [? [? [_ [_ [W1 _]]]]].
    apply (IH st1); eauto.
Qed.

Lemma scan_tags_inv (self : TranslationFile)
    (items : list (nat * String.string)) (st st' : scan) :
  (forall i tag, In (i, tag) items -> ok i tag) ->
  scan_wf st -> P st ->
  scan_tags self vals items st = Ok st' ->
  scan_wf st' /\ P st'.
Proof.
  revert st. induction items as [|[i tag] items IH]; intros st Hok W HP;
    simpl.
  - intros [= <-]. auto.
  - intros H. apply bind_ok in H as [st1 [H1 H]].
    assert (W1 : scan_wf st1 /\ P st1).
    { destruct (dict_get (_translations_hash self) tag) as [bucket|].
      - apply (touch_bucket_inv i tag bucket st); auto.
        apply Hok. now left.
      - apply bind_ok in H1 as [vi [_ H1]]. inversion H1; subst st1.
        split; [now apply scan_wf_missing|now apply P_missing]. }
    destruct W1 as [W1 HP1].
    apply (IH st1); auto. intros. apply Hok. now right.
Qed.
End Invariant.

Lemma scan_tags_wf (self : TranslationFile) (vals : list value)
    (items : list (nat * String.string)) (st st' : scan) :
  scan_wf st -> scan_tags self vals items st = Ok st' -> scan_wf st'.
Proof.
  intros W H.
  apply (scan_tags_inv (fun _ => True) vals (fun _ _ => True)) in H;
    auto; tauto.
Qed.

Lemma touch_bucket_wf (vals : list value) (i : nat) (tag : String.string)
    (bucket : list Translation) (st st' : scan) :
  scan_wf st -> touch_bucket vals i tag st bucket = Ok st' -> scan_wf st'.
Proof.
  intros W H.
  apply (touch_bucket_inv (fun _ => True) vals (fun _ _ => True)) in H;
    auto; tauto.
Qed.

Lemma scan_wf_empty : scan_wf (mkScan [] [] [] [] []).
Proof.
  unfold scan_wf, entry; simpl. repeat split; auto.
  intros [|k] x vs [H _]; discriminate.
Qed.

(** A property the round for [T] under the tag at position [i] sets up,
    and every later round keeps, holds in the end. *)
Section After.
Variable P : scan -> Prop.
Variable vals : list value.
Variable ok : nat -> String.string -> Prop.
Variable self : TranslationFile.
Variable T : Translation.
Variable i : nat.
Variable tag : String.string.
Hypothesis P_missing : forall st m mv,
  P st ->
  P (mkScan (trans_found st) m mv (trans_found_indexes st)
       (trans_found_values st)).
Hypothesis P_touch : forall i' tag' st tr st',
  ok i' tag' -> scan_wf st -> P st ->
  touch vals i' tag' st tr = Ok st' -> P st'.
Hypothesis P_first : forall st st',
  scan_wf st -> touch vals i tag st T = Ok st' -> P st'.

Lemma scan_tags_after (tags : list String.string)
    (bucket : list Translation) (st : scan) :
  nth_error tags i = Some tag ->
  dict_get (_translations_hash self) tag = Some bucket ->
  In T bucket ->
  ok i tag ->
  (forall j tag', (i < j)%nat -> nth_error tags j = Some tag' ->
     ok j tag') ->
  scan_tags self vals (enumerate tags) (mkScan [] [] [] [] []) = Ok st ->
  scan_wf st /\ P st.
Proof.
  intros Htag Hb HT Hok Hlater H.
  apply nth_error_split in Htag as [pre [post [-> Hpre]]].
  unfold enumerate in H. rewrite enumerate_from_app in H. simpl in H.
  rewrite scan_tags_app in H. apply bind_ok in H as [st1 [H1 H]].
  apply scan_tags_wf in H1 as W1; [|apply scan_wf_empty].
  simpl in H. rewrite Hpre in H. apply bind_ok in H as [st2 [H2 H]].
  rewrite Hb in H2.
  apply in_split in HT as [b1 [b2 ->]].
  rewrite touch_bucket_app in H2. apply bind_ok in H2 as [st3 [H3 H2]].
  apply touch_bucket_wf in H3 as W3; [|assumption].
  simpl in H2. apply bind_ok in H2 as [st4 [H4 H2]].
  pose proof (P_first _ _ W3 H4) as P4.
  destruct (touch_effect _ _ _ _ _ _ W3 H4) as [? [? [_ [_ [W4 _]]]]].
  apply (touch_bucket_inv P vals ok P_touch i tag) in H2 as [W2 P2];
    auto.
  apply (scan_tags_inv P vals ok P_missing P_touch) in H; auto.
  intros j tag' Hin. apply in_enumerate_from in Hin as [Hj Hn].
  apply (Hlater j tag'); [lia|].
  rewrite nth_error_app2 by lia.
  replace (j - List.length pre)%nat with (S (j - S i)) by lia.
  simpl. subst i. exact Hn.
Qed.
End After.

Lemma written_by_missing (tags : list String.string) (st : scan)
    (m : list String.string) (mv : list value) :
  written_by tags st ->
  written_by tags (mkScan (trans_found st) m mv (trans_found_indexes st)
                     (trans_found_values st)).
Proof. intros H. exact H. Qed.

Lemma written_by_touch (tags : list String.string) (vals : list value)
    (i : nat) (tag : String.string) (st st' : scan) (tr : Translation) :
  In tag tags -> scan_wf st -> written_by tags st ->
  touch vals i tag st tr = Ok st' -> written_by tags st'.
Proof.
  intros Hin W HP H.
  destruct (touch_effect _ _ _ _ _ _ W H)
    as [index [vi [Hi [_ [_ [_ [_ E3]]]]]]].
  intros k x vs' q v He Hq.
  destruct (E3 _ _ _ He) as [[vs [He0 [->|[Heq Hset]]]]|[-> Hset]].
  - eapply HP; eauto.
  - destruct (setitem_spec _ _ _ _ Hset) as [_ [_ Hj]].
    destruct (Nat.eq_dec q index) as [->|Hne].
    + right. exists tag. split; [assumption|].
      now rewrite (translation_eqb_ids _ _ Heq).
    + rewrite Hj in Hq by assumption. eapply HP; eauto.
  - destruct (setitem_spec _ _ _ _ Hset) as [_ [_ Hj]].
    destruct (Nat.eq_dec q index) as [->|Hne].
    + right. exists tag. auto.
    + rewrite Hj in Hq by assumption. left.
      apply nth_error_In in Hq. now apply repeat_spec in Hq.
Qed.

Lemma has_entry_missing (T : Translation) (st : scan)
    (m : list String.string) (mv : list value) :
  has_entry T st ->
  has_entry T (mkScan (trans_found st) m mv (trans_found_indexes st)
                 (trans_found_values st)).
Proof. intros H. exact H. Qed.

Lemma has_entry_touch (T : Translation) (vals : list value)
    (i : nat) (tag : String.string) (st st' : scan) (tr : Translation) :
  scan_wf st -> has_entry T st ->
  touch vals i tag st tr = Ok st' -> has_entry T st'.
Proof.
  intros W [k [x [vs [He Heq]]]] H.
  destruct (touch_effect _ _ _ _ _ _ W H)
    as [index [vi [_ [_ [_ [_ [E2 _]]]]]]].
  destruct (E2 _ _ _ He) as [vs' [He' _]].
  exists k, x, vs'. auto.
Qed.

Lemma has_entry_first (T : Translation) (vals : list value)
    (i : nat) (tag : String.string) (st st' : scan) :
  scan_wf st -> touch vals i tag st T = Ok st' -> has_entry T st'.
Proof.
  intros W H.
  destruct (touch_effect _ _ _ _ _ _ W H)
    as [index [vi [_ [_ [_ [[k [x [vs [He [Heq _]]]]] _]]]]]].
  exists k, x, vs. auto.
Qed.

Lemma marker_at_missing (T : Translation) (p : nat) (st : scan)
    (m : list String.string) (mv : list value) :
  marker_at T p st ->
  marker_at T p (mkScan (trans_found st) m mv (trans_found_indexes st)
                   (trans_found_values st)).
Proof. intros H. exact H. Qed.

(** A later round keeps the marker when it writes the marker itself or
    writes for a tag that sits elsewhere in the ids. *)
Lemma marker_at_touch (T : Translation) (p : nat) (vals : list value)
    (i : nat) (tag : String.string) (st st' : scan) (tr : Translation) :
  nth_error vals i = Some (VInt sentinel) \/
  find_index (String.eqb tag) (ids T) <> Some p ->
  scan_wf st -> marker_at T p st ->
  touch vals i tag st tr = Ok st' -> marker_at T p st'.
Proof.
  intros Hok W [k [x [vs [He [Heq Hp]]]]] H.
  destruct (touch_effect _ _ _ _ _ _ W H)
    as [index [vi [Hi [Hvi [_ [_ [E2 _]]]]]]].
  destruct (E2 _ _ _ He) as [vs' [He' [->|[Heq' Hset]]]].
  - exists k, x, vs. auto.
  - exists k, x, vs'. split; [assumption|]. split; [assumption|].
    destruct (setitem_spec _ _ _ _ Hset) as [_ [Hat Hj]].
    destruct (Nat.eq_dec p index) as [->|Hne].
    + destruct Hok as [Hs|Hs].
      * congruence.
      * exfalso. apply Hs.
        rewrite <- (translation_eqb_ids _ _ Heq).
        now rewrite (translation_eqb_ids _ _ Heq').
    + now rewrite Hj.
Qed.

Lemma marker_at_first (T : Translation) (p : nat) (vals : list value)
    (i : nat) (tag : String.string) (st st' : scan) :
  nth_error vals i = Some (VInt sentinel) ->
  find_index (String.eqb tag) (ids T) = Some p ->
  scan_wf st -> touch vals i tag st T = Ok st' -> marker_at T p st'.
Proof.
  intros Hv Hp W H.
  destruct (touch_effect _ _ _ _ _ _ W H)
    as [index [vi [Hi [Hvi [_ [[k [x [vs [He [Heq Hat]]]]] _]]]]]].
  exists k, x, vs. split; [assumption|]. split; [assumption|].
  congruence.
Qed.

(** ** The invalid translations and their removal *)

Lemma collect_invalid_spec (found_ : list Translation)
    (l : list (list value)) (n : nat) (inv : list Translation) :
  collect_invalid found_ (enumerate_from n l) = Ok inv ->
  (forall j vs x, nth_error l j = Some vs ->
     nth_error found_ (n + j) = Some x ->
     existsb is_sentinel vs = true -> In x inv) /\
  (forall y, In y inv -> In y found_).
Proof.
  revert n inv. induction l as [|vs0 l IH]; intros n inv; simpl.
  - intros [= <-]. split; [intros [|j] ? ?; discriminate|intros y []].
  - destruct (existsb is_sentinel vs0) eqn:E.
    + intros H. apply bind_ok in H as [tr [H1 H]].
      apply bind_ok in H as [inv' [H2 H]]. inversion H; subst inv; clear H.
      apply getitem_ok in H1. destruct (IH _ _ H2) as [IH1 IH2]. split.
      * intros [|j] vs x Hvs Hx Hs; simpl in Hvs.
        -- rewrite Nat.add_0_r in Hx. left. congruence.
        -- right. apply (IH1 j vs x); auto.
           now replace (S n + j)%nat with (n + S j)%nat by lia.
      * intros y [<-|Hy]; [|now apply IH2].
        now apply nth_error_In in H1.
    + intros H. destruct (IH _ _ H) as [IH1 IH2]. split; [|exact IH2].
      intros [|j] vs x Hvs Hx Hs; simpl in Hvs.
      * congruence.
      * apply (IH1 j vs x); auto.
        now replace (S n + j)%nat with (n + S j)%nat by lia.
Qed.

Lemma find_index_split {A} (p : A -> bool) (l l' : list A) (k : nat) :
  find_index p l = Some k -> delitem l k = Ok l' ->
  exists a x b, l = a ++ x :: b /\ p x = true /\ l' = a ++ b.
Proof.
  intros Hf Hd. apply find_index_some in Hf as [x [Hx Hp]].
  apply delitem_spec in Hd as [a [y [b [-> [Hl ->]]]]].
  exists a, y, b. repeat split.
  rewrite nth_error_app2, Hl, Nat.sub_diag in Hx by lia.
  simpl in Hx. congruence.
Qed.

(** What is deleted is gone for good, and nothing else comes in. *)
Lemma remove_invalid_spec (inv : list Translation) (st st' : scan) :
  pairwise_ne (trans_found st) ->
  remove_invalid inv st = Ok st' ->
  pairwise_ne (trans_found st') /\
  (forall y, In y (trans_found st') -> In y (trans_found st)) /\
  (forall tr y, In tr inv -> In y (trans_found st') ->
     translation_eqb y tr = false).
Proof.
  revert st. induction inv as [|tr inv IH]; intros st Hne; simpl.
  - intros [= <-]. repeat split; auto. intros tr y [].
  - destruct (find_index (fun x => translation_eqb x tr) (trans_found st))
      as [index|] eqn:Ef; [|discriminate].
    intros H. apply bind_ok in H as [f [H1 H]].
    apply bind_ok in H as [fi [H2 H]].
    apply bind_ok in H as [fv [H3 H]].
    destruct (find_index_split _ _ _ _ Ef H1) as [a [x [b [Ea [Hx ->]]]]].
    rewrite Ea in Hne. destruct (pairwise_ne_remove _ _ _ Hne) as [Hne' Hx'].
    apply IH in H as [G1 [G2 G3]]; [|exact Hne']. simpl in G2.
    assert (Hsub : forall y, In y (trans_found st') ->
                     In y (a ++ b)) by exact G2.
    repeat split.
    + exact G1.
    + intros y Hy. rewrite Ea. apply Hsub in Hy.
      apply in_app_or in Hy as [Hy|Hy]; apply in_or_app;
        [now left|right; now right].
    + intros tr' y [<-|Htr] Hy; [|now apply G3].
      destruct (translation_eqb y tr) eqn:E; [|reflexivity].
      assert (Hyx : translation_eqb y x = true).
      { apply translation_eqb_trans with tr; [assumption|].
        now apply translation_eqb_sym. }
      rewrite (Hx' y (Hsub y Hy)) in Hyx. discriminate.
Qed.

Lemma render_length (st : scan) (lang : String.string)
    (full ph ov : bool) (items : list (nat * Translation))
    (ls : list line) (un : list (list hval))
    (r : list line * list (list hval)) :
  render st lang full ph ov items ls un = Ok r ->
  List.length (fst r) = (List.length ls + List.length items)%nat.
Proof.
  revert ls un. induction items as [|[i tr] items IH]; intros ls un; simpl.
  - intros [= <-]. simpl. lia.
  - destruct (get_language tr lang) as [tl|]; [|discriminate].
    intros H. apply bind_ok in H as [vs [_ H]].
    apply bind_ok in H as [ixs [_ H]].
    apply bind_ok in H as [res [_ H]].
    apply IH in H. rewrite H, length_app. simpl. lia.
Qed.

End Scan.

(** ** Queries *)

Section Queries.
Context {PF : PyFloat}.

(** The stages of a query that hands back a result object. *)
Lemma get_translation_full (self : TranslationFile)
    (tags : list String.string) (vals : list value) (lang : String.string)
    (ph ov : bool) (res : TranslationResult) :
  get_translation self tags vals lang true ph ov = Ok (Full res) ->
  exists st inv st' r,
    scan_tags self vals (enumerate tags) (mkScan [] [] [] [] []) = Ok st /\
    collect_invalid (trans_found st) (enumerate (trans_found_values st))
    = Ok inv /\
    remove_invalid inv st = Ok st' /\
    render st' lang true ph ov (enumerate (trans_found st')) [] [] = Ok r /\
    found res = trans_found st' /\ invalid res = inv /\ lines res = fst r.
Proof.
  unfold get_translation. intros H.
  apply bind_ok in H as [st [H1 H]].
  apply bind_ok in H as [inv [H2 H]].
  apply bind_ok in H as [st' [H3 H]].
  apply bind_ok in H as [r [H4 H]].
  inversion H; subst res; clear H. exists st, inv, st', r. simpl. auto 10.
Qed.

(** The lines do not depend on [full_result]. *)
Lemma render_flag (st : scan) (lang : String.string) (ph ov : bool)
    (items : list (nat * Translation)) (ls : list line)
    (un1 un2 : list (list hval)) :
  match render st lang true ph ov items ls un1,
        render st lang false ph ov items ls un2 with
  | Ok r1, Ok r2 => fst r1 = fst r2
  | Raise e1, Raise e2 => e1 = e2
  | _, _ => False
  end.
Proof.
  revert ls un1 un2.
  induction items as [|[i tr] items IH]; intros ls un1 un2; simpl;
    [reflexivity|].
  destruct (get_language tr lang) as [tl|]; [|reflexivity].
  destruct (getitem (trans_found_values st) i) as [vs|]; simpl;
    [|reflexivity].
  destruct (getitem (trans_found_indexes st) i) as [ixs|]; simpl;
    [|reflexivity].
  destruct (get_string tl vs ixs ph ov) as [res|]; simpl; [|reflexivity].
  apply IH.
Qed.

(** Without [full_result] the query hands back the lines of the result
    object. *)
Lemma get_translation_plain (self : TranslationFile)
    (tags : list String.string) (vals : list value) (lang : String.string)
    (ph ov : bool) (res : TranslationResult) :
  get_translation self tags vals lang true ph ov = Ok (Full res) ->
  get_translation self tags vals lang false ph ov = Ok (Lines (lines res)).
Proof.
  unfold get_translation.
  destruct (scan_tags self vals (enumerate tags) (mkScan [] [] [] [] []))
    as [st|]; simpl; [|discriminate].
  destruct (collect_invalid (trans_found st)
              (enumerate (trans_found_values st))) as [inv|]; simpl;
    [|discriminate].
  destruct (remove_invalid inv st) as [st'|]; simpl; [|discriminate].
  pose proof (render_flag st' lang ph ov (enumerate (trans_found st'))
                [] [] []) as F.
  destruct (render st' lang true ph ov (enumerate (trans_found st')) [] [])
    as [r1|]; simpl; [|discriminate].
  destruct (render st' lang false ph ov (enumerate (trans_found st')) [] [])
    as [r2|]; [|contradiction].
  intros [= <-]. simpl. now rewrite F.
Qed.

(** A translation whose vector holds the marker when the scan is over is
    reported invalid, is not among the found ones, and every line left
    belongs to a found one. *)
Lemma marker_makes_invalid (self : TranslationFile)
    (tags : list String.string) (vals : list value) (lang : String.string)
    (ph ov : bool) (res : TranslationResult) (T : Translation) :
  get_translation self tags vals lang true ph ov = Ok (Full res) ->
  (forall st,
     scan_tags self vals (enumerate tags) (mkScan [] [] [] [] []) = Ok st ->
     exists p, marker_at T p st) ->
  (exists x, In x (invalid res) /\ translation_eqb x T = true) /\
  (forall y, In y (found res) -> translation_eqb y T = false) /\
  List.length (lines res) = List.length (found res) /\
  get_translation self tags vals lang false ph ov = Ok (Lines (lines res)).
Proof.
  intros H Hm.
  pose proof (get_translation_plain _ _ _ _ _ _ _ H) as Hplain.
  destruct (get_translation_full _ _ _ _ _ _ _ H)
    as [st [inv [st' [r [H1 [H2 [H3 [H4 [Hf [Hi Hl]]]]]]]]]].
  rewrite Hf, Hi.
  pose proof (scan_tags_wf _ _ _ _ _ scan_wf_empty H1) as [_ [_ [Hne _]]].
  destruct (Hm _ H1) as [p [k [x [vs [[Hx Hvs] [Heq Hp]]]]]].
  destruct (collect_invalid_spec _ _ _ _ H2) as [C1 _].
  assert (Hin : In x inv).
  { apply (C1 k vs x); auto. apply existsb_exists.
    exists (VInt sentinel). split; [now apply nth_error_In in Hp|].
    apply Z.eqb_refl. }
  destruct (remove_invalid_spec _ _ _ Hne H3) as [_ [_ R]].
  split; [eauto|]. split.
  - intros y Hy. destruct (translation_eqb y T) eqn:E; [|reflexivity].
    assert (Hyx : translation_eqb y x = true).
    { apply translation_eqb_trans with T; [assumption|].
      now apply translation_eqb_sym. }
    rewrite (R x y Hin Hy) in Hyx. discriminate.
  - split; [|exact Hplain].
    apply render_length in H4. rewrite Hl, H4. simpl.
    unfold enumerate. now rewrite length_enumerate_from.
Qed.

(** C3.  A query that reaches a translation but leaves one of its ids
    without a value has that translation in [invalid] and not in [found],
    and the lines are those of the found translations alone. *)
Theorem partial_query_is_invalid (self : TranslationFile)
    (tags : list String.string) (vals : list value) (lang : String.string)
    (ph ov : bool) (res : TranslationResult) (T : Translation) :
  get_translation self tags vals lang true ph ov = Ok (Full res) ->
  (exists i tag bucket,
     nth_error tags i = Some tag /\
     dict_get (_translations_hash self) tag = Some bucket /\
     In T bucket) ->
  (exists id_, In id_ (ids T) /\ ~ In id_ tags) ->
  (exists x, In x (invalid res) /\ translation_eqb x T = true) /\
  (forall y, In y (found res) -> translation_eqb y T = false) /\
  List.length (lines res) = List.length (found res) /\
  get_translation self tags vals lang false ph ov = Ok (Lines (lines res)).
Proof.
  intros H [i [tag [bucket [Htag [Hb HT]]]]] [id_ [Hid Hnot]].
  apply (marker_makes_invalid _ _ _ _ _ _ _ _ H).
  intros st Hscan.
  destruct (index_of_member _ _ Hid) as [p [Hp Hlt]].
  exists p.
  assert (HW : scan_wf st /\ written_by tags st).
  { apply (scan_tags_inv (written_by tags) vals (fun _ t => In t tags))
      with (self := self) (items := enumerate tags)
           (st := mkScan [] [] [] [] []).
    - intros st0 m mv. apply written_by_missing.
    - intros j t st0 tr st1 Hin W0 Hw0 Ht.
      now apply (written_by_touch tags vals j t st0 st1 tr).
    - intros j t Hin. apply in_enumerate_from in Hin as [_ Hin].
      now apply nth_error_In in Hin.
    - apply scan_wf_empty.
    - intros [|k] x vs q v [Hx _]; discriminate.
    - exact Hscan. }
  destruct HW as [W Hw].
  assert (HE : has_entry T st).
  { apply (scan_tags_after (has_entry T) vals (fun _ _ => True) self T
             i tag)
      with (tags := tags) (bucket := bucket);
      [ | | | assumption | assumption | assumption | exact I
        | intros; exact I | assumption ].
    - intros st0 m mv. apply has_entry_missing.
    - intros j t st0 tr st1 _ W0 He0 Ht.
      now apply (has_entry_touch T vals j t st0 st1 tr).
    - intros st0 st1 W0 Ht.
      now apply (has_entry_first T vals i tag st0 st1). }
  destruct HE as [k [x [vs [He Heq]]]].
  exists k, x, vs. split; [assumption|]. split; [assumption|].
  destruct W as [_ [_ [_ Hlen]]]. specialize (Hlen _ _ _ He).
  rewrite (translation_eqb_ids _ _ Heq) in Hlen.
  destruct (nth_error vs p) as [v|] eqn:Ev;
    [|apply nth_error_None in Ev; lia].
  destruct (Hw _ _ _ _ _ He Ev) as [->|[t [Ht Hf]]]; [reflexivity|].
  exfalso. apply Hnot.
  rewrite (translation_eqb_ids _ _ Heq) in Hf.
  apply index_of_tag in Hf, Hp. congruence.
Qed.

(** C10 (as amended).  A value equal to the marker 4294967295, given for a
    tag that does not come again later in the query, makes every
    translation in the bucket of that tag invalid. *)
Theorem marker_value_is_invalid (self : TranslationFile)
    (tags : list String.string) (vals : list value) (lang : String.string)
    (ph ov : bool) (res : TranslationResult) (T : Translation)
    (i : nat) (tag : String.string) (bucket : list Translation) :
  get_translation self tags vals lang true ph ov = Ok (Full res) ->
  nth_error tags i = Some tag ->
  nth_error vals i = Some (VInt 4294967295) ->
  dict_get (_translations_hash self) tag = Some bucket ->
  In T bucket ->
  (forall j, (i < j)%nat -> nth_error tags j <> Some tag) ->
  (exists x, In x (invalid res) /\ translation_eqb x T = true) /\
  (forall y, In y (found res) -> translation_eqb y T = false) /\
  List.length (lines res) = List.length (found res) /\
  get_translation self tags vals lang false ph ov = Ok (Lines (lines res)).
Proof.
  intros H Htag Hval Hb HT Hlast.
  apply (marker_makes_invalid _ _ _ _ _ _ _ _ H).
  intros st Hscan.
  assert (G : scan_wf st /\
              exists p, find_index (String.eqb tag) (ids T) = Some p /\
                        marker_at T p st).
  { apply (scan_tags_after
             (fun st => exists p,
                find_index (String.eqb tag) (ids T) = Some p /\
                marker_at T p st)
             vals
             (fun j t => nth_error vals j = Some (VInt sentinel) \/ t <> tag)
             self T i tag)
      with (tags := tags) (bucket := bucket);
      [ | | | assumption | assumption | assumption | now left
        | | assumption ].
    - intros st0 m mv [p [Hp Hm]]. exists p. split; [assumption|].
      now apply marker_at_missing.
    - intros j t st0 tr st1 Hok W [p [Hp Hm]] Ht. exists p.
      split; [assumption|].
      apply (marker_at_touch T p vals j t st0 st1 tr); auto.
      destruct Hok as [Hs|Hne]; [now left|right].
      intros Hf. apply Hne. apply index_of_tag in Hf, Hp. congruence.
    - intros st0 st1 W Ht.
      destruct (touch_effect _ _ _ _ _ _ W Ht) as [p [vi [Hp _]]].
      exists p. split; [assumption|].
      apply (marker_at_first T p vals i tag st0 st1); auto.
    - intros j t Hj Ht. right. intros ->. now apply (Hlast j). }
  destruct G as [_ [p [_ Hm]]]. eauto.
Qed.

End Queries.

(** ** Queries with lists of different lengths, and empty bundles *)

Section Mismatch.
Context {PF : PyFloat}.

Lemma getitem_app_l {A} (l extra : list A) (i : nat) :
  (i < List.length l)%nat -> getitem (l ++ extra) i = getitem l i.
Proof. intros H. unfold getitem. now rewrite nth_error_app1. Qed.

Lemma touch_extra (vals extra : list value) (i : nat)
    (tag : String.string) (st : scan) (tr : Translation) :
  (i < List.length vals)%nat ->
  touch (vals ++ extra) i tag st tr = touch vals i tag st tr.
Proof. intros H. unfold touch. now rewrite getitem_app_l. Qed.

Lemma touch_bucket_extra (vals extra : list value) (i : nat)
    (tag : String.string) (bucket : list Translation) (st : scan) :
  (i < List.length vals)%nat ->
  touch_bucket (vals ++ extra) i tag st bucket
  = touch_bucket vals i tag st bucket.
Proof.
  intros H. revert st. induction bucket as [|tr b IH]; intros st; simpl;
    [reflexivity|].
  rewrite touch_extra by assumption.
  destruct (touch vals i tag st tr); simpl; [apply IH|reflexivity].
Qed.

Lemma scan_tags_extra (self : TranslationFile) (vals extra : list value)
    (items : list (nat * String.string)) (st : scan) :
  (forall i tag, In (i, tag) items -> (i < List.length vals)%nat) ->
  scan_tags self (vals ++ extra) items st = scan_tags self vals items st.
Proof.
  revert st. induction items as [|[i tag] items IH]; intros st H; simpl;
    [reflexivity|].
  assert (Hi : (i < List.length vals)%nat) by (apply (H i tag); now left).
  assert (IH' : forall st', scan_tags self (vals ++ extra) items st'
                            = scan_tags self vals items st').
  { intros st'. apply IH. intros j t Hin. apply (H j t). now right. }
  destruct (dict_get (_translations_hash self) tag) as [bucket|].
  - rewrite touch_bucket_extra by assumption.
    destruct (touch_bucket vals i tag st bucket); simpl;
      [apply IH'|reflexivity].
  - rewrite getitem_app_l by assumption.
    destruct (getitem vals i); simpl; [apply IH'|reflexivity].
Qed.

(** A round for a position past the end of the values raises. *)
Lemma touch_short (vals : list value) (i : nat) (tag : String.string)
    (st : scan) (tr : Translation) :
  scan_wf st -> In tag (ids tr) -> (List.length vals <= i)%nat ->
  touch vals i tag st tr = Raise IndexError.
Proof.
  intros [Hli [Hlv _]] Hin Hi. unfold touch.
  destruct (index_of_member _ _ Hin) as [index [-> _]].
  rewrite (getitem_out_of_range vals i Hi).
  destruct (find_index (fun x => translation_eqb x tr) (trans_found st))
    as [tf|] eqn:Ef; [|reflexivity].
  apply find_index_some in Ef as [x0 [Hx0 _]].
  assert (Htf : (tf < List.length (trans_found_indexes st))%nat).
  { rewrite Hli. apply nth_error_Some. congruence. }
  destruct (getitem_in_range _ _ Htf) as [idx ->]. simpl.
  destruct (setitem_ok _ _ (idx ++ [index]) Htf) as [fi ->]. reflexivity.
Qed.

(** A round for a position that has a value goes through. *)
Lemma touch_progress (vals : list value) (i : nat) (tag : String.string)
    (st : scan) (tr : Translation) :
  scan_wf st -> In tag (ids tr) -> (i < List.length vals)%nat ->
  exists st', touch vals i tag st tr = Ok st'.
Proof.
  intros [Hli [Hlv [_ Hlen]]] Hin Hi. unfold touch.
  destruct (index_of_member _ _ Hin) as [index [-> Hindex]].
  destruct (getitem_in_range _ _ Hi) as [vi ->].
  destruct (find_index (fun x => translation_eqb x tr) (trans_found st))
    as [tf|] eqn:Ef.
  - apply find_index_some in Ef as [x0 [Hx0 Heq]].
    assert (Htf : (tf < List.length (trans_found st))%nat).
    { apply nth_error_Some. congruence. }
    assert (Htf1 : (tf < List.length (trans_found_indexes st))%nat) by lia.
    assert (Htf2 : (tf < List.length (trans_found_values st))%nat) by lia.
    destruct (getitem_in_range _ _ Htf1) as [idx ->]. simpl.
    destruct (setitem_ok _ _ (idx ++ [index]) Htf1) as [fi ->]. simpl.
    destruct (getitem_in_range _ _ Htf2) as [v Hv]. rewrite Hv. simpl.
    apply getitem_ok in Hv.
    assert (Hl : List.length v = List.length (ids x0))
      by (apply (Hlen tf); now split).
    rewrite (translation_eqb_ids _ _ Heq) in Hl.
    destruct (setitem_ok v index vi) as [v' ->]; [lia|]. simpl.
    destruct (setitem_ok _ _ v' Htf2) as [fv ->]. simpl. eauto.
  - simpl.
    destruct (setitem_ok (repeat (VInt sentinel) (List.length (ids tr)))
                index vi) as [v' ->]; [now rewrite repeat_length|].
    simpl. eauto.
Qed.

Lemma touch_bucket_progress (vals : list value) (i : nat)
    (tag : String.string) (bucket : list Translation) (st : scan) :
  scan_wf st -> (forall tr, In tr bucket -> In tag (ids tr)) ->
  (i < List.length vals)%nat ->
  exists st', touch_bucket vals i tag st bucket = Ok st' /\ scan_wf st'.
Proof.
  intros W Hb Hi. revert st W.
  induction bucket as [|tr b IH]; intros st W; simpl; [eauto|].
  destruct (touch_progress vals i tag st tr W) as [st1 H1];
    [apply Hb; now left|assumption|].
  rewrite H1. simpl.
  destruct (touch_effect _ _ _ _ _ _ W H1) as [? [? [_ [_ [W1 _]]]]].
  apply IH; [|assumption]. intros. apply Hb. now right.
Qed.

Lemma scan_tags_short (self : TranslationFile) (vals : list value) :
  index_ok self ->
  forall (tags : list String.string) (n : nat) (st : scan),
    scan_wf st -> (n <= List.length vals)%nat ->
    (List.length vals < n + List.length tags)%nat ->
    scan_tags self vals (enumerate_from n tags) st = Raise IndexError.
Proof.
  intros Hok tags. induction tags as [|tag tags IH]; intros n st W Hn Hlt;
    simpl in *; [lia|].
  destruct (Nat.eq_dec n (List.length vals)) as [->|Hne].
  - destruct (dict_get (_translations_hash self) tag) as [bucket|] eqn:Eb.
    + destruct (Hok _ _ Eb) as [Hnil Hin].
      destruct bucket as [|tr b]; [congruence|]. simpl.
      rewrite touch_short; auto. apply Hin. now left.
    + now rewrite getitem_out_of_range.
  - assert (Hlt' : (n < List.length vals)%nat) by lia.
    destruct (dict_get (_translations_hash self) tag) as [bucket|] eqn:Eb.
    + destruct (Hok _ _ Eb) as [_ Hin].
      destruct (touch_bucket_progress vals n tag bucket st W Hin Hlt')
        as [st1 [-> W1]]. simpl. apply IH; auto; lia.
    + destruct (getitem_in_range _ _ Hlt') as [vi ->]. simpl.
      apply IH; [now apply scan_wf_missing|lia|lia].
Qed.

(** C8 (as amended).  The lengths of the two lists are not compared.
    Values past the last tag are not looked at; with fewer values than
    tags, on a file whose index is in order, the query raises
    [IndexError] when it reaches the first tag without a value. *)
Theorem length_mismatch (self : TranslationFile)
    (tags : list String.string) (vals : list value) (lang : String.string)
    (full ph ov : bool) :
  (forall extra, (List.length tags <= List.length vals)%nat ->
     get_translation self tags (vals ++ extra) lang full ph ov
     = get_translation self tags vals lang full ph ov) /\
  (index_ok self -> (List.length vals < List.length tags)%nat ->
   get_translation self tags vals lang full ph ov = Raise IndexError).
Proof.
  split.
  - intros extra Hlen. unfold get_translation.
    rewrite scan_tags_extra; [reflexivity|].
    intros i tag Hin. apply in_enumerate_from in Hin as [_ Hin].
    assert ((i - 0 < List.length tags)%nat)
      by (apply nth_error_Some; congruence).
    lia.
  - intros Hok Hlen. unfold get_translation, enumerate.
    rewrite (scan_tags_short self vals Hok); [reflexivity| | |].
    + apply scan_wf_empty.
    + lia.
    + lia.
Qed.

(** C9.  A translation whose only bundle has no strings makes the query
    raise [IndexError], whatever the id, the language asked for and the
    mode. *)
Theorem empty_bundle_raises (id_ lang : String.string) (full ph ov : bool) :
  let T := mkTranslation [mkLanguage "English" []] [id_] in
  get_translation (mkFile [T] [(id_, [T])]) [id_] [VInt 1] lang full ph ov
  = Raise IndexError.
Proof.
  intros T. unfold get_translation, enumerate.
  cbn -[String.eqb touch]. rewrite !String.eqb_refl.
  assert (Ht : touch [VInt 1] 0 id_ (mkScan [] [] [] [] []) T
               = Ok (mkScan [T] [] [] [[0%nat]] [[VInt 1]])).
  { unfold touch, T. cbn -[String.eqb]. rewrite String.eqb_refl.
    reflexivity. }
  unfold touch_bucket. rewrite Ht.
  cbn -[String.eqb get_language translation_eqb].
  assert (E : get_language T lang = Some (mkLanguage "English" [])).
  { unfold get_language, T. cbn -[String.eqb].
    destruct (String.eqb "English" lang); reflexivity. }
  rewrite E. reflexivity.
Qed.

End Mismatch.

(** ** Merging *)

Section Merging.
Context {PF : PyFloat}.

(** The loop of [_add_translation_hashed] ends within one round more than
    there are translations to visit before the appended copies: more fuel
    changes nothing. *)
Lemma add_scan_fuel (tid : String.string) (T : Translation)
    (olds : list Translation) :
  forall (k fuel1 fuel2 : nat) (self : TranslationFile)
         (warns : list warning),
    (List.length olds < fuel1)%nat -> (List.length olds < fuel2)%nat ->
    add_scan fuel1 tid T (olds ++ repeat T k) self warns
    = add_scan fuel2 tid T (olds ++ repeat T k) self warns.
Proof.
  induction olds as [|old olds IH]; intros k fuel1 fuel2 self warns H1 H2.
  - destruct fuel1 as [|f1]; [simpl in H1; lia|].
    destruct fuel2 as [|f2]; [simpl in H2; lia|].
    destruct k as [|k]; simpl; [reflexivity|].
    now rewrite translation_eqb_refl.
  - destruct fuel1 as [|f1]; [simpl in H1; lia|].
    destruct fuel2 as [|f2]; [simpl in H2; lia|].
    simpl in H1, H2. simpl.
    destruct (translation_eqb T old); [reflexivity|].
    destruct (ids_eqb (ids T) (ids old)); [reflexivity|].
    rewrite <- app_assoc.
    replace (repeat T k ++ [T]) with (repeat T (S k))
      by (simpl; apply repeat_cons).
    apply IH; lia.
Qed.

Lemma add_enough_fuel (self : TranslationFile) (tid : String.string)
    (T : Translation) (bucket : list Translation) (fuel : nat) :
  dict_get (_translations_hash self) tid = Some bucket ->
  (List.length bucket < fuel)%nat ->
  add_scan fuel tid T bucket self [] = _add_translation_hashed self tid T.
Proof.
  intros Hb Hf. unfold _add_translation_hashed. rewrite Hb.
  pose proof (add_scan_fuel tid T bucket 0 fuel (S (List.length bucket))
                self []) as E.
  simpl in E. rewrite app_nil_r in E. apply E; lia.
Qed.

Lemma add_equal_first (self : TranslationFile) (tid : String.string)
    (T old : Translation) (rest : list Translation) :
  dict_get (_translations_hash self) tid = Some (old :: rest) ->
  translation_eqb T old = true ->
  _add_translation_hashed self tid T = (self, []).
Proof.
  intros Hb He. unfold _add_translation_hashed. rewrite Hb. simpl.
  now rewrite He.
Qed.

Lemma add_same_ids_first (self : TranslationFile) (tid : String.string)
    (T old : Translation) (rest : list Translation) :
  dict_get (_translations_hash self) tid = Some (old :: rest) ->
  translation_eqb T old = false ->
  ids T = ids old ->
  _add_translation_hashed self tid T
  = (mkFile
       (remove_first (fun x => translation_eqb x old) (_translations self))
       (dict_set (_translations_hash self) tid [T]),
     []).
Proof.
  intros Hb He Hi. unfold _add_translation_hashed. rewrite Hb. simpl.
  rewrite He. now rewrite (proj2 (ids_eqb_eq _ _) Hi).
Qed.

Lemma add_other_ids_single (self : TranslationFile) (tid : String.string)
    (T old : Translation) :
  dict_get (_translations_hash self) tid = Some [old] ->
  ids T <> ids old ->
  _add_translation_hashed self tid T
  = (mkFile (_translations self)
       (dict_set (_translations_hash self) tid [old; T]),
     [DuplicateIdentifierWarning tid]).
Proof.
  intros Hb Hi. unfold _add_translation_hashed. rewrite Hb.
  assert (Ei : ids_eqb (ids T) (ids old) = false).
  { destruct (ids_eqb (ids T) (ids old)) eqn:E; [|reflexivity].
    apply ids_eqb_eq in E. contradiction. }
  assert (Ee : translation_eqb T old = false).
  { unfold translation_eqb. now rewrite Ei. }
  cbn -[translation_eqb ids_eqb]. rewrite Ee, Ei, Hb.
  cbn -[translation_eqb ids_eqb]. now rewrite translation_eqb_refl.
Qed.

Lemma merge_bucket_equal (self : TranslationFile) (tid : String.string)
    (bucket : list Translation) (warns : list warning) :
  (forall T, In T bucket ->
     exists old rest,
       dict_get (_translations_hash self) tid = Some (old :: rest) /\
       translation_eqb T old = true) ->
  merge_bucket self tid bucket warns = (self, warns).
Proof.
  revert warns. induction bucket as [|T b IH]; intros warns H; simpl;
    [reflexivity|].
  destruct (H T (or_introl eq_refl)) as [old [rest [Hb He]]].
  rewrite (add_equal_first _ _ _ _ _ Hb He). rewrite app_nil_r.
  apply IH. intros. apply H. now right.
Qed.

Lemma merge_hash_equal (self : TranslationFile)
    (other_hash : dict (list Translation)) (warns : list warning) :
  (forall tid bucket T, In (tid, bucket) other_hash -> In T bucket ->
     exists old rest,
       dict_get (_translations_hash self) tid = Some (old :: rest) /\
       translation_eqb T old = true) ->
  merge_hash self other_hash warns = (self, warns).
Proof.
  revert warns. induction other_hash as [|[tid bucket] d IH];
    intros warns H; simpl; [reflexivity|].
  rewrite merge_bucket_equal.
  - apply IH. intros t b T Hin. apply H. now right.
  - intros T HT. apply (H tid bucket T); [now left|assumption].
Qed.

End Merging.

(** ** The index stays in order *)

Lemma dict_get_set {V} (d : dict V) (k k' : String.string) (v : V) :
  dict_get (dict_set d k v) k'
  = if String.eqb k' k then Some v else dict_get d k'.
Proof.
  induction d as [|[k0 v0] d IH]; cbn [dict_set dict_get]; [reflexivity|].
  destruct (String.eqb_spec k k0) as [->|N]; cbn [dict_get].
  - destruct (String.eqb k' k0); reflexivity.
  - rewrite IH. destruct (String.eqb_spec k' k0) as [->|N'];
      [|reflexivity].
    destruct (String.eqb_spec k0 k) as [E|_]; [congruence|reflexivity].
Qed.

Lemma index_ok_set (self : TranslationFile) (trs : list Translation)
    (tid : String.string) (bucket : list Translation) :
  index_ok self -> bucket <> [] ->
  (forall T, In T bucket -> In tid (ids T)) ->
  index_ok (mkFile trs (dict_set (_translations_hash self) tid bucket)).
Proof.
  intros Hok Hne Hb tag b. cbn [_translations_hash].
  rewrite dict_get_set.
  destruct (String.eqb_spec tag tid) as [->|N].
  - intros [= <-]. auto.
  - apply Hok.
Qed.

Lemma add_scan_index_ok (tid : String.string) (T : Translation) :
  In tid (ids T) ->
  forall (fuel : nat) (pending : list Translation) (self : TranslationFile)
         (warns : list warning),
    index_ok self ->
    index_ok (fst (add_scan fuel tid T pending self warns)).
Proof.
  intros HT. induction fuel as [|fuel IH]; intros pending self warns Hok;
    [exact Hok|].
  cbn [add_scan]. destruct pending as [|old rest]; [exact Hok|].
  destruct (translation_eqb T old); [exact Hok|].
  destruct (ids_eqb (ids T) (ids old)).
  - cbn [fst]. apply index_ok_set; [assumption|discriminate|].
    intros T' [<-|[]]. assumption.
  - apply IH. apply index_ok_set; [assumption| |].
    + destruct (dict_get (_translations_hash self) tid); intros E;
        now apply app_eq_nil in E as [_ E].
    + intros T' HT'. apply in_app_or in HT' as [HT'|[<-|[]]];
        [|assumption].
      destruct (dict_get (_translations_hash self) tid) as [b|] eqn:Eb;
        [|destruct HT'].
      now apply (Hok _ _ Eb).
Qed.

(** Adding a translation under one of its ids keeps the index in order. *)
Lemma add_index_ok (self : TranslationFile) (tid : String.string)
    (T : Translation) :
  index_ok self -> In tid (ids T) ->
  index_ok (fst (_add_translation_hashed self tid T)).
Proof.
  intros Hok HT. unfold _add_translation_hashed.
  destruct (dict_get (_translations_hash self) tid) as [bucket|].
  - now apply add_scan_index_ok.
  - cbn [fst]. apply index_ok_set; [assumption|discriminate|].
    intros T' [<-|[]]. assumption.
Qed.

Lemma merge_bucket_index_ok (tid : String.string)
    (bucket : list Translation) :
  (forall T, In T bucket -> In tid (ids T)) ->
  forall (self : TranslationFile) (warns : list warning),
    index_ok self -> index_ok (fst (merge_bucket self tid bucket warns)).
Proof.
  induction bucket as [|T b IH]; intros Hb self warns Hok; [exact Hok|].
  cbn [merge_bucket].
  pose proof (add_index_ok self tid T Hok (Hb T (or_introl eq_refl))) as H.
  destruct (_add_translation_hashed self tid T) as [self' w].
  apply IH; [|exact H]. intros. apply Hb. now right.
Qed.

Lemma merge_hash_index_ok (other_hash : dict (list Translation)) :
  (forall tid bucket T, In (tid, bucket) other_hash -> In T bucket ->
     In tid (ids T)) ->
  forall (self : TranslationFile) (warns : list warning),
    index_ok self -> index_ok (fst (merge_hash self other_hash warns)).
Proof.
  induction other_hash as [|[tid bucket] d IH]; intros Hd self warns Hok;
    [exact Hok|].
  cbn [merge_hash].
  pose proof (merge_bucket_index_ok tid bucket
                (fun T HT => Hd tid bucket T (or_introl eq_refl) HT)
                self warns Hok) as H.
  destruct (merge_bucket self tid bucket warns) as [self' warns'].
  apply IH; [|exact H]. intros t b T Hin. apply Hd. now right.
Qed.

(** Merging keeps the index in order, when every entry of the other index
    lists an id under translations that carry it. *)
Lemma merge_index_ok (self other : TranslationFile) :
  index_ok self ->
  (forall tid bucket T,
     In (tid, bucket) (_translations_hash other) -> In T bucket ->
     In tid (ids T)) ->
  index_ok (fst (merge self other)).
Proof.
  intros Hok Hd. unfold merge. apply merge_hash_index_ok; [exact Hd|].
  exact Hok.
Qed.

Lemma index_ok_empty : index_ok (mkFile [] []).
Proof. intros tag bucket. discriminate. Qed.

(** ** A translation equal to a later member of the bucket *)

Section EqualMember.
Context {PF : PyFloat}.

Lemma other_ids_not_equal (T y : Translation) :
  ids T <> ids y ->
  translation_eqb T y = false /\ ids_eqb (ids T) (ids y) = false.
Proof.
  intros Hi.
  assert (Ei : ids_eqb (ids T) (ids y) = false).
  { destruct (ids_eqb (ids T) (ids y)) eqn:E; [|reflexivity].
    apply ids_eqb_eq in E. contradiction. }
  split; [|exact Ei]. unfold translation_eqb. now rewrite Ei.
Qed.

(** The rounds of the loop up to the first member equal to the incoming
    translation, when the members before it all have other ids: each of
    them adds a copy to the bucket and a warning. *)
Lemma add_scan_equal_behind (tid : String.string) (T x : Translation)
    (pre : list Translation) :
  forall (tail : list Translation) (fuel : nat) (self : TranslationFile)
         (warns : list warning) (b : list Translation),
    (List.length pre < fuel)%nat ->
    (forall y, In y pre -> ids T <> ids y) ->
    translation_eqb T x = true ->
    dict_get (_translations_hash self) tid = Some b ->
    let r := add_scan fuel tid T (pre ++ x :: tail) self warns in
    _translations (fst r) = _translations self /\
    dict_get (_translations_hash (fst r)) tid
    = Some (b ++ repeat T (List.length pre)) /\
    (forall tid', tid' <> tid ->
       dict_get (_translations_hash (fst r)) tid'
       = dict_get (_translations_hash self) tid') /\
    snd r
    = warns ++ repeat (DuplicateIdentifierWarning tid) (List.length pre).
Proof.
  induction pre as [|y pre IH]; intros tail fuel self warns b Hf Hpre Hx Hb;
    (destruct fuel as [|fuel]; [simpl in Hf; lia|]).
  - cbn [app add_scan List.length repeat]. rewrite Hx. cbn [fst snd].
    rewrite !app_nil_r. auto.
  - destruct (other_ids_not_equal T y (Hpre y (or_introl eq_refl)))
      as [Ee Ei].
    cbn [app add_scan List.length]. rewrite Ee, Ei, Hb.
    rewrite <- app_assoc. cbn [app].
    specialize (IH (tail ++ [T]) fuel
                  (mkFile (_translations self)
                     (dict_set (_translations_hash self) tid (b ++ [T])))
                  (warns ++ [DuplicateIdentifierWarning tid]) (b ++ [T])).
    destruct IH as [H1 [H2 [H3 H4]]].
    + simpl in Hf. lia.
    + intros z Hz. apply Hpre. now right.
    + exact Hx.
    + cbn [_translations_hash]. rewrite dict_get_set.
      now rewrite String.eqb_refl.
    + cbn [_translations _translations_hash] in *.
      split; [exact H1|]. split; [|split].
      * rewrite H2, <- app_assoc. cbn [app repeat]. reflexivity.
      * intros tid' Hne. rewrite (H3 tid' Hne), dict_get_set.
        destruct (String.eqb_spec tid' tid); [contradiction|reflexivity].
      * rewrite H4, <- app_assoc. reflexivity.
Qed.

(** C4.  Where the code leaves the rule.  A translation equal to a member
    of the bucket of the id should change nothing; the loop of
    [_add_translation_hashed] sees that only once it reaches the member.
    For every member with other ids that stands before it, a warning is
    issued and one more copy of the translation is put at the end of the
    bucket: with [k] such members the bucket ends in [k] copies and [k]
    warnings are issued.  The ordered list and the buckets of the other
    ids stay as they are.  [merge] hands each entry of the other index to
    this loop, so a file whose index is this one entry is merged in the
    same way, its ordered list going behind that of [self] as in every
    merge. *)
Theorem equal_member_appended_again (self : TranslationFile)
    (tid : String.string) (T x : Translation)
    (pre post : list Translation) :
  dict_get (_translations_hash self) tid = Some (pre ++ x :: post) ->
  (forall y, In y pre -> ids T <> ids y) ->
  translation_eqb T x = true ->
  (let r := _add_translation_hashed self tid T in
   _translations (fst r) = _translations self /\
   dict_get (_translations_hash (fst r)) tid
   = Some (pre ++ x :: post ++ repeat T (List.length pre)) /\
   (forall tid', tid' <> tid ->
      dict_get (_translations_hash (fst r)) tid'
      = dict_get (_translations_hash self) tid') /\
   snd r = repeat (DuplicateIdentifierWarning tid) (List.length pre)) /\
  (forall trs,
     let m := merge self (mkFile trs [(tid, [T])]) in
     _translations (fst m) = _translations self ++ trs /\
     dict_get (_translations_hash (fst m)) tid
     = Some (pre ++ x :: post ++ repeat T (List.length pre)) /\
     (forall tid', tid' <> tid ->
        dict_get (_translations_hash (fst m)) tid'
        = dict_get (_translations_hash self) tid') /\
     snd m = repeat (DuplicateIdentifierWarning tid) (List.length pre)).
Proof.
  intros Hb Hpre Hx.
  assert (G : forall self0,
            _translations_hash self0 = _translations_hash self ->
            let r := _add_translation_hashed self0 tid T in
            _translations (fst r) = _translations self0 /\
            dict_get (_translations_hash (fst r)) tid
            = Some (pre ++ x :: post ++ repeat T (List.length pre)) /\
            (forall tid', tid' <> tid ->
               dict_get (_translations_hash (fst r)) tid'
               = dict_get (_translations_hash self) tid') /\
            snd r = repeat (DuplicateIdentifierWarning tid)
                      (List.length pre)).
  { intros self0 E. unfold _add_translation_hashed. rewrite E, Hb.
    destruct (add_scan_equal_behind tid T x pre post
                (S (List.length (pre ++ x :: post))) self0 []
                (pre ++ x :: post))
      as [H1 [H2 [H3 H4]]].
    - rewrite length_app. simpl. lia.
    - exact Hpre.
    - exact Hx.
    - now rewrite E.
    - split; [exact H1|]. split; [|split].
      + rewrite H2, <- app_assoc. reflexivity.
      + intros tid' Hne. rewrite (H3 tid' Hne). now rewrite E.
      + exact H4. }
  split; [exact (G self eq_refl)|].
  intros trs. unfold merge. cbn [_translations _translations_hash merge_hash merge_bucket].
  specialize (G (mkFile (_translations self ++ trs) (_translations_hash self))
                eq_refl).
  destruct (_add_translation_hashed
              (mkFile (_translations self ++ trs) (_translations_hash self))
              tid T) as [self' w].
  cbn [fst snd app] in *. exact G.
Qed.

End EqualMember.

(** * The properties on sample data *)

(** ** Ranges and scores *)

Lemma in_range_table_witness :
  in_range (mkRange (Some 1) (Some 10)) 5 = 3 /\
  in_range (mkRange None (Some 0)) 5 = 0 /\
  in_bounds (mkRange (Some 1) (Some 10)) 5.
Proof.
  destruct (in_range_table (mkRange (Some 1) (Some 10)) 5)
    as [_ [_ [_ [H3 [_ Hb]]]]].
  destruct (in_range_table (mkRange None (Some 0)) 5) as [_ [H2 _]].
  split; [apply (H3 1 10); reflexivity|].
  split; [apply (H2 0); reflexivity|].
  apply Hb. reflexivity.
Defined.

Lemma match_range_sum_witness :
  (forall i, In i [0%nat; 1%nat] ->
     (i < List.length (range one_and_any))%nat /\
     (i < List.length [5; 7])%nat) /\
  match_range one_and_any [5; 7] [0%nat; 1%nat] = Ok 1.
Proof.
  assert (H : forall i, In i [0%nat; 1%nat] ->
            (i < List.length (range one_and_any))%nat /\
            (i < List.length [5; 7])%nat).
  { intros i [<-|[<-|[]]]; simpl; lia. }
  split; [exact H|].
  exact (proj1 (match_range_sum one_and_any [5; 7] [0%nat; 1%nat] H)).
Defined.

(** The rating is 1, not 0, though the first index scores 0. *)
Lemma match_range_zero_counterexample :
  ~ (forall ts vals ixs s,
       match_range ts vals ixs = Ok s ->
       (s = 0 <-> exists i, In i ixs /\ score_at ts vals i = 0)).
Proof.
  intros H.
  destruct (H one_and_any [5; 7] [0%nat; 1%nat] 1 eq_refl) as [_ H0].
  assert (E : 1 = 0); [|discriminate E].
  apply H0. exists 0%nat. split; [now left|reflexivity].
Qed.

(** ** Selection *)



(** ** Formatting *)

Lemma format_string_unescapes_first_witness :
  replace "%%" "%" "%%1%" = replace "%%" "%" "%1%" /\
  format_string (PF := rational_float)
    (mkString no_quantifier [wildcard] "%%1%") [VInt 7] [false] false false
  = format_string (PF := rational_float)
      (mkString no_quantifier [wildcard] "%1%") [VInt 7] [false] false false.
Proof.
  assert (E : replace "%%" "%" "%%1%" = replace "%%" "%" "%1%")
    by reflexivity.
  split; [exact E|].
  exact (proj1 (format_string_unescapes_first (PF := rational_float))
           (mkString no_quantifier [wildcard] "%%1%")
           (mkString no_quantifier [wildcard] "%1%")
           [VInt 7] [false] false false eq_refl E).
Defined.

(** The percent sign of a reduction is lost: with the escape replaced last
    the text would be [5% reduced damage]. *)
Lemma format_string_counterexample :
  ~ (forall (PF : PyFloat) ts vals flags,
       format_string ts vals flags false false
       = format_string_spec ts vals flags).
Proof.
  intros H.
  specialize (H rational_float reduced_damage [VInt (-5)] [false]).
  assert (E1 : format_string (PF := rational_float) reduced_damage
                 [VInt (-5)] [false] false false
               = Ok (LStr "5 reduced damage", [])) by reflexivity.
  assert (E2 : format_string_spec (PF := rational_float) reduced_damage
                 [VInt (-5)] [false]
               = Ok (LStr "5% reduced damage", [])) by reflexivity.
  rewrite E1, E2 in H. discriminate H.
Qed.


(** ** Queries *)

Lemma partial_query_is_invalid_witness :
  get_translation (PF := rational_float) pair_file ["a"] [VInt 1] "English"
    true false false
  = Ok (Full (mkResult [] [] [] [] [] [] [a_and_b] [])) /\
  (exists x, In x [a_and_b] /\ translation_eqb x a_and_b = true) /\
  (forall y, In y (@nil Translation) -> translation_eqb y a_and_b = false) /\
  List.length (@nil (@line rational_float)) = List.length (@nil Translation)
  /\
  get_translation (PF := rational_float) pair_file ["a"] [VInt 1] "English"
    false false false
  = Ok (Lines []).
Proof.
  assert (E : get_translation (PF := rational_float) pair_file ["a"]
                [VInt 1] "English" true false false
              = Ok (Full (mkResult [] [] [] [] [] [] [a_and_b] [])))
    by reflexivity.
  split; [exact E|].
  apply (partial_query_is_invalid (PF := rational_float) pair_file ["a"]
           [VInt 1] "English" false false
           (mkResult [] [] [] [] [] [] [a_and_b] []) a_and_b E).
  - exists 0%nat, "a", [a_and_b]. repeat split. now left.
  - exists "b". split; [right; now left|].
    intros [H|[]]. discriminate H.
Defined.

Lemma marker_value_is_invalid_witness :
  get_translation (PF := rational_float) life_file ["life_regen"]
    [VInt 4294967295] "English" true false false
  = Ok (Full (mkResult [] [] [] [] [] [] [life_regen] [])) /\
  (exists x, In x [life_regen] /\ translation_eqb x life_regen = true) /\
  (forall y, In y (@nil Translation) -> translation_eqb y life_regen = false)
  /\
  List.length (@nil (@line rational_float)) = List.length (@nil Translation)
  /\
  get_translation (PF := rational_float) life_file ["life_regen"]
    [VInt 4294967295] "English" false false false
  = Ok (Lines []).
Proof.
  assert (E : get_translation (PF := rational_float) life_file
                ["life_regen"] [VInt 4294967295] "English" true false false
              = Ok (Full (mkResult [] [] [] [] [] [] [life_regen] [])))
    by reflexivity.
  split; [exact E|].
  apply (marker_value_is_invalid (PF := rational_float) life_file
           ["life_regen"] [VInt 4294967295] "English" false false
           (mkResult [] [] [] [] [] [] [life_regen] []) life_regen
           0%nat "life_regen" [life_regen] E);
    try reflexivity.
  - now left.
  - intros [|j] Hj; [lia|]. destruct j; discriminate.
Defined.

(** The marker given first and a real value given after it for the same
    tag: the translation is found and rendered. *)
Lemma marker_value_counterexample :
  ~ (forall (PF : PyFloat) self tags vals lang ph ov res T i tag bucket,
       get_translation self tags vals lang true ph ov = Ok (Full res) ->
       nth_error tags i = Some tag ->
       nth_error vals i = Some (VInt 4294967295) ->
       dict_get (_translations_hash self) tag = Some bucket ->
       In T bucket ->
       exists x, In x (invalid res) /\ translation_eqb x T = true).
Proof.
  intros H.
  destruct (H rational_float life_file ["life_regen"; "life_regen"]
              [VInt 4294967295; VInt 5] "English" false false
              (mkResult [life_regen] [LStr "5 life regen"]
                 [[0%nat; 0%nat]] [] [] [[VInt 5]] [] [[]])
              life_regen 0%nat "life_regen" [life_regen])
    as [x [[] _]]; try reflexivity.
  now left.
Qed.

Lemma length_mismatch_witness :
  get_translation (PF := rational_float) life_file ["life_regen"]
    ([VInt 5] ++ [VInt 6]) "English" true false false
  = get_translation (PF := rational_float) life_file ["life_regen"]
      [VInt 5] "English" true false false /\
  get_translation (PF := rational_float) life_file ["life_regen"; "x"]
    [VInt 5] "English" true false false
  = Raise IndexError.
Proof.
  split.
  - apply (proj1 (length_mismatch (PF := rational_float) life_file
                    ["life_regen"] [VInt 5] "English" true false false)).
    simpl. lia.
  - apply (proj2 (length_mismatch (PF := rational_float) life_file
                    ["life_regen"; "x"] [VInt 5] "English" true false false)).
    + intros tag bucket. simpl.
      destruct (String.eqb_spec tag "life_regen") as [->|N]; [|discriminate].
      intros [= <-]. split; [discriminate|].
      intros tr [<-|[]]. now left.
    + simpl. lia.
Defined.

(** Two values for one tag: the query goes through. *)
Lemma length_mismatch_counterexample :
  ~ (forall (PF : PyFloat) self tags vals lang full ph ov,
       List.length tags <> List.length vals ->
       exists e, get_translation self tags vals lang full ph ov = Raise e).
Proof.
  intros H.
  destruct (H rational_float life_file ["life_regen"] [VInt 5; VInt 6]
              "English" true false false) as [e E].
  - simpl. lia.
  - discriminate E.
Qed.

(** ** Merging *)

(** The file read from [only_a] and then [a_and_b], merged with the file
    of [a_and_b] alone: a second copy of [a_and_b] enters the bucket of
    [a], with a warning.  On the same file a rewording of [a_and_b] takes
    the whole bucket of [a], and [only_a] leaves it. *)
Lemma equal_member_appended_again_witness :
  fst (append_translation
         (fst (append_translation (mkFile [] []) only_a)) a_and_b)
  = two_in_bucket /\
  merge two_in_bucket pair_file
  = (mkFile [only_a; a_and_b; a_and_b]
       [("a", [only_a; a_and_b; a_and_b]); ("b", [a_and_b])],
     [DuplicateIdentifierWarning "a"]) /\
  dict_get
    (_translations_hash (fst (_add_translation_hashed two_in_bucket "a"
                                a_and_b))) "a"
  = Some [only_a; a_and_b; a_and_b] /\
  snd (_add_translation_hashed two_in_bucket "a" a_and_b)
  = [DuplicateIdentifierWarning "a"] /\
  _add_translation_hashed two_in_bucket "a" a_and_b_reworded
  = (mkFile [only_a] [("a", [a_and_b_reworded]); ("b", [a_and_b])],
     [DuplicateIdentifierWarning "a"]).
Proof.
  split; [reflexivity|]. split; [reflexivity|].
  destruct (equal_member_appended_again two_in_bucket "a" a_and_b a_and_b
              [only_a] [] eq_refl) as [[_ [H2 [_ H4]]] _].
  - intros y [<-|[]]. discriminate.
  - reflexivity.
  - split; [exact H2|]. split; [exact H4|reflexivity].
Defined.

(** * Further properties of the module *)

(** ** Equality and languages *)

(** X1.  [Translation.__eq__] is an equivalence, equal translations have
    the same ids, and two strings that bind the same handlers to the same
    indices are equal whatever the order the handlers were registered in. *)
Theorem translation_eq_equivalence :
  (forall a, translation_eqb a a = true) /\
  (forall a b, translation_eqb a b = translation_eqb b a) /\
  (forall a b c, translation_eqb a b = true -> translation_eqb b c = true ->
     translation_eqb a c = true) /\
  (forall a b, translation_eqb a b = true -> ids a = ids b) /\
  (forall q1 q2 rng s,
     (forall name, dict_get (registered_handlers q1) name
                   = dict_get (registered_handlers q2) name) ->
     tstring_eqb (mkString q1 rng s) (mkString q2 rng s) = true).
Proof.
  split; [exact translation_eqb_refl|].
  split.
  { intros a b. destruct (translation_eqb a b) eqn:E.
    - symmetry. now apply translation_eqb_sym.
    - symmetry. now apply translation_eqb_false_sym. }
  split; [exact translation_eqb_trans|].
  split; [exact translation_eqb_ids|].
  intros q1 q2 rng s H. unfold tstring_eqb. cbn [quantifier range string].
  rewrite (proj2 (quantifier_eqb_lookup q1 q2) H).
  rewrite (proj2 (list_eqb_eq _ range_eqb_eq rng rng) eq_refl).
  now rewrite String.eqb_refl.
Qed.

Lemma translation_eq_equivalence_witness :
  tstring_eqb
    (mkString (mkQuantifier [("negate", [1]); ("divide_by_one_hundred", [2])])
       [wildcard; wildcard] "%1% and %2%")
    (mkString (mkQuantifier [("divide_by_one_hundred", [2]); ("negate", [1])])
       [wildcard; wildcard] "%1% and %2%")
  = true.
Proof.
  apply (proj2 (proj2 (proj2 (proj2 translation_eq_equivalence)))).
  intros name. cbn [registered_handlers dict_get].
  destruct (String.eqb name "negate") eqn:E1;
    destruct (String.eqb name "divide_by_one_hundred") eqn:E2;
    try reflexivity.
  apply String.eqb_eq in E1, E2. congruence.
Defined.

Lemma get_language_from_spec (langs : list TranslationLanguage)
    (lang : String.string) :
  forall etr : option TranslationLanguage,
    (forall tl, get_language_from etr langs lang = Some tl ->
       (In tl langs /\ (language tl = lang \/ language tl = "English")) \/
       etr = Some tl) /\
    ((exists tl, In tl langs /\ language tl = lang) ->
     exists tl, get_language_from etr langs lang = Some tl /\
                language tl = lang) /\
    (get_language_from etr langs lang = None <->
     etr = None /\
     forall tl, In tl langs ->
       language tl <> lang /\ language tl <> "English").
Proof.
  induction langs as [|tr rest IH]; intros etr; cbn [get_language_from].
  - split; [intros tl H; now right|]. split.
    + intros [tl [[] _]].
    + split; [intros ->; split; [reflexivity|intros tl []]|now intros [-> _]].
  - destruct (String.eqb_spec (language tr) lang) as [El|Nl].
    + split.
      * intros tl [= <-]. left. split; [now left|now left].
      * split; [intros _; exists tr; auto|].
        split; [discriminate|].
        intros [_ H]. destruct (H tr (or_introl eq_refl)) as [H1 _].
        contradiction.
    + destruct (String.eqb_spec (language tr) "English") as [Ee|Ne].
      * destruct (IH (Some tr)) as [IH1 [IH2 IH3]]. split.
        -- intros tl H. destruct (IH1 tl H) as [[Hin Hl]|[= <-]].
           ++ left. split; [now right|assumption].
           ++ left. split; [now left|now right].
        -- split.
           ++ intros [tl [[<-|Hin] Hl]]; [contradiction|].
              apply IH2. eauto.
           ++ split.
              ** intros H. apply IH3 in H as [H _]. discriminate.
              ** intros [_ H]. destruct (H tr (or_introl eq_refl)) as [_ H2].
                 contradiction.
      * destruct (IH etr) as [IH1 [IH2 IH3]]. split.
        -- intros tl H. destruct (IH1 tl H) as [[Hin Hl]|He].
           ++ left. split; [now right|assumption].
           ++ now right.
        -- split.
           ++ intros [tl [[<-|Hin] Hl]]; [contradiction|].
              apply IH2. eauto.
           ++ rewrite IH3. split.
              ** intros [He H]. split; [assumption|].
                 intros tl [<-|Hin]; auto.
              ** intros [He H]. split; [assumption|].
                 intros tl Hin. apply H. now right.
Qed.

(** X2.  [get_language] hands back a bundle of the translation, named as
    asked or else [English]; when a bundle of the language asked for is
    there, such a bundle is what comes back; and nothing comes back exactly
    when the translation has neither that language nor English. *)
Theorem get_language_fallback (t : Translation) (lang : String.string) :
  (forall tl, get_language t lang = Some tl ->
     In tl (languages t) /\
     (language tl = lang \/ language tl = "English")) /\
  ((exists tl, In tl (languages t) /\ language tl = lang) ->
   exists tl, get_language t lang = Some tl /\ language tl = lang) /\
  (get_language t lang = None <->
   forall tl, In tl (languages t) ->
     language tl <> lang /\ language tl <> "English").
Proof.
  unfold get_language.
  destruct (get_language_from_spec (languages t) lang None) as [H1 [H2 H3]].
  split; [|split].
  - intros tl H. destruct (H1 tl H) as [G|G]; [exact G|discriminate].
  - exact H2.
  - rewrite H3. split; [now intros [_ H]|intros H; now split].
Qed.

Lemma get_language_fallback_witness :
  get_language life_regen "German"
  = Some (mkLanguage "English"
            [mkString no_quantifier [wildcard] "%1% life regen"]) /\
  (get_language (mkTranslation [mkLanguage "German" []] ["a"]) "French"
   = None).
Proof.
  split; [reflexivity|].
  apply (proj2 (proj2 (get_language_fallback
                         (mkTranslation [mkLanguage "German" []] ["a"])
                         "French"))).
  intros tl [<-|[]]. split; discriminate.
Defined.

(** ** Scores *)

Lemma in_range_le_3 (r : TranslationRange) (v : Z) : in_range r v <= 3.
Proof.
  unfold in_range.
  repeat match goal with
         | |- context [if ?c then _ else _] => destruct c
         end; lia.
Qed.

Lemma zsum_bounds (l : list Z) :
  (forall x, In x l -> 0 <= x <= 3) ->
  0 <= zsum l <= 3 * Z.of_nat (List.length l).
Proof.
  induction l as [|x l IH]; intros H; [simpl; lia|].
  assert (Hx : 0 <= x <= 3) by (apply H; now left).
  assert (Hl : 0 <= zsum l <= 3 * Z.of_nat (List.length l)).
  { apply IH. intros y Hy. apply H. now right. }
  change (zsum (x :: l)) with (x + zsum l).
  change (List.length (x :: l)) with (S (List.length l)).
  lia.
Qed.

(** X3.  [match_range] raises [IndexError] as soon as one of the indexes is
    no position of the ranges of the string or of the values; otherwise it
    returns a rating between 0 and three times the number of indexes. *)
Theorem match_range_index_error (ts : TranslationString) (vals : list Z)
    (ixs : list nat) :
  ((exists i, In i ixs /\
      ((List.length (range ts) <= i)%nat \/ (List.length vals <= i)%nat)) ->
   match_range ts vals ixs = Raise IndexError) /\
  ((forall i, In i ixs ->
      (i < List.length (range ts))%nat /\ (i < List.length vals)%nat) ->
   exists s, match_range ts vals ixs = Ok s /\
             0 <= s <= 3 * Z.of_nat (List.length ixs)).
Proof.
  split.
  - intros H. now apply match_range_from_raise.
  - intros H. unfold match_range. rewrite match_range_from_sum by exact H.
    eexists. split; [reflexivity|]. rewrite <- (length_map (score_at ts vals)).
    apply zsum_bounds. intros x Hx. apply in_map_iff in Hx as [i [<- _]].
    unfold score_at. split; [apply in_range_nonneg|apply in_range_le_3].
Qed.

Lemma match_range_index_error_witness :
  match_range one_and_any [5] [0%nat; 1%nat] = Raise IndexError /\
  exists s, match_range one_and_any [1; 7] [0%nat; 1%nat] = Ok s /\
            0 <= s <= 3 * Z.of_nat 2.
Proof.
  split.
  - apply (proj1 (match_range_index_error one_and_any [5] [0%nat; 1%nat])).
    exists 1%nat. split; [right; now left|]. right. simpl. lia.
  - apply (proj2 (match_range_index_error one_and_any [1; 7]
                    [0%nat; 1%nat])).
    intros i [<-|[<-|[]]]; simpl; lia.
Defined.

(** ** Quantifiers *)

Lemma dict_get_none_keys {V} (d : dict V) (k : String.string) :
  dict_get d k = None <-> ~ In k (map fst d).
Proof.
  induction d as [|[k' v] d IH]; cbn [dict_get map fst In]; [tauto|].
  destruct (String.eqb_spec k k') as [->|N].
  - split; [discriminate|]. intros H. exfalso. apply H. now left.
  - rewrite IH. split.
    + intros H [E|G]; [congruence|contradiction].
    + intros H G. apply H. now right.
Qed.

Lemma dict_set_keys {V} (d : dict V) (k : String.string) (v : V) :
  map fst (dict_set d k v)
  = if is_none (dict_get d k) then map fst d ++ [k] else map fst d.
Proof.
  induction d as [|[k' v'] d IH]; cbn [dict_set dict_get map fst is_none app];
    [reflexivity|].
  destruct (String.eqb_spec k k') as [->|N]; cbn [map fst is_none];
    [reflexivity|].
  rewrite IH. now destruct (dict_get d k).
Qed.

Section Quantifiers.
Context {PF : PyFloat}.

Lemma quantifier_ok_set (q : TranslationQuantifier) (name : String.string)
    (l : list Z) :
  quantifier_ok q ->
  (exists f, dict_get handlers name = Some f) \/
  In name (map fst (registered_handlers q)) ->
  quantifier_ok (mkQuantifier (dict_set (registered_handlers q) name l)).
Proof.
  intros [Hnd Hk] Hname. unfold quantifier_ok. cbn [registered_handlers].
  rewrite dict_set_keys.
  destruct (dict_get (registered_handlers q) name) eqn:E; cbn [is_none].
  - now split.
  - apply dict_get_none_keys in E. split.
    + apply NoDup_app; [assumption|repeat constructor; intros []|].
      intros x Hx [<-|[]]. contradiction.
    + intros n Hn. apply in_app_or in Hn as [Hn|[<-|[]]]; [now apply Hk|].
      destruct Hname as [Hf|Hin]; [assumption|contradiction].
Qed.

(** X4.  [register] keeps the names of a quantifier known and bound once.
    An unknown name gives the warning and changes nothing; any other name
    gets the index at the end of its list, and the other names keep their
    lists. *)
Theorem register_effect (q : TranslationQuantifier) (name : String.string)
    (index : Z) :
  quantifier_ok q ->
  quantifier_ok (fst (register q name index)) /\
  (snd (register q name index) = true ->
   fst (register q name index) = q /\ dict_get handlers name = None /\
   dict_get (registered_handlers q) name = None) /\
  (snd (register q name index) = false ->
   dict_get (registered_handlers (fst (register q name index))) name
   = Some (match dict_get (registered_handlers q) name with
           | Some l => l ++ [index]
           | None => [index]
           end)) /\
  (forall other, other <> name ->
     dict_get (registered_handlers (fst (register q name index))) other
     = dict_get (registered_handlers q) other).
Proof.
  intros Hok. unfold register.
  destruct (dict_get (registered_handlers q) name) as [l|] eqn:E.
  - cbn [fst snd registered_handlers]. split; [|split; [|split]].
    + apply quantifier_ok_set; [assumption|]. right.
      destruct (in_dec String.string_dec name
                  (map fst (registered_handlers q))) as [H|H];
        [assumption|].
      apply dict_get_none_keys in H. congruence.
    + discriminate.
    + intros _. rewrite dict_get_set. now rewrite String.eqb_refl.
    + intros other Hne. rewrite dict_get_set.
      destruct (String.eqb_spec other name); [contradiction|reflexivity].
  - destruct (dict_get handlers name) as [f|] eqn:Ef;
      cbn [fst snd registered_handlers].
    + split; [|split; [|split]].
      * apply quantifier_ok_set; [assumption|]. left. eauto.
      * discriminate.
      * intros _. rewrite dict_get_set. now rewrite String.eqb_refl.
      * intros other Hne. rewrite dict_get_set.
        destruct (String.eqb_spec other name); [contradiction|reflexivity].
    + split; [assumption|]. split; [auto|]. split; [discriminate|].
      reflexivity.
Qed.

Lemma norm_index_length {A B} (l : list A) (l' : list B) (z : Z) :
  List.length l = List.length l' -> norm_index l z = norm_index l' z.
Proof. intros H. unfold norm_index. now rewrite H. Qed.

Lemma handle_index_shape (f : num -> result num) (flags : list bool)
    (hv hv' : list hval) (index : Z) :
  handle_index f flags hv index = Ok hv' ->
  List.length hv' = List.length hv /\
  exists pos, norm_index hv (index - 1) = Ok pos /\
    forall p, p <> pos -> nth_error hv' p = nth_error hv p.
Proof.
  unfold handle_index. intros H.
  apply bind_ok in H as [flag [_ H]].
  apply bind_ok in H as [v [_ H]].
  apply bind_ok in H as [pos [Hpos H]].
  assert (G : exists x, setitem hv pos x = Ok hv').
  { destruct flag, v as [n|a b]; try discriminate.
    - apply bind_ok in H as [a' [_ H]]. apply bind_ok in H as [b' [_ H]].
      eauto.
    - apply bind_ok in H as [n' [_ H]]. eauto. }
  destruct G as [x G]. destruct (setitem_spec _ _ _ _ G) as [Hl [_ Hj]].
  split; [assumption|]. exists pos. split; [assumption|]. exact Hj.
Qed.

Lemma handle_indices_shape (f : num -> result num) (flags : list bool)
    (indices : list Z) :
  forall hv hv' : list hval,
    handle_indices f flags hv indices = Ok hv' ->
    List.length hv' = List.length hv /\
    forall p,
      (forall idx, In idx indices -> norm_index hv (idx - 1) <> Ok p) ->
      nth_error hv' p = nth_error hv p.
Proof.
  induction indices as [|idx rest IH]; intros hv hv'; cbn [handle_indices].
  - intros [= <-]. auto.
  - intros H. apply bind_ok in H as [hv1 [H1 H]].
    destruct (handle_index_shape _ _ _ _ _ H1) as [Hl [pos [Hpos Hj]]].
    destruct (IH _ _ H) as [Hl' Hrest]. split; [congruence|].
    intros p Hp. rewrite Hrest.
    + apply Hj. intros ->. apply (Hp idx); [now left|assumption].
    + intros i Hi. rewrite (norm_index_length hv1 hv) by assumption.
      apply Hp. now right.
Qed.

Lemma handle_names_shape (registered : dict (list Z)) (flags : list bool) :
  forall hv hv' : list hval,
    handle_names registered flags hv = Ok hv' ->
    List.length hv' = List.length hv /\
    forall p,
      (forall name indices idx, In (name, indices) registered ->
         In idx indices -> norm_index hv (idx - 1) <> Ok p) ->
      nth_error hv' p = nth_error hv p.
Proof.
  induction registered as [|[name indices] rest IH]; intros hv hv';
    cbn [handle_names].
  - intros [= <-]. auto.
  - destruct (dict_get handlers name) as [f|]; [|discriminate].
    intros H. apply bind_ok in H as [hv1 [H1 H]].
    destruct (handle_indices_shape _ _ _ _ _ H1) as [Hl Hj].
    destruct (IH _ _ H) as [Hl' Hrest]. split; [congruence|].
    intros p Hp. rewrite Hrest.
    + apply Hj. intros idx Hi. apply (Hp name indices idx); [now left|].
      assumption.
    + intros n ixs idx Hin Hi.
      rewrite (norm_index_length hv1 hv) by assumption.
      apply (Hp n ixs idx); [now right|assumption].
Qed.

(** X5.  When [handle] returns, the list it returns is as long as the list
    of values, and a position that none of the registered indices
    designates holds the value it held. *)
Theorem handle_keeps_shape (q : TranslationQuantifier) (vals : list value)
    (flags : list bool) (hv : list hval) :
  handle q vals flags = Ok hv ->
  List.length hv = List.length vals /\
  forall p,
    (forall name indices idx,
       In (name, indices) (registered_handlers q) -> In idx indices ->
       norm_index vals (idx - 1) <> Ok p) ->
    nth_error hv p = option_map hval_of_value (nth_error vals p).
Proof.
  unfold handle. intros H.
  destruct (handle_names_shape _ _ _ _ H) as [Hl Hp].
  rewrite length_map in Hl. split; [assumption|].
  intros p Hd. rewrite Hp; [apply nth_error_map|].
  intros name indices idx Hin Hi.
  rewrite (norm_index_length (map hval_of_value vals) vals)
    by apply length_map.
  now apply (Hd name indices idx).
Qed.

Lemma getitem_z_wrap {A} (l : list A) :
  getitem_z l (0 - 1) = getitem_z l (Z.of_nat (List.length l) - 1).
Proof.
  unfold getitem_z. destruct l as [|a l]; [reflexivity|].
  set (n := Z.of_nat (List.length (a :: l))).
  assert (Hn : 0 < n).
  { unfold n. cbn [List.length]. lia. }
  replace ((0 <=? 0 - 1) && (0 - 1 <? n)) with false
    by (symmetry; apply andb_false_iff; left; apply Z.leb_gt; lia).
  replace ((- n <=? 0 - 1) && (0 - 1 <? 0)) with true
    by (symmetry; apply andb_true_iff; split;
        [apply Z.leb_le|apply Z.ltb_lt]; lia).
  replace ((0 <=? n - 1) && (n - 1 <? n)) with true
    by (symmetry; apply andb_true_iff; split;
        [apply Z.leb_le|apply Z.ltb_lt]; lia).
  f_equal; try (f_equal; lia); lia.
Qed.

Lemma norm_index_wrap {A} (l : list A) :
  norm_index l (0 - 1) = norm_index l (Z.of_nat (List.length l) - 1).
Proof.
  unfold norm_index. destruct l as [|a l]; [reflexivity|].
  set (n := Z.of_nat (List.length (a :: l))).
  assert (Hn : 0 < n).
  { unfold n. cbn [List.length]. lia. }
  replace ((0 <=? 0 - 1) && (0 - 1 <? n)) with false
    by (symmetry; apply andb_false_iff; left; apply Z.leb_gt; lia).
  replace ((- n <=? 0 - 1) && (0 - 1 <? 0)) with true
    by (symmetry; apply andb_true_iff; split;
        [apply Z.leb_le|apply Z.ltb_lt]; lia).
  replace ((0 <=? n - 1) && (n - 1 <? n)) with true
    by (symmetry; apply andb_true_iff; split;
        [apply Z.leb_le|apply Z.ltb_lt]; lia).
  f_equal; try (f_equal; lia); lia.
Qed.

Lemma getitem_z_out {A} (l : list A) (z : Z) :
  Z.of_nat (List.length l) <= z \/ z < - Z.of_nat (List.length l) ->
  getitem_z l z = Raise IndexError.
Proof.
  intros H. unfold getitem_z.
  replace ((0 <=? z) && (z <? Z.of_nat (List.length l))) with false.
  - replace ((- Z.of_nat (List.length l) <=? z) && (z <? 0)) with false;
      [reflexivity|].
    symmetry. apply andb_false_iff.
    destruct H as [H|H]; [right; apply Z.ltb_ge|left; apply Z.leb_gt]; lia.
  - symmetry. apply andb_false_iff.
    destruct H as [H|H]; [right; apply Z.ltb_ge|left; apply Z.leb_gt]; lia.
Qed.

(** X6.  The indices of a quantifier are 1-based, and [index - 1] is used
    as a Python index: the index 0 designates the last value, as the index
    equal to the number of values does, and an index beyond the number of
    values, or below its negation plus one, makes [handle] raise
    [IndexError]. *)
Theorem handle_index_wraps (name : String.string) (f : num -> result num)
    (vals : list value) (flags : list bool) :
  dict_get handlers name = Some f ->
  List.length flags = List.length vals ->
  handle (mkQuantifier [(name, [0])]) vals flags
  = handle (mkQuantifier [(name, [Z.of_nat (List.length vals)])]) vals flags
  /\
  forall index,
    Z.of_nat (List.length vals) < index \/
    index <= - Z.of_nat (List.length vals) ->
    handle (mkQuantifier [(name, [index])]) vals flags = Raise IndexError.
Proof.
  intros Hf Hlen. unfold handle. cbn [registered_handlers handle_names].
  rewrite Hf. cbn [handle_indices]. split.
  - unfold handle_index. cbv zeta.
    assert (Hhv : List.length (map hval_of_value vals) = List.length vals)
      by apply length_map.
    set (hv := map hval_of_value vals) in *.
    rewrite <- Hhv, <- (norm_index_wrap hv), <- (getitem_z_wrap hv).
    rewrite Hhv, <- Hlen. now rewrite <- (getitem_z_wrap flags).
  - intros index Hi. unfold handle_index.
    rewrite getitem_z_out; [reflexivity|]. rewrite Hlen. lia.
Qed.

End Quantifiers.

Lemma register_effect_witness :
  quantifier_ok (PF := rational_float) no_quantifier /\
  quantifier_ok (PF := rational_float)
    (fst (register (PF := rational_float) no_quantifier "negate" 1)) /\
  register (PF := rational_float) no_quantifier "mystery" 1
  = (no_quantifier, true).
Proof.
  assert (H : quantifier_ok (PF := rational_float) no_quantifier).
  { split; [constructor|intros name []]. }
  split; [exact H|]. split.
  - exact (proj1 (register_effect (PF := rational_float) no_quantifier
                    "negate" 1 H)).
  - reflexivity.
Defined.

Lemma handle_keeps_shape_witness :
  handle (PF := rational_float) (mkQuantifier [("negate", [1])])
    [VInt 5; VInt 7] [false; false]
  = Ok [HNum (NInt (-5)); HNum (NInt 7)] /\
  nth_error [HNum (NInt (-5)); HNum (NInt 7)] 1
  = option_map (hval_of_value (PF := rational_float))
      (nth_error [VInt 5; VInt 7] 1).
Proof.
  assert (E : handle (PF := rational_float) (mkQuantifier [("negate", [1])])
                [VInt 5; VInt 7] [false; false]
              = Ok [HNum (NInt (-5)); HNum (NInt 7)]) by reflexivity.
  split; [exact E|].
  apply (proj2 (handle_keeps_shape (PF := rational_float) _ _ _ _ E)).
  intros name indices idx [[= <- <-]|[]] [<-|[]]. discriminate.
Defined.

Lemma handle_index_wraps_witness :
  handle (PF := rational_float) (mkQuantifier [("negate", [0])])
    [VInt 5; VInt 7] [false; false]
  = handle (PF := rational_float) (mkQuantifier [("negate", [2])])
      [VInt 5; VInt 7] [false; false] /\
  handle (PF := rational_float) (mkQuantifier [("negate", [3])])
    [VInt 5; VInt 7] [false; false]
  = Raise IndexError.
Proof.
  destruct (handle_index_wraps (PF := rational_float) "negate"
              (fun v => Ok (mul v (-1))) [VInt 5; VInt 7] [false; false]
              eq_refl eq_refl) as [H1 H2].
  split; [exact H1|]. apply H2. left. simpl. lia.
Defined.

(** ** The three modes of [format_string] *)

Lemma Forall2_setitem {A B} (R : A -> B -> Prop) (l1 : list A) :
  forall (l2 l2' : list B) (pos : nat) (a : A) (x : B),
    Forall2 R l1 l2 -> nth_error l1 pos = Some a -> R a x ->
    setitem l2 pos x = Ok l2' -> Forall2 R l1 l2'.
Proof.
  induction l1 as [|h1 t1 IH]; intros l2 l2' pos a x HF Hn HR Hs.
  - destruct pos; discriminate.
  - inversion HF as [|? h2 ? t2 Hh Ht]; subst. destruct pos as [|pos].
    + cbn in Hn, Hs. injection Hn as ->. injection Hs as <-.
      now constructor.
    + cbn [nth_error] in Hn. cbn [setitem] in Hs.
      destruct (setitem t2 pos x) as [t2'|e] eqn:E; [|discriminate].
      injection Hs as <-. constructor; [assumption|].
      now apply (IH t2 t2' pos a x).
Qed.

Lemma Forall2_nth_error_r {A B} (R : A -> B -> Prop) (l1 : list A)
    (l2 : list B) :
  Forall2 R l1 l2 ->
  forall i b, nth_error l2 i = Some b ->
    exists a, nth_error l1 i = Some a /\ R a b.
Proof.
  induction 1 as [|a b l1 l2 Hab HF IH]; intros [|i] y Hy;
    try discriminate.
  - injection Hy as <-. exists a. auto.
  - now apply IH.
Qed.

Lemma getitem_z_norm {A} (l : list A) (z : Z) :
  getitem_z l z = (pos <- norm_index l z ;; getitem l pos).
Proof.
  unfold getitem_z, norm_index.
  destruct ((0 <=? z) && (z <? Z.of_nat (List.length l))); [reflexivity|].
  now destruct ((- Z.of_nat (List.length l) <=? z) && (z <? 0)).
Qed.

Lemma flat_map_enumerate_from {A} (l : list A) :
  forall n,
    flat_map (fun p : nat * A => [snd p; snd p]) (enumerate_from n l)
    = flat_map (fun v => [v; v]) l.
Proof.
  induction l as [|a l IH]; intros n; cbn [enumerate_from flat_map];
    [reflexivity|].
  now rewrite IH.
Qed.

Section FormatModes.
Context {PF : PyFloat}.

Lemma handle_length (q : TranslationQuantifier) (vals : list value)
    (flags : list bool) (hv : list hval) :
  handle q vals flags = Ok hv -> List.length hv = List.length vals.
Proof.
  unfold handle. intros H.
  destruct (handle_names_shape _ _ _ _ H) as [Hl _].
  now rewrite length_map in Hl.
Qed.

Lemma ascii_letters_length : List.length ascii_letters = 52%nat.
Proof. reflexivity. Qed.

Lemma placeholder_loop_bound (l : list hval) :
  forall (n : nat) (s : String.string) (unused : list hval),
    (n <= 29)%nat ->
    ((n + List.length l <= 29)%nat ->
     exists r, placeholder_loop (enumerate_from n l) s unused = Ok r) /\
    ((29 < n + List.length l)%nat ->
     placeholder_loop (enumerate_from n l) s unused = Raise IndexError).
Proof.
  induction l as [|v l IH]; intros n s unused Hn;
    cbn [enumerate_from placeholder_loop List.length].
  - split; [eauto|lia].
  - destruct (Nat.eq_dec n 29) as [->|Hne].
    + split; [lia|]. intros _.
      rewrite getitem_out_of_range; [reflexivity|].
      rewrite ascii_letters_length. lia.
    + destruct (getitem_in_range ascii_letters (23 + n)) as [c Hc].
      { rewrite ascii_letters_length. lia. }
      rewrite Hc. cbn [bind].
      destruct (_replace n s (String c EmptyString)) as [s' r].
      destruct (IH (S n) s' (if r then unused ++ [v] else unused))
        as [H1 H2]; [lia|].
      split; intros H; [apply H1|apply H2]; lia.
Qed.

(** X7.  With [use_placeholder] the values are named by the letters from
    [x] on, of which the alphabet has 29: for values that [handle] accepts,
    [format_string] returns a text when there are at most 29 of them and
    raises [IndexError] when there are more. *)
Theorem placeholder_letters_run_out (ts : TranslationString)
    (vals : list value) (flags : list bool) (hv : list hval) :
  handle (quantifier ts) vals flags = Ok hv ->
  ((List.length vals <= 29)%nat ->
   exists s unused,
     format_string ts vals flags true false = Ok (LStr s, unused)) /\
  ((29 < List.length vals)%nat ->
   format_string ts vals flags true false = Raise IndexError).
Proof.
  intros H. pose proof (handle_length _ _ _ _ H) as Hl.
  unfold format_string. rewrite H. cbn [bind]. unfold enumerate.
  destruct (placeholder_loop_bound hv 0
              (replace "%%" "%" (string ts)) [] (Nat.le_0_l 29)) as [H1 H2].
  split; intros Hn.
  - destruct H1 as [[s unused] Hr]; [simpl; lia|]. rewrite Hr.
    now exists s, unused.
  - rewrite H2; [reflexivity|simpl; lia].
Qed.

Lemma only_values_tags_perm (s : String.string) (v : hval)
    (tgs : list String.string) :
  forall rtr unused : list hval,
    Permutation
      (fst (fold_left
              (fun acc tag =>
                 if contains tag s then (fst acc ++ [v], snd acc)
                 else (fst acc, snd acc ++ [v]))
              tgs (rtr, unused))
       ++ snd (fold_left
                 (fun acc tag =>
                    if contains tag s then (fst acc ++ [v], snd acc)
                    else (fst acc, snd acc ++ [v]))
                 tgs (rtr, unused)))
      (rtr ++ unused ++ repeat v (List.length tgs)).
Proof.
  induction tgs as [|tag tgs IH]; intros rtr unused;
    cbn [fold_left List.length repeat fst snd].
  - now rewrite app_nil_r.
  - destruct (contains tag s); cbn [fst snd].
    + etransitivity; [apply IH|]. rewrite <- app_assoc. cbn [app].
      apply Permutation_app_head. apply Permutation_middle.
    + etransitivity; [apply IH|]. rewrite <- app_assoc. cbn [app].
      reflexivity.
Qed.

Lemma only_values_loop_perm (s : String.string)
    (items : list (nat * hval)) :
  forall rtr unused : list hval,
    Permutation
      (fst (only_values_loop s items rtr unused)
       ++ snd (only_values_loop s items rtr unused))
      (rtr ++ unused ++ flat_map (fun p => [snd p; snd p]) items).
Proof.
  induction items as [|[i v] items IH]; intros rtr unused;
    cbn [only_values_loop flat_map fst snd].
  - now rewrite app_nil_r.
  - pose proof (only_values_tags_perm s v (_tag_iter i) rtr unused) as Hp.
    destruct (fold_left _ (_tag_iter i) (rtr, unused)) as [rtr' unused'].
    cbn [fst snd] in Hp. etransitivity; [apply IH|].
    rewrite !app_assoc. apply Permutation_app_tail.
    etransitivity; [exact Hp|]. now rewrite <- app_assoc.
Qed.

(** X8.  With [only_values] every value that [handle] returns is reported
    twice, once for each of its two tags, among the values in use or among
    the unused ones; [use_placeholder] makes no difference. *)
Theorem only_values_reports_twice (ts : TranslationString)
    (vals : list value) (flags : list bool) (ph : bool) (hv : list hval) :
  handle (quantifier ts) vals flags = Ok hv ->
  exists rtr unused,
    format_string ts vals flags ph true = Ok (LVals rtr, unused) /\
    Permutation (rtr ++ unused) (flat_map (fun v => [v; v]) hv) /\
    (List.length rtr + List.length unused = 2 * List.length vals)%nat.
Proof.
  intros H. pose proof (handle_length _ _ _ _ H) as Hl.
  unfold format_string. rewrite H. cbn [bind]. unfold enumerate.
  pose proof (only_values_loop_perm (replace "%%" "%" (string ts))
                (enumerate_from 0 hv) [] []) as Hp.
  destruct (only_values_loop _ (enumerate_from 0 hv) [] [])
    as [rtr unused].
  cbn [fst snd app] in Hp. rewrite flat_map_enumerate_from in Hp.
  exists rtr, unused. split; [reflexivity|]. split; [exact Hp|].
  rewrite <- length_app, (Permutation_length Hp), <- Hl.
  clear. induction hv as [|v hv IH]; [reflexivity|].
  cbn [flat_map app List.length]. rewrite IH. lia.
Qed.

Lemma handle_index_same_shape (f : num -> result num) (flags : list bool)
    (hv hv' : list hval) (index : Z) :
  Forall2 (fun flag v => same_shape flag v = true) flags hv ->
  handle_index f flags hv index = Ok hv' ->
  Forall2 (fun flag v => same_shape flag v = true) flags hv'.
Proof.
  intros HF. unfold handle_index. cbv zeta.
  rewrite !getitem_z_norm.
  rewrite (norm_index_length flags hv) by apply (Forall2_length HF).
  destruct (norm_index hv (index - 1)) as [pos|e]; [|discriminate].
  cbn [bind]. intros H.
  apply bind_ok in H as [flag [Hflag H]].
  apply bind_ok in H as [v [Hv H]].
  apply getitem_ok in Hflag.
  destruct flag, v as [n|a b]; try discriminate.
  - apply bind_ok in H as [a' [_ H]]. apply bind_ok in H as [b' [_ H]].
    now apply (Forall2_setitem _ flags hv hv' pos true (HPair a' b')).
  - apply bind_ok in H as [n' [_ H]].
    now apply (Forall2_setitem _ flags hv hv' pos false (HNum n')).
Qed.

Lemma handle_indices_same_shape (f : num -> result num) (flags : list bool)
    (indices : list Z) :
  forall hv hv' : list hval,
    Forall2 (fun flag v => same_shape flag v = true) flags hv ->
    handle_indices f flags hv indices = Ok hv' ->
    Forall2 (fun flag v => same_shape flag v = true) flags hv'.
Proof.
  induction indices as [|idx rest IH]; intros hv hv' HF;
    cbn [handle_indices].
  - now intros [= <-].
  - intros H. apply bind_ok in H as [hv1 [H1 H]].
    apply (IH hv1); [|assumption].
    now apply (handle_index_same_shape f flags hv hv1 idx).
Qed.

Lemma handle_names_same_shape (registered : dict (list Z))
    (flags : list bool) :
  forall hv hv' : list hval,
    Forall2 (fun flag v => same_shape flag v = true) flags hv ->
    handle_names registered flags hv = Ok hv' ->
    Forall2 (fun flag v => same_shape flag v = true) flags hv'.
Proof.
  induction registered as [|[name indices] rest IH]; intros hv hv' HF;
    cbn [handle_names].
  - now intros [= <-].
  - destruct (dict_get handlers name) as [f|]; [|discriminate].
    intros H. apply bind_ok in H as [hv1 [H1 H]].
    apply (IH hv1); [|assumption].
    now apply (handle_indices_same_shape f flags indices hv hv1).
Qed.

Lemma short_values_same_shape (vals : list value) :
  Forall2 (fun flag v => same_shape flag v = true)
    (map range_flag vals) (map hval_of_value (map short_value vals)).
Proof.
  induction vals as [|[z|lo hi] vals IH]; cbn [map]; constructor;
    try assumption; [reflexivity|].
  cbn [range_flag short_value]. now destruct (lo =? hi).
Qed.

Lemma handle_same_shape (q : TranslationQuantifier) (vals : list value)
    (hv : list hval) :
  handle q (map short_value vals) (map range_flag vals) = Ok hv ->
  Forall2 (fun flag v => same_shape flag v = true) (map range_flag vals) hv.
Proof.
  unfold handle. apply handle_names_same_shape.
  apply short_values_same_shape.
Qed.

Lemma replacement_ok (flag : bool) (v : hval) :
  same_shape flag v = true -> exists rpl, replacement flag v = Ok rpl.
Proof.
  unfold replacement. destruct flag, v; try discriminate; eauto.
Qed.

Lemma _replace_without_percent (i : nat) (s rpl : String.string) :
  all_chars (fun c => negb (Ascii.eqb "%" c)) s = true ->
  _replace i s rpl = (s, true).
Proof.
  intros H. unfold _replace, _tag_iter, tags. cbn [fold_left].
  unfold replace. cbn [append].
  rewrite (replace_from_absent "%" _ rpl s H).
  rewrite (replace_from_absent "%" _ rpl s H).
  now rewrite String.eqb_refl.
Qed.

Lemma literal_loop_returns (flags : list bool) (l : list hval) :
  forall (n : nat) (s : String.string) (unused : list hval),
    (forall i v, nth_error l i = Some v ->
       exists flag, nth_error flags (n + i) = Some flag /\
                    same_shape flag v = true) ->
    exists s' unused',
      literal_loop flags (enumerate_from n l) s unused = Ok (s', unused') /\
      (forall x, In x unused' -> In x unused \/ In x l) /\
      (all_chars (fun c => negb (Ascii.eqb "%" c)) s = true ->
       s' = s /\ unused' = unused ++ l).
Proof.
  induction l as [|v l IH]; intros n s unused H;
    cbn [enumerate_from literal_loop].
  - exists s, unused. split; [reflexivity|]. split; [auto|].
    intros _. now rewrite app_nil_r.
  - destruct (H 0%nat v eq_refl) as [flag [Hflag Hshape]].
    rewrite Nat.add_0_r in Hflag. apply getitem_ok in Hflag.
    rewrite Hflag. cbn [bind].
    destruct (replacement_ok _ _ Hshape) as [rpl Hrpl]. rewrite Hrpl.
    cbn [bind].
    pose proof (_replace_without_percent n s rpl) as Hnp.
    destruct (_replace n s rpl) as [s1 r].
    destruct (IH (S n) s1 (if r then unused ++ [v] else unused))
      as [s' [unused' [Hr [Hin Hkeep]]]].
    { intros i x Hx. destruct (H (S i) x Hx) as [fl [Hfl Hsh]].
      exists fl. split; [|assumption]. now rewrite Nat.add_succ_comm. }
    exists s', unused'. split; [assumption|]. split.
    + intros x Hx. destruct (Hin x Hx) as [G|G]; [|right; now right].
      destruct r; [|now left].
      apply in_app_or in G as [G|[<-|[]]]; [now left|right; now left].
    + intros Hs. specialize (Hnp Hs). injection Hnp as -> ->.
      destruct (Hkeep Hs) as [-> ->]. split; [reflexivity|].
      now rewrite <- app_assoc.
Qed.

(** X9.  On values and flags as [get_string] builds them, the plain mode of
    [format_string] fails only where [handle] fails: when [handle] returns,
    a text comes back, and the unused values are among the handled ones.  A
    template without a percent sign comes back as it is, with every value
    unused. *)
Theorem plain_mode_returns (ts : TranslationString) (vals : list value)
    (hv : list hval) :
  handle (quantifier ts) (map short_value vals) (map range_flag vals)
  = Ok hv ->
  exists s unused,
    format_string ts (map short_value vals) (map range_flag vals)
      false false
    = Ok (LStr s, unused) /\
    (forall x, In x unused -> In x hv) /\
    (all_chars (fun c => negb (Ascii.eqb "%" c)) (string ts) = true ->
     s = string ts /\ unused = hv).
Proof.
  intros H. pose proof (handle_same_shape _ _ _ H) as HF.
  unfold format_string. rewrite H. cbn [bind]. unfold enumerate.
  destruct (literal_loop_returns (map range_flag vals) hv 0
              (replace "%%" "%" (string ts)) [])
    as [s [unused [Hr [Hin Hkeep]]]].
  { intros i v Hv. cbn [Nat.add].
    now apply (Forall2_nth_error_r _ _ _ HF). }
  rewrite Hr. cbn [bind fst snd]. exists s, unused.
  split; [reflexivity|]. split.
  - intros x Hx. destruct (Hin x Hx) as [[]|G]. exact G.
  - intros Hs.
    assert (Hu : replace "%%" "%" (string ts) = string ts).
    { unfold replace. now apply replace_from_absent. }
    rewrite Hu in Hkeep. exact (Hkeep Hs).
Qed.

Lemma short_value_collapsed (v : value) :
  test_value (short_value v) = test_value v /\
  short_value (short_value v) = short_value v /\
  range_flag (short_value v) = range_flag v.
Proof.
  destruct v as [z|lo hi]; cbn [short_value]; [auto|].
  destruct (lo =? hi) eqn:E; cbn [test_value short_value range_flag];
    rewrite ?E; auto.
Qed.

(** X10.  [get_string] treats a range whose two ends are equal as the
    number itself: collapsing such ranges in the values beforehand changes
    nothing of what it returns or raises. *)
Theorem get_string_collapses_points (tl : TranslationLanguage)
    (vals : list value) (ixs : list nat) (ph ov : bool) :
  get_string tl (map short_value vals) ixs ph ov
  = get_string tl vals ixs ph ov /\
  forall v rest,
    get_string tl (VRange v v :: rest) ixs ph ov
    = get_string tl (VInt v :: rest) ixs ph ov.
Proof.
  assert (E : forall l,
             map test_value (map short_value l) = map test_value l /\
             map short_value (map short_value l) = map short_value l /\
             map range_flag (map short_value l) = map range_flag l).
  { intros l. rewrite !map_map.
    split; [|split]; apply map_ext; intros v; apply short_value_collapsed. }
  split.
  - unfold get_string. destruct (E vals) as [-> [-> ->]]. reflexivity.
  - intros v rest. unfold get_string.
    cbn [map test_value short_value range_flag]. now rewrite Z.eqb_refl.
Qed.

Lemma get_string_picks (tl : TranslationLanguage) (vals : list value)
    (ixs : list nat) (ph ov : bool) :
  strings tl <> [] ->
  (forall ts, In ts (strings tl) ->
     exists s, match_range ts (map test_value vals) ixs = Ok s) ->
  exists ts,
    In ts (strings tl) /\
    get_string tl vals ixs ph ov
    = format_string ts (map short_value vals) (map range_flag vals) ph ov.
Proof.
  intros Hne Hall.
  destruct (rate_strings_ok _ _ _ Hall) as [temp [Ht [Hlen Hnth]]].
  unfold get_string. rewrite Ht. cbn [bind].
  destruct (sort_by (fun x => - fst x) temp) as [|x rest] eqn:Es.
  - apply sort_by_nil in Es. subst temp.
    destruct (strings tl); [congruence|discriminate].
  - destruct (sort_by_head _ _ _ _ Es) as [k [Hk _]].
    destruct (Hnth _ _ Hk) as [Hts _].
    exists (snd x). split; [now apply nth_error_In in Hts|reflexivity].
Qed.

(** X11.  [get_string] returns a line whenever the language has a string,
    every index is a position of the values and of the ranges of every
    string, the quantifier of every string accepts the values and, with
    [use_placeholder], there are at most 29 values. *)
Theorem get_string_returns (tl : TranslationLanguage) (vals : list value)
    (ixs : list nat) (ph ov : bool) :
  strings tl <> [] ->
  (forall i ts, In i ixs -> In ts (strings tl) ->
     (i < List.length (range ts))%nat /\ (i < List.length vals)%nat) ->
  (forall ts, In ts (strings tl) ->
     exists hv,
       handle (quantifier ts) (map short_value vals) (map range_flag vals)
       = Ok hv) ->
  (ph = true -> ov = false -> (List.length vals <= 29)%nat) ->
  exists ln unused, get_string tl vals ixs ph ov = Ok (ln, unused).
Proof.
  intros Hne Hix Hh Hph.
  destruct (get_string_picks tl vals ixs ph ov Hne) as [ts [Hin ->]].
  { intros ts Hts. unfold match_range.
    rewrite match_range_from_sum; [eauto|].
    intros i Hi. rewrite length_map. now apply Hix. }
  destruct (Hh ts Hin) as [hv Hhv].
  pose proof (handle_length _ _ _ _ Hhv) as Hl. rewrite !length_map in Hl.
  pose proof (handle_same_shape _ _ _ Hhv) as HF.
  unfold format_string. rewrite Hhv. cbn [bind]. unfold enumerate.
  destruct ov.
  - destruct (only_values_loop _ (enumerate_from 0 hv) [] []); eauto.
  - destruct ph.
    + destruct (placeholder_loop_bound hv 0
                  (replace "%%" "%" (string ts)) [] (Nat.le_0_l 29))
        as [[r Hr] _].
      { simpl. rewrite Hl. now apply Hph. }
      rewrite Hr. cbn [bind]. eauto.
    + destruct (literal_loop_returns (map range_flag vals) hv 0
                  (replace "%%" "%" (string ts)) [])
        as [s [unused [Hr _]]].
      { intros i v Hv. cbn [Nat.add].
        now apply (Forall2_nth_error_r _ _ _ HF). }
      rewrite Hr. cbn [bind]. eauto.
Qed.

End FormatModes.

Lemma placeholder_letters_run_out_witness :
  format_string (PF := rational_float)
    (mkString no_quantifier [wildcard; wildcard] "%1% to %2%")
    [VInt 1; VInt 2] [false; false] true false
  = Ok (LStr "x to y", []) /\
  format_string (PF := rational_float)
    (mkString no_quantifier [] "text") (repeat (VInt 0) 30)
    (repeat false 30) true false
  = Raise IndexError.
Proof.
  split; [reflexivity|].
  apply (proj2 (placeholder_letters_run_out (PF := rational_float)
                  (mkString no_quantifier [] "text") (repeat (VInt 0) 30)
                  (repeat false 30) _ eq_refl)).
  simpl. lia.
Defined.

Lemma only_values_reports_twice_witness :
  exists rtr unused,
    format_string (PF := rational_float)
      (mkString no_quantifier [wildcard; wildcard] "%1% and %2$+d")
      [VInt 1; VInt 2] [false; false] false true
    = Ok (LVals rtr, unused) /\
    Permutation (rtr ++ unused)
      (flat_map (fun v => [v; v]) [HNum (NInt 1); HNum (NInt 2)]) /\
    (List.length rtr + List.length unused = 2 * 2)%nat.
Proof.
  exact (only_values_reports_twice (PF := rational_float)
           (mkString no_quantifier [wildcard; wildcard] "%1% and %2$+d")
           [VInt 1; VInt 2] [false; false] false _ eq_refl).
Defined.

Lemma plain_mode_returns_witness :
  exists s unused,
    format_string (PF := rational_float)
      (mkString no_quantifier [wildcard] "no tags here")
      (map short_value [VRange 1 5]) (map range_flag [VRange 1 5])
      false false
    = Ok (LStr s, unused) /\
    (forall x, In x unused -> In x [HPair (NInt 1) (NInt 5)]) /\
    (all_chars (fun c => negb (Ascii.eqb "%" c)) "no tags here" = true ->
     s = "no tags here" /\ unused = [HPair (NInt 1) (NInt 5)]).
Proof.
  exact (plain_mode_returns (PF := rational_float)
           (mkString no_quantifier [wildcard] "no tags here")
           [VRange 1 5] _ eq_refl).
Defined.

Lemma get_string_returns_witness :
  exists ln unused,
    get_string (PF := rational_float) exactly_one_language [VRange 1 5]
      [0%nat] false false
    = Ok (ln, unused).
Proof.
  apply (get_string_returns (PF := rational_float)).
  - discriminate.
  - intros i ts [<-|[]] Hts. simpl in Hts.
    repeat (destruct Hts as [<-|Hts]; [simpl; lia|]). destruct Hts.
  - intros ts Hts. simpl in Hts.
    repeat (destruct Hts as [<-|Hts]; [eexists; reflexivity|]).
    destruct Hts.
  - discriminate.
Defined.

(** ** The result object of a query *)

Lemma delitem_nth {A} (l l' : list A) (i : nat) :
  delitem l i = Ok l' ->
  S (List.length l') = List.length l /\
  forall k, nth_error l' k = nth_error l (if (k <? i)%nat then k else S k).
Proof.
  revert l' i. induction l as [|h t IH]; intros l' [|i]; cbn [delitem];
    try discriminate.
  - intros [= <-]. split; reflexivity.
  - destruct (delitem t i) as [t'|] eqn:E; [|discriminate].
    intros [= <-]. destruct (IH _ _ E) as [Hl Hk].
    split; [simpl; lia|]. intros [|k]; [reflexivity|].
    cbn [nth_error]. rewrite Hk.
    change (S k <? S i)%nat with (k <? i)%nat. now destruct (k <? i)%nat.
Qed.

Lemma map_snd_enumerate_from {A} (l : list A) :
  forall n, map snd (enumerate_from n l) = l.
Proof.
  induction l as [|a l IH]; intros n; cbn [enumerate_from map snd];
    [reflexivity|].
  now rewrite IH.
Qed.

Lemma skipn_cons_nth {A} (l : list A) :
  forall n, (n < List.length l)%nat ->
    exists a, nth_error l n = Some a /\ skipn n l = a :: skipn (S n) l.
Proof.
  induction l as [|h t IH]; intros [|n] H; simpl in H; try lia.
  - exists h. split; reflexivity.
  - destruct (IH n) as [a [Ha Hs]]; [lia|]. exists a. split; assumption.
Qed.

Section QueryResults.
Context {PF : PyFloat}.

Lemma touch_keeps (vals : list value) (i : nat) (tag : String.string)
    (st st' : scan) (tr : Translation) :
  touch vals i tag st tr = Ok st' ->
  trans_missing st' = trans_missing st /\
  trans_missing_values st' = trans_missing_values st /\
  forall x, In x (trans_found st') ->
    In x (trans_found st) \/ In tag (ids x).
Proof.
  unfold touch.
  destruct (find_index (String.eqb tag) (ids tr)) as [index|] eqn:Ei;
    [|discriminate].
  apply index_of_tag in Ei. apply nth_error_In in Ei.
  destruct (find_index (fun x => translation_eqb x tr) (trans_found st)).
  - intros H. apply bind_ok in H as [idx [_ H]].
    apply bind_ok in H as [fi [_ H]]. apply bind_ok in H as [vi [_ H]].
    apply bind_ok in H as [v [_ H]]. apply bind_ok in H as [v' [_ H]].
    apply bind_ok in H as [fv [_ H]]. injection H as <-.
    cbn [trans_missing trans_missing_values trans_found]. auto.
  - intros H. apply bind_ok in H as [vi [_ H]].
    apply bind_ok in H as [v' [_ H]]. injection H as <-.
    cbn [trans_missing trans_missing_values trans_found].
    split; [reflexivity|]. split; [reflexivity|].
    intros x Hx. apply in_app_or in Hx as [Hx|[<-|[]]]; auto.
Qed.

Lemma touch_bucket_keeps (vals : list value) (i : nat)
    (tag : String.string) (bucket : list Translation) :
  forall st st',
    touch_bucket vals i tag st bucket = Ok st' ->
    trans_missing st' = trans_missing st /\
    trans_missing_values st' = trans_missing_values st /\
    forall x, In x (trans_found st') ->
      In x (trans_found st) \/ In tag (ids x).
Proof.
  induction bucket as [|tr b IH]; intros st st'; cbn [touch_bucket].
  - intros [= <-]. auto.
  - intros H. apply bind_ok in H as [st1 [H1 H]].
    destruct (touch_keeps _ _ _ _ _ _ H1) as [E1 [E2 E3]].
    destruct (IH _ _ H) as [F1 [F2 F3]].
    split; [congruence|]. split; [congruence|].
    intros x Hx. destruct (F3 x Hx) as [G|G]; auto.
Qed.

Lemma scan_tags_missing (self : TranslationFile) (vals : list value)
    (R : String.string -> value -> Prop)
    (items : list (nat * String.string)) :
  (forall i tag v, In (i, tag) items -> nth_error vals i = Some v ->
     R tag v) ->
  forall st st',
    scan_tags self vals items st = Ok st' ->
    trans_missing st'
    = trans_missing st
      ++ filter (fun tag => is_none (dict_get (_translations_hash self) tag))
           (map snd items) /\
    (Forall2 R (trans_missing st) (trans_missing_values st) ->
     Forall2 R (trans_missing st') (trans_missing_values st')) /\
    forall x, In x (trans_found st') ->
      In x (trans_found st) \/
      exists tag, In tag (map snd items) /\ In tag (ids x).
Proof.
  induction items as [|[i tag] items IH]; intros HR st st';
    cbn [scan_tags map snd filter].
  - intros [= <-]. rewrite app_nil_r. auto.
  - intros H. apply bind_ok in H as [st1 [H1 H]].
    destruct (IH (fun j t v Hin => HR j t v (or_intror Hin)) _ _ H)
      as [F1 [F2 F3]].
    destruct (dict_get (_translations_hash self) tag) as [bucket|];
      cbn [is_none].
    + destruct (touch_bucket_keeps _ _ _ _ _ _ H1) as [E1 [E2 E3]].
      split; [rewrite F1, E1; reflexivity|]. split.
      * intros HF. apply F2. now rewrite E1, E2.
      * intros x Hx. destruct (F3 x Hx) as [G|[t [Ht Hi]]].
        -- destruct (E3 x G) as [G'|G']; [now left|].
           right. exists tag. split; [now left|assumption].
        -- right. exists t. split; [now right|assumption].
    + apply bind_ok in H1 as [vi [Hvi H1]]. injection H1 as <-.
      apply getitem_ok in Hvi.
      cbn [trans_missing trans_missing_values trans_found] in F1, F2, F3.
      split; [rewrite F1, <- app_assoc; reflexivity|]. split.
      * intros HF. apply F2. apply Forall2_app; [assumption|].
        constructor; [|constructor]. apply (HR i tag vi); [now left|].
        assumption.
      * intros x Hx. destruct (F3 x Hx) as [G|[t [Ht Hi]]]; [now left|].
        right. exists t. split; [now right|assumption].
Qed.

Lemma remove_invalid_entries (inv : list Translation) :
  forall st st',
    List.length (trans_found_indexes st) = List.length (trans_found st) ->
    List.length (trans_found_values st) = List.length (trans_found st) ->
    remove_invalid inv st = Ok st' ->
    List.length (trans_found_indexes st') = List.length (trans_found st') /\
    List.length (trans_found_values st') = List.length (trans_found st') /\
    trans_missing st' = trans_missing st /\
    trans_missing_values st' = trans_missing_values st /\
    forall k x vs, entry st' k x vs -> exists k', entry st k' x vs.
Proof.
  induction inv as [|tr inv IH]; intros st st' Hi Hv; cbn [remove_invalid].
  - intros [= <-]. repeat split; try assumption. eauto.
  - destruct (find_index (fun x => translation_eqb x tr) (trans_found st))
      as [index|]; [|discriminate].
    intros H. apply bind_ok in H as [f [H1 H]].
    apply bind_ok in H as [fi [H2 H]].
    apply bind_ok in H as [fv [H3 H]].
    destruct (delitem_nth _ _ _ H1) as [L1 N1].
    destruct (delitem_nth _ _ _ H2) as [L2 N2].
    destruct (delitem_nth _ _ _ H3) as [L3 N3].
    apply IH in H as [G1 [G2 [G3 [G4 G5]]]];
      cbn [trans_found trans_found_indexes trans_found_values]; try lia.
    cbn [trans_missing trans_missing_values] in G3, G4.
    repeat split; try assumption.
    intros k x vs Hk. destruct (G5 k x vs Hk) as [k' [Hx Hvs]].
    cbn [trans_found trans_found_values] in Hx, Hvs.
    rewrite N1 in Hx. rewrite N3 in Hvs.
    exists (if (k' <? index)%nat then k' else S k'). now split.
Qed.

Lemma render_unused_length (st : scan) (lang : String.string)
    (ph ov : bool) (items : list (nat * Translation)) :
  forall (ls : list line) (un : list (list hval))
         (r : list line * list (list hval)),
    render st lang true ph ov items ls un = Ok r ->
    List.length (snd r) = (List.length un + List.length items)%nat.
Proof.
  induction items as [|[i tr] items IH]; intros ls un r; cbn [render].
  - intros [= <-]. simpl. lia.
  - destruct (get_language tr lang) as [tl|]; [|discriminate].
    intros H. apply bind_ok in H as [vs [_ H]].
    apply bind_ok in H as [ixs [_ H]].
    apply bind_ok in H as [res [_ H]].
    apply IH in H. rewrite H, length_app. simpl. lia.
Qed.

(** The stages of a query that hands back a result object, and what each
    field of the object is. *)
Lemma get_translation_stages (self : TranslationFile)
    (tags : list String.string) (vals : list value) (lang : String.string)
    (ph ov : bool) (res : TranslationResult) :
  get_translation self tags vals lang true ph ov = Ok (Full res) ->
  exists st inv st' r,
    scan_tags self vals (enumerate tags) (mkScan [] [] [] [] []) = Ok st /\
    collect_invalid (trans_found st) (enumerate (trans_found_values st))
    = Ok inv /\
    remove_invalid inv st = Ok st' /\
    render st' lang true ph ov (enumerate (trans_found st')) [] [] = Ok r /\
    res = mkResult (trans_found st') (fst r) (trans_found_indexes st')
            (trans_missing st') (trans_missing_values st')
            (trans_found_values st') inv (snd r).
Proof.
  unfold get_translation. intros H.
  apply bind_ok in H as [st [H1 H]].
  apply bind_ok in H as [inv [H2 H]].
  apply bind_ok in H as [st' [H3 H]].
  apply bind_ok in H as [r [H4 H]].
  injection H as <-. exists st, inv, st', r. auto 10.
Qed.

(** X12.  In the result object of a query the missing ids are the tags the
    index of the file does not know, in the order of the tags; each goes
    with the value given at a position of that tag; and every translation
    reported, found or invalid, carries one of the tags among its ids. *)
Theorem missing_ids_are_unknown_tags (self : TranslationFile)
    (tags : list String.string) (vals : list value) (lang : String.string)
    (ph ov : bool) (res : TranslationResult) :
  get_translation self tags vals lang true ph ov = Ok (Full res) ->
  missing_ids res
  = filter (fun tag => is_none (dict_get (_translations_hash self) tag))
      tags /\
  Forall2
    (fun tag v =>
       exists i, nth_error tags i = Some tag /\ nth_error vals i = Some v)
    (missing_ids res) (missing_values res) /\
  forall x, In x (found res) \/ In x (invalid res) ->
    exists tag, In tag tags /\ In tag (ids x).
Proof.
  intros H.
  destruct (get_translation_stages _ _ _ _ _ _ _ H)
    as [st [inv [st' [r [H1 [H2 [H3 [H4 ->]]]]]]]].
  cbn [missing_ids missing_values found invalid].
  pose proof (scan_tags_wf _ _ _ _ _ scan_wf_empty H1) as [Wi [Wv [Wne _]]].
  destruct (remove_invalid_entries _ _ _ Wi Wv H3) as [_ [_ [M1 [M2 _]]]].
  destruct (remove_invalid_spec _ _ _ Wne H3) as [_ [Sub _]].
  unfold enumerate in H1, H2.
  destruct (collect_invalid_spec _ _ _ _ H2) as [_ SubI].
  destruct (scan_tags_missing self vals
              (fun tag v =>
                 exists i, nth_error tags i = Some tag /\
                           nth_error vals i = Some v)
              (enumerate_from 0 tags)) with (st := mkScan [] [] [] [] [])
                                           (st' := st)
    as [F1 [F2 F3]].
  - intros i tag v Hin Hv. apply in_enumerate_from in Hin as [_ Hin].
    rewrite Nat.sub_0_r in Hin. eauto.
  - exact H1.
  - rewrite map_snd_enumerate_from in F1, F3.
    cbn [trans_missing trans_missing_values trans_found app] in F1, F2, F3.
    rewrite M1, M2. split; [exact F1|]. split; [apply F2; constructor|].
    intros x [Hx|Hx].
    + destruct (F3 x (Sub x Hx)) as [[]|G]. exact G.
    + destruct (F3 x (SubI x Hx)) as [[]|G]. exact G.
Qed.

Lemma scan_tags_unknown (self : TranslationFile) (vals : list value)
    (tags : list String.string) :
  (forall tag, In tag tags -> dict_get (_translations_hash self) tag = None) ->
  forall (n : nat) (st : scan),
    (n + List.length tags <= List.length vals)%nat ->
    scan_tags self vals (enumerate_from n tags) st
    = Ok (mkScan (trans_found st) (trans_missing st ++ tags)
            (trans_missing_values st
             ++ firstn (List.length tags) (skipn n vals))
            (trans_found_indexes st) (trans_found_values st)).
Proof.
  induction tags as [|tag tags IH]; intros Hun n st Hn;
    cbn [enumerate_from scan_tags List.length firstn].
  - rewrite !app_nil_r. now destruct st.
  - rewrite (Hun tag (or_introl eq_refl)).
    cbn [List.length] in Hn.
    destruct (skipn_cons_nth vals n) as [vi [Hvi Hs]]; [lia|].
    rewrite (proj2 (getitem_ok _ _ _) Hvi). cbn [bind].
    rewrite IH; [|intros t Ht; apply Hun; now right|lia].
    cbn [trans_found trans_missing trans_missing_values
         trans_found_indexes trans_found_values].
    rewrite Hs. cbn [firstn]. now rewrite <- !app_assoc.
Qed.

(** X13.  A query whose tags are all unknown to the index raises nothing
    when there is a value for every tag: no line comes back, and in the
    result object every tag is missing, with its value. *)
Theorem unknown_tags_only (self : TranslationFile)
    (tags : list String.string) (vals : list value) (lang : String.string)
    (ph ov : bool) :
  (forall tag, In tag tags ->
     dict_get (_translations_hash self) tag = None) ->
  (List.length tags <= List.length vals)%nat ->
  get_translation self tags vals lang true ph ov
  = Ok (Full (mkResult [] [] [] tags (firstn (List.length tags) vals)
                [] [] [])) /\
  get_translation self tags vals lang false ph ov = Ok (Lines []).
Proof.
  intros Hun Hlen. unfold get_translation, enumerate.
  rewrite (scan_tags_unknown self vals tags Hun 0) by (simpl; lia).
  split; reflexivity.
Qed.

(** X14.  In the result object of a query the lists of the found
    translations, their lines, indexes, values and unused values run in
    step; the found translations are pairwise different and none of them is
    equal to an invalid one; and every value vector has one value for each
    id of its translation, none of them the marker. *)
Theorem result_lists_in_step (self : TranslationFile)
    (tags : list String.string) (vals : list value) (lang : String.string)
    (ph ov : bool) (res : TranslationResult) :
  get_translation self tags vals lang true ph ov = Ok (Full res) ->
  List.length (lines res) = List.length (found res) /\
  List.length (indexes res) = List.length (found res) /\
  List.length (values res) = List.length (found res) /\
  List.length (values_unused res) = List.length (found res) /\
  pairwise_ne (found res) /\
  (forall x y, In x (found res) -> In y (invalid res) ->
     translation_eqb x y = false) /\
  (forall k x vs,
     nth_error (found res) k = Some x ->
     nth_error (values res) k = Some vs ->
     List.length vs = List.length (ids x) /\
     existsb is_sentinel vs = false).
Proof.
  intros H.
  destruct (get_translation_stages _ _ _ _ _ _ _ H)
    as [st [inv [st' [r [H1 [H2 [H3 [H4 ->]]]]]]]].
  cbn [lines indexes values values_unused found invalid].
  pose proof (scan_tags_wf _ _ _ _ _ scan_wf_empty H1)
    as [Wi [Wv [Wne Wlen]]].
  destruct (remove_invalid_entries _ _ _ Wi Wv H3)
    as [Li [Lv [_ [_ Hent]]]].
  destruct (remove_invalid_spec _ _ _ Wne H3) as [Pne [_ Hgone]].
  unfold enumerate in H2.
  destruct (collect_invalid_spec _ _ _ _ H2) as [Hinv _].
  pose proof (render_length _ _ _ _ _ _ _ _ _ H4) as Rl.
  pose proof (render_unused_length _ _ _ _ _ _ _ _ H4) as Ru.
  unfold enumerate in Rl, Ru. rewrite length_enumerate_from in Rl, Ru.
  split; [exact Rl|]. split; [exact Li|]. split; [exact Lv|].
  split; [exact Ru|]. split; [exact Pne|]. split.
  - intros x y Hx Hy. now apply (Hgone y x).
  - intros k x vs Hx Hvs.
    destruct (Hent k x vs (conj Hx Hvs)) as [k' [Hx' Hvs']].
    split; [apply (Wlen k'); now split|].
    destruct (existsb is_sentinel vs) eqn:E; [|reflexivity].
    assert (Hin : In x inv) by (apply (Hinv k' vs x); assumption).
    pose proof (Hgone x x Hin (nth_error_In _ _ Hx)) as Hne.
    now rewrite translation_eqb_refl in Hne.
Qed.

(** X15.  [full_result] changes how the outcome of a query is handed back
    and nothing else: both calls return, the lines of the result object
    being the lines of the plain call, or both raise the same exception. *)
Theorem full_result_only_wraps (self : TranslationFile)
    (tags : list String.string) (vals : list value) (lang : String.string)
    (ph ov : bool) :
  match get_translation self tags vals lang true ph ov,
        get_translation self tags vals lang false ph ov with
  | Ok (Full res), Ok (Lines l) => lines res = l
  | Raise e1, Raise e2 => e1 = e2
  | _, _ => False
  end.
Proof.
  unfold get_translation.
  destruct (scan_tags self vals (enumerate tags) (mkScan [] [] [] [] []))
    as [st|]; cbn [bind]; [|reflexivity].
  destruct (collect_invalid (trans_found st)
              (enumerate (trans_found_values st))) as [inv|]; cbn [bind];
    [|reflexivity].
  destruct (remove_invalid inv st) as [st'|]; cbn [bind]; [|reflexivity].
  pose proof (render_flag st' lang ph ov (enumerate (trans_found st'))
                [] [] []) as F.
  destruct (render st' lang true ph ov (enumerate (trans_found st')) [] [])
    as [r1|e1];
    destruct (render st' lang false ph ov (enumerate (trans_found st'))
                [] []) as [r2|e2]; cbn [bind]; try contradiction.
  - exact F.
  - exact F.
Qed.

End QueryResults.

Lemma missing_ids_are_unknown_tags_witness :
  exists res,
    get_translation (PF := rational_float) life_file
      ["mana"; "life_regen"; "rage"] [VInt 1; VInt 2; VInt 3] "English"
      true false false
    = Ok (Full res) /\
    missing_ids res = ["mana"; "rage"] /\
    missing_values res = [VInt 1; VInt 3].
Proof.
  eexists. split; [reflexivity|].
  split; [|reflexivity].
  exact (proj1 (missing_ids_are_unknown_tags (PF := rational_float)
                  life_file ["mana"; "life_regen"; "rage"]
                  [VInt 1; VInt 2; VInt 3] "English" false false _
                  eq_refl)).
Defined.

Lemma unknown_tags_only_witness :
  get_translation (PF := rational_float) life_file ["mana"; "rage"]
    [VInt 1; VInt 2; VInt 3] "English" false false false
  = Ok (Lines []).
Proof.
  assert (Hun : forall tag, In tag ["mana"; "rage"] ->
                  dict_get (_translations_hash life_file) tag = None).
  { intros tag [<-|[<-|[]]]; reflexivity. }
  assert (Hlen : (List.length ["mana"; "rage"]
                  <= List.length [VInt 1; VInt 2; VInt 3])%nat)
    by (simpl; lia).
  exact (proj2 (unknown_tags_only (PF := rational_float) life_file
                  ["mana"; "rage"] [VInt 1; VInt 2; VInt 3] "English"
                  false false Hun Hlen)).
Defined.

Lemma result_lists_in_step_witness :
  exists res,
    get_translation (PF := rational_float) pair_file ["a"; "b"]
      [VInt 1; VInt 2] "English" true false false
    = Ok (Full res) /\
    List.length (lines res) = List.length (found res) /\
    List.length (values_unused res) = List.length (found res).
Proof.
  eexists. split; [reflexivity|].
  destruct (result_lists_in_step (PF := rational_float) pair_file
              ["a"; "b"] [VInt 1; VInt 2] "English" false false _ eq_refl)
    as [H1 [_ [_ [H4 _]]]].
  split; [exact H1|exact H4].
Defined.

(** ** The file cache *)

Lemma startswith_app (p s : String.string) : startswith p (p ++ s) = true.
Proof.
  induction p as [|c p IH]; [reflexivity|].
  cbn [append startswith]. now rewrite Ascii.eqb_refl, IH.
Qed.

(** X16.  The name [TranslationFileCache.__getitem__] looks a file up under
    always starts with [Metadata/]; a name that starts with it is taken as
    it is, so that prefixing twice is prefixing once. *)
Theorem cache_item_name_prefixed (item : String.string) :
  startswith "Metadata/" (cache_item_name item) = true /\
  cache_item_name (cache_item_name item) = cache_item_name item /\
  cache_item_name ("Metadata/" ++ item) = ("Metadata/" ++ item)%string.
Proof.
  assert (H : startswith "Metadata/" (cache_item_name item) = true).
  { unfold cache_item_name.
    destruct (startswith "Metadata/" item) eqn:E; [exact E|].
    apply startswith_app. }
  split; [exact H|]. split.
  - unfold cache_item_name at 1. now rewrite H.
  - unfold cache_item_name. now rewrite startswith_app.
Qed.

(** ** The variant line of the parser *)

Lemma all_chars_app_eq (p : ascii -> bool) (s t : String.string) :
  all_chars p (s ++ t) = all_chars p s && all_chars p t.
Proof.
  induction s as [|c s IH]; [reflexivity|].
  cbn [append all_chars]. now rewrite IH, andb_assoc.
Qed.

Lemma number_char_no_mark (c : ascii) :
  is_digit c || Ascii.eqb c "-" = true ->
  Ascii.eqb c "|" = false /\ Ascii.eqb c "#" = false.
Proof.
  destruct c as [[|] [|] [|] [|] [|] [|] [|] [|]]; cbv; intros H;
    try discriminate H; split; reflexivity.
Qed.

Lemma str_int_number_chars (w : Z) :
  all_chars (fun c => is_digit c || Ascii.eqb c "-") (str_int w) = true.
Proof.
  assert (Hd : forall s, all_chars is_digit s = true ->
                 all_chars (fun c => is_digit c || Ascii.eqb c "-") s
                 = true).
  { intros s. apply all_chars_impl. intros c ->. reflexivity. }
  destruct (Z_lt_le_dec w 0) as [Hw|Hw].
  - destruct (str_int_neg w Hw) as [rest [-> Hr]].
    cbn [all_chars]. now rewrite (Hd _ Hr).
  - destruct (str_int_nonneg w Hw) as [c [rest [-> [Hc Hr]]]].
    cbn [all_chars]. now rewrite Hc, (Hd _ Hr).
Qed.

Lemma str_int_isnumber (w : Z) : isnumber (str_int w) = true.
Proof.
  pose proof (str_int_number_chars w) as H. unfold isnumber.
  destruct (str_int w) as [|c rest] eqn:E; [|exact H].
  exfalso. destruct (Z_lt_le_dec w 0) as [Hw|Hw].
  - destruct (str_int_neg w Hw) as [? [E' _]]. congruence.
  - destruct (str_int_nonneg w Hw) as [? [? [E' _]]]. congruence.
Qed.

Lemma isnumber_chars (s : String.string) :
  isnumber s = true ->
  all_chars (fun c => is_digit c || Ascii.eqb c "-") s = true.
Proof. destruct s; [discriminate|auto]. Qed.

Lemma number_chars_no_bar (s : String.string) :
  all_chars (fun c => is_digit c || Ascii.eqb c "-") s = true ->
  all_chars (fun c => negb (Ascii.eqb c "|")) s = true.
Proof.
  apply all_chars_impl. intros c Hc.
  destruct (number_char_no_mark c Hc) as [-> _]. reflexivity.
Qed.

Lemma str_int_not_hash (w : Z) : String.eqb (str_int w) "#" = false.
Proof.
  destruct (String.eqb_spec (str_int w) "#") as [E|]; [|reflexivity].
  pose proof (str_int_number_chars w) as H. rewrite E in H. discriminate H.
Qed.

Lemma int_of_token_str_int (z : Z) : int_of_token (str_int z) = Parsed z.
Proof.
  unfold int_of_token, str_int. rewrite NilZero.isi.
  - now rewrite DecimalZ.of_to.
  - destruct z; simpl; try discriminate.
    intros [= H]. now apply Unsigned.to_uint_nonnil in H.
  - destruct z; simpl; try discriminate.
    intros [= H]. now apply Unsigned.to_uint_nonnil in H.
Qed.

Lemma bound_token_no_bar (b : option Z) :
  all_chars (fun c => negb (Ascii.eqb c "|")) (bound_token b) = true.
Proof.
  destruct b as [z|]; [|reflexivity].
  apply number_chars_no_bar, str_int_number_chars.
Qed.

Lemma parse_bound_token (b : option Z) :
  parse_bound (bound_token b) = Parsed b.
Proof.
  unfold parse_bound. destruct b as [z|]; [|reflexivity].
  cbn [bound_token]. rewrite str_int_not_hash, int_of_token_str_int.
  reflexivity.
Qed.

Lemma split_on_app (sep : ascii) (x y : String.string) :
  all_chars (fun c => negb (Ascii.eqb c sep)) x = true ->
  split_on sep (x ++ String sep y) = x :: split_on sep y.
Proof.
  induction x as [|c x IH]; cbn [append all_chars split_on].
  - intros _. now rewrite Ascii.eqb_refl.
  - intros H. apply andb_true_iff in H as [Hc Hx].
    apply negb_true_iff in Hc. rewrite Hc, (IH Hx). reflexivity.
Qed.

Lemma split_on_absent (sep : ascii) (x : String.string) :
  all_chars (fun c => negb (Ascii.eqb c sep)) x = true ->
  split_on sep x = [x].
Proof.
  induction x as [|c x IH]; cbn [all_chars split_on]; [reflexivity|].
  intros H. apply andb_true_iff in H as [Hc Hx].
  apply negb_true_iff in Hc. rewrite Hc, (IH Hx). reflexivity.
Qed.

Lemma contains_app (sub x y : String.string) :
  startswith sub y = true -> contains sub (x ++ y) = true.
Proof.
  intros H. induction x as [|c x IH].
  - cbn [append]. destruct y; cbn [contains]; now rewrite H.
  - cbn [append contains]. rewrite IH. apply orb_true_r.
Qed.

Lemma pair_token_shape (x y : String.string) :
  String.eqb (x ++ "|" ++ y) "#" = false /\
  isnumber (x ++ "|" ++ y) = false /\
  contains "|" (x ++ "|" ++ y) = true.
Proof.
  assert (Hb : all_chars (fun c => negb (Ascii.eqb c "|")) (x ++ "|" ++ y)
               = false).
  { rewrite all_chars_app_eq. cbn [append all_chars].
    rewrite Ascii.eqb_refl. cbn [negb andb]. apply andb_false_r. }
  split; [|split].
  - destruct (String.eqb_spec (x ++ "|" ++ y) "#") as [E|]; [|reflexivity].
    rewrite E in Hb. discriminate Hb.
  - destruct (isnumber (x ++ "|" ++ y)) eqn:E; [|reflexivity].
    apply isnumber_chars, number_chars_no_bar in E. congruence.
  - apply contains_app. reflexivity.
Qed.

(** X17.  What a limiter token stands for: [#] for the range without
    bounds, a number for the range of that number alone, which rates that
    value 3 and every other value 0, and [lo|hi], where either side may be
    [#], for the range of those bounds.  A token that is none of these
    ends the reading with a plain exception that carries it. *)
Theorem limiter_tokens :
  parse_limit "#" = Parsed (mkRange None None) /\
  (forall z, parse_limit (str_int z) = Parsed (mkRange (Some z) (Some z))) /\
  (forall z v,
     exists r, parse_limit (str_int z) = Parsed r /\
               in_range r v = if v =? z then 3 else 0) /\
  (forall lo hi,
     parse_limit (bound_token lo ++ "|" ++ bound_token hi)
     = Parsed (mkRange lo hi)) /\
  (forall tok,
     tok <> "#" -> isnumber tok = false -> contains "|" tok = false ->
     parse_limit tok = Failed (PlainException tok)).
Proof.
  assert (Hn : forall z,
             parse_limit (str_int z) = Parsed (mkRange (Some z) (Some z))).
  { intros z. unfold parse_limit.
    rewrite str_int_not_hash, str_int_isnumber, int_of_token_str_int.
    reflexivity. }
  split; [reflexivity|]. split; [exact Hn|]. split; [|split].
  - intros z v. eexists. split; [apply Hn|].
    unfold in_range. cbn [rmin rmax is_none andb negb ge_bound le_bound].
    rewrite Z.geb_leb.
    destruct (Z.eqb_spec v z) as [->|N].
    + now rewrite Z.leb_refl.
    + destruct (Z.leb_spec z v), (Z.leb_spec v z); try reflexivity. lia.
  - intros lo hi. unfold parse_limit.
    destruct (pair_token_shape (bound_token lo) (bound_token hi))
      as [-> [-> ->]].
    change ("|" ++ bound_token hi)%string
      with (String "|" (bound_token hi)).
    rewrite split_on_app by apply bound_token_no_bar.
    rewrite split_on_absent by apply bound_token_no_bar.
    unfold parsed_getitem. cbn [nth_error parsed_bind].
    rewrite !parse_bound_token. reflexivity.
  - intros tok Hh Hnum Hbar. unfold parse_limit.
    destruct (String.eqb_spec tok "#") as [E|_]; [contradiction|].
    now rewrite Hnum, Hbar.
Qed.

Lemma parse_limits_seq (limiter : list String.string) (k : nat) :
  forall (a : nat) (acc rs : list TranslationRange),
    parse_limits limiter (seq a k) acc = Parsed rs ->
    exists new,
      rs = acc ++ new /\ List.length new = k /\
      Forall2 (fun tok r => parse_limit tok = Parsed r)
        (firstn k (skipn a limiter)) new.
Proof.
  induction k as [|k IH]; intros a acc rs; cbn [seq parse_limits].
  - intros [= <-]. exists []. rewrite app_nil_r. split; [reflexivity|].
    split; [reflexivity|constructor].
  - unfold parsed_getitem.
    destruct (nth_error limiter a) as [tok|] eqn:Ea; [|discriminate].
    cbn [parsed_bind].
    destruct (parse_limit tok) as [r|e] eqn:Er; [|discriminate].
    cbn [parsed_bind]. intros H.
    destruct (IH _ _ _ H) as [new [-> [Hl HF]]].
    destruct (skipn_cons_nth limiter a) as [tok' [Ht Hs]].
    { apply nth_error_Some. congruence. }
    assert (tok' = tok) by congruence. subst tok'.
    exists (r :: new). rewrite <- app_assoc. split; [reflexivity|].
    split; [simpl; now rewrite Hl|].
    rewrite Hs. cbn [firstn]. now constructor.
Qed.

Lemma parse_limits_short (limiter : list String.string) (k : nat) :
  (forall tok, In tok limiter -> exists r, parse_limit tok = Parsed r) ->
  forall (a : nat) (acc : list TranslationRange),
    (a <= List.length limiter)%nat -> (List.length limiter < a + k)%nat ->
    parse_limits limiter (seq a k) acc = Failed (PyError IndexError).
Proof.
  intros Hall. induction k as [|k IH]; intros a acc Ha Hk; [lia|].
  cbn [seq parse_limits]. unfold parsed_getitem.
  destruct (nth_error limiter a) as [tok|] eqn:Ea; [|reflexivity].
  cbn [parsed_bind].
  destruct (Hall tok (nth_error_In _ _ Ea)) as [r ->]. cbn [parsed_bind].
  assert ((a < List.length limiter)%nat)
    by (apply nth_error_Some; congruence).
  apply IH; lia.
Qed.

Lemma parse_limits_firstn (limiter : list String.string) (n : nat)
    (rounds : list nat) :
  (forall i, In i rounds -> (i < n)%nat) ->
  forall acc,
    parse_limits (firstn n limiter) rounds acc
    = parse_limits limiter rounds acc.
Proof.
  induction rounds as [|i rounds IH]; intros Hr acc; [reflexivity|].
  cbn [parse_limits]. unfold parsed_getitem. rewrite nth_error_firstn.
  replace (i <? n)%nat with true
    by (symmetry; apply Nat.ltb_lt, Hr; now left).
  destruct (nth_error limiter i) as [tok|]; [|reflexivity].
  cbn [parsed_bind]. destruct (parse_limit tok) as [r|e]; [|reflexivity].
  cbn [parsed_bind]. apply IH. intros j Hj. apply Hr. now right.
Qed.

(** X18.  The limiter of a variant line is read one token for each id.
    When it is read, there were at least as many tokens as ids and the
    ranges are what the first tokens stand for, one by one; the tokens
    after them are not looked at; and with fewer tokens than ids, all of
    them readable, the reading ends in [IndexError]. *)
Theorem limiter_one_token_per_id (id_count : nat)
    (limiter : list String.string) :
  (forall rs, parse_limiter id_count limiter = Parsed rs ->
     (id_count <= List.length limiter)%nat /\
     Forall2 (fun tok r => parse_limit tok = Parsed r)
       (firstn id_count limiter) rs) /\
  (parse_limiter id_count (firstn id_count limiter)
   = parse_limiter id_count limiter) /\
  ((List.length limiter < id_count)%nat ->
   (forall tok, In tok limiter -> exists r, parse_limit tok = Parsed r) ->
   parse_limiter id_count limiter = Failed (PyError IndexError)).
Proof.
  unfold parse_limiter. split; [|split].
  - intros rs H. apply parse_limits_seq in H as [new [-> [Hl HF]]].
    cbn [skipn app] in *. split; [|exact HF].
    pose proof (Forall2_length HF) as Hf. rewrite length_firstn in Hf. lia.
  - apply parse_limits_firstn. intros i Hi. apply in_seq in Hi. lia.
  - intros Hlen Hall. apply parse_limits_short; [exact Hall|lia|lia].
Qed.

Section QuantifierWords.
Context {PF : PyFloat}.

Lemma register_keeps_ok (q : TranslationQuantifier) (name : String.string)
    (n : Z) :
  quantifier_ok q -> quantifier_ok (fst (register q name n)).
Proof.
  intros Hok. unfold register.
  destruct (dict_get (registered_handlers q) name) as [l|] eqn:E.
  - cbn [fst]. apply quantifier_ok_set; [assumption|]. right.
    destruct (in_dec String.string_dec name
                (map fst (registered_handlers q))) as [H|H]; [assumption|].
    apply dict_get_none_keys in H. congruence.
  - destruct (dict_get handlers name) as [f|] eqn:Ef; cbn [fst];
      [|assumption].
    apply quantifier_ok_set; [assumption|]. left. eauto.
Qed.

Lemma registered_is_known (q : TranslationQuantifier)
    (name : String.string) (l : list Z) :
  quantifier_ok q -> dict_get (registered_handlers q) name = Some l ->
  is_none (dict_get handlers name) = false.
Proof.
  intros [_ Hk] E.
  destruct (in_dec String.string_dec name
              (map fst (registered_handlers q))) as [H|H].
  - destruct (Hk name H) as [f ->]. reflexivity.
  - apply dict_get_none_keys in H. congruence.
Qed.

Lemma register_pairs_spec (pairs : list (String.string * Z)) :
  forall (q : TranslationQuantifier) (unknown : list String.string),
    quantifier_ok q ->
    exists q',
      register_pairs (flat_map (fun p => [fst p; str_int (snd p)]) pairs)
        q unknown
      = Parsed
          (q',
           unknown
           ++ filter (fun name => is_none (dict_get handlers name))
                (map fst pairs)) /\
      quantifier_ok q' /\
      forall name,
        dict_get (registered_handlers q') name
        = if is_none (dict_get handlers name)
          then dict_get (registered_handlers q) name
          else
            match map snd (filter (fun p => String.eqb (fst p) name) pairs)
            with
            | [] => dict_get (registered_handlers q) name
            | l =>
                Some (match dict_get (registered_handlers q) name with
                      | Some l0 => l0
                      | None => []
                      end ++ l)
            end.
Proof.
  induction pairs as [|[nm n] pairs IH]; intros q unknown Hok.
  - exists q. cbn [flat_map register_pairs map filter].
    rewrite app_nil_r. split; [reflexivity|]. split; [assumption|].
    intros name. now destruct (is_none (dict_get handlers name)).
  - cbn [flat_map app fst snd register_pairs map filter].
    rewrite int_of_token_str_int. cbn [parsed_bind].
    pose proof (register_keeps_ok q nm n Hok) as Hok1.
    unfold register in *.
    destruct (dict_get (registered_handlers q) nm) as [l|] eqn:El.
    + pose proof (registered_is_known q nm l Hok El) as Hkn.
      cbn [fst] in Hok1.
      destruct (IH _ unknown Hok1) as [q' [Hr [Hok' Hget]]].
      exists q'. rewrite Hkn. split; [exact Hr|]. split; [exact Hok'|].
      intros name. rewrite Hget. cbn [registered_handlers].
      rewrite dict_get_set.
      destruct (is_none (dict_get handlers name)) eqn:Eh.
      * destruct (String.eqb_spec name nm) as [->|_]; [congruence|].
        reflexivity.
      * rewrite (String.eqb_sym nm name).
        destruct (String.eqb_spec name nm) as [->|_]; cbn [map snd].
        -- rewrite El.
           destruct (map snd (filter (fun p => String.eqb (fst p) nm) pairs));
             [reflexivity|].
           now rewrite <- app_assoc.
        -- reflexivity.
    + destruct (dict_get handlers nm) as [f|] eqn:Ef; cbn [is_none].
      * cbn [fst] in Hok1.
        destruct (IH _ unknown Hok1) as [q' [Hr [Hok' Hget]]].
        exists q'. split; [exact Hr|]. split; [exact Hok'|].
        intros name. rewrite Hget. cbn [registered_handlers].
        rewrite dict_get_set.
        destruct (is_none (dict_get handlers name)) eqn:Eh.
        -- destruct (String.eqb_spec name nm) as [->|_]; [|reflexivity].
           rewrite Ef in Eh. discriminate Eh.
        -- rewrite (String.eqb_sym nm name).
           destruct (String.eqb_spec name nm) as [->|_]; cbn [map snd].
           ++ rewrite El. cbn [app].
              now destruct (map snd
                              (filter (fun p => String.eqb (fst p) nm)
                                 pairs)).
           ++ reflexivity.
      * destruct (IH q (unknown ++ [nm]) Hok) as [q' [Hr [Hok' Hget]]].
        exists q'. rewrite <- app_assoc in Hr. split; [exact Hr|].
        split; [exact Hok'|].
        intros name. rewrite Hget.
        destruct (is_none (dict_get handlers name)) eqn:Eh; [reflexivity|].
        rewrite (String.eqb_sym nm name).
        destruct (String.eqb_spec name nm) as [->|_]; [|reflexivity].
        rewrite Ef in Eh. discriminate Eh.
Qed.

(** X19.  The quantifier words of a variant line, a handler name and an
    index by turns, are all registered: the reading does not fail, the
    names that draw the warning are the unknown ones, in their order, and
    in the quantifier built each known name that occurs is bound, once, to
    the list of its indices in the order of the line; no other name is
    bound. *)
Theorem quantifier_words_registered (pairs : list (String.string * Z)) :
  exists q,
    register_pairs (flat_map (fun p => [fst p; str_int (snd p)]) pairs)
      (mkQuantifier []) []
    = Parsed
        (q, filter (fun name => is_none (dict_get handlers name))
              (map fst pairs)) /\
    quantifier_ok q /\
    forall name,
      dict_get (registered_handlers q) name
      = if is_none (dict_get handlers name) then None
        else
          match map snd (filter (fun p => String.eqb (fst p) name) pairs)
          with
          | [] => None
          | l => Some l
          end.
Proof.
  destruct (register_pairs_spec pairs (mkQuantifier []) [])
    as [q [Hr [Hok Hget]]].
  { split; [constructor|intros name []]. }
  exists q. split; [exact Hr|]. split; [exact Hok|].
  intros name. rewrite Hget. reflexivity.
Qed.

End QuantifierWords.

Lemma limiter_tokens_witness :
  parse_limit "-5|#" = Parsed (mkRange (Some (-5)) None) /\
  parse_limit "1#" = Failed (PlainException "1#").
Proof.
  destruct limiter_tokens as [_ [_ [_ [Hp Hx]]]]. split.
  - exact (Hp (Some (-5)) None).
  - apply Hx; [discriminate|reflexivity|reflexivity].
Defined.

Lemma limiter_one_token_per_id_witness :
  parse_limiter 2 ["1"; "#"; "junk"]
  = Parsed [mkRange (Some 1) (Some 1); mkRange None None] /\
  parse_limiter 2 ["1"] = Failed (PyError IndexError).
Proof.
  split; [reflexivity|].
  apply (proj2 (proj2 (limiter_one_token_per_id 2 ["1"]))).
  - simpl. lia.
  - intros tok [<-|[]]. eexists. reflexivity.
Defined.

(** ** What adding and merging do to a file *)

Lemma remove_first_incl {A} (p : A -> bool) (l : list A) :
  forall x, In x (remove_first p l) -> In x l.
Proof.
  induction l as [|h t IH]; cbn [remove_first]; [auto|].
  destruct (p h); intros x Hx; [now right|].
  destruct Hx as [<-|Hx]; [now left|right; auto].
Qed.

Lemma grown_from_nothing (self : TranslationFile) : grown_from self self [].
Proof.
  split; [auto|]. split; [intros k H; split; [exact H|intros T []]|].
  intros k b x Hb Hx. left. eauto.
Qed.

Lemma grown_from_trans (a b c : TranslationFile)
    (l1 l2 : list (String.string * Translation)) :
  grown_from a b l1 -> grown_from b c l2 -> grown_from a c (l1 ++ l2).
Proof.
  intros [A1 [A2 A3]] [B1 [B2 B3]]. split; [auto|]. split.
  - intros k Hk. destruct (B2 k Hk) as [Hb Hn2].
    destruct (A2 k Hb) as [Ha Hn1]. split; [exact Ha|].
    intros T HT. apply in_app_or in HT as [HT|HT];
      [now apply (Hn1 T)|now apply (Hn2 T)].
  - intros k bk x Hk Hx. destruct (B3 k bk x Hk Hx) as [[b0 [Hb0 Hx0]]|HT].
    + destruct (A3 k b0 x Hb0 Hx0) as [G|G]; [now left|].
      right. apply in_or_app. now left.
    + right. apply in_or_app. now right.
Qed.

Lemma grown_from_same (a b : TranslationFile)
    (l l' : list (String.string * Translation)) :
  (forall p, In p l <-> In p l') -> grown_from a b l -> grown_from a b l'.
Proof.
  intros E [A1 [A2 A3]]. split; [exact A1|]. split.
  - intros k Hk. destruct (A2 k Hk) as [Ha Hn]. split; [exact Ha|].
    intros T HT. apply (Hn T). now apply E.
  - intros k bk x Hk Hx. destruct (A3 k bk x Hk Hx) as [G|G]; [now left|].
    right. now apply E.
Qed.

(** Putting a bucket made of the incoming translation and of old members
    under the id. *)
Lemma grown_from_set (self : TranslationFile) (trs v : list Translation)
    (tid : String.string) (T : Translation) :
  (forall x, In x trs -> In x (_translations self)) ->
  (forall x, In x v ->
     x = T \/
     exists b0, dict_get (_translations_hash self) tid = Some b0 /\
                In x b0) ->
  grown_from self (mkFile trs (dict_set (_translations_hash self) tid v))
    [(tid, T)].
Proof.
  intros Hl Hv. split; [exact Hl|]. cbn [_translations_hash]. split.
  - intros k. rewrite dict_get_set.
    destruct (String.eqb_spec k tid) as [->|N]; [discriminate|].
    intros H. split; [exact H|]. intros T' [[= E _]|[]]. congruence.
  - intros k b x. rewrite dict_get_set.
    destruct (String.eqb_spec k tid) as [->|N].
    + intros [= <-] Hx. destruct (Hv x Hx) as [->|G]; [right; now left|].
      now left.
    + intros Hb Hx. left. eauto.
Qed.

Lemma grown_from_keyed (self : TranslationFile) (tid : String.string)
    (T : Translation) :
  dict_get (_translations_hash self) tid <> None ->
  grown_from self self [(tid, T)].
Proof.
  intros Hk. split; [auto|]. split.
  - intros k H. split; [exact H|]. intros T' [[= E _]|[]]. congruence.
  - intros k b x Hb Hx. left. eauto.
Qed.

Lemma add_scan_grown (tid : String.string) (T : Translation) :
  forall (fuel : nat) (pending : list Translation) (self : TranslationFile)
         (warns : list warning),
    dict_get (_translations_hash self) tid <> None ->
    grown_from self (fst (add_scan fuel tid T pending self warns))
      [(tid, T)].
Proof.
  induction fuel as [|fuel IH]; intros pending self warns Hk;
    [now apply grown_from_keyed|].
  cbn [add_scan]. destruct pending as [|old rest];
    [now apply grown_from_keyed|].
  destruct (translation_eqb T old); [now apply grown_from_keyed|].
  destruct (ids_eqb (ids T) (ids old)).
  - cbn [fst]. apply grown_from_set.
    + apply remove_first_incl.
    + intros x [<-|[]]. now left.
  - apply (grown_from_same self _ ([(tid, T)] ++ [(tid, T)])).
    { intros p. cbn [app In]. tauto. }
    eapply grown_from_trans; [|apply IH].
    + apply grown_from_set; [auto|].
      intros x Hx. apply in_app_or in Hx as [Hx|[<-|[]]]; [|now left].
      right. destruct (dict_get (_translations_hash self) tid) as [b0|];
        [eauto|destruct Hx].
    + cbn [_translations_hash]. rewrite dict_get_set, String.eqb_refl.
      discriminate.
Qed.

Lemma add_grown (self : TranslationFile) (tid : String.string)
    (T : Translation) :
  grown_from self (fst (_add_translation_hashed self tid T)) [(tid, T)].
Proof.
  unfold _add_translation_hashed.
  destruct (dict_get (_translations_hash self) tid) as [bucket|] eqn:E.
  - apply add_scan_grown. congruence.
  - cbn [fst]. apply grown_from_set; [auto|].
    intros x [<-|[]]. now left.
Qed.

Lemma add_scan_frame (tid other : String.string) (T : Translation) :
  other <> tid ->
  forall (fuel : nat) (pending : list Translation) (self : TranslationFile)
         (warns : list warning),
    dict_get
      (_translations_hash (fst (add_scan fuel tid T pending self warns)))
      other
    = dict_get (_translations_hash self) other.
Proof.
  intros Hne. induction fuel as [|fuel IH]; intros pending self warns;
    [reflexivity|].
  cbn [add_scan]. destruct pending as [|old rest]; [reflexivity|].
  destruct (translation_eqb T old); [reflexivity|].
  destruct (ids_eqb (ids T) (ids old)).
  - cbn [fst _translations_hash]. rewrite dict_get_set.
    now destruct (String.eqb_spec other tid).
  - rewrite IH. cbn [_translations_hash]. rewrite dict_get_set.
    now destruct (String.eqb_spec other tid).
Qed.

Lemma add_scan_present (tid : String.string) (T : Translation) :
  forall (fuel : nat) (pending : list Translation) (self : TranslationFile)
         (warns : list warning),
    (exists b x, dict_get (_translations_hash self) tid = Some b /\
                 In x b /\ translation_eqb T x = true) ->
    exists b x,
      dict_get
        (_translations_hash (fst (add_scan fuel tid T pending self warns)))
        tid
      = Some b /\
      In x b /\ translation_eqb T x = true.
Proof.
  induction fuel as [|fuel IH]; intros pending self warns H; [exact H|].
  cbn [add_scan]. destruct pending as [|old rest]; [exact H|].
  destruct (translation_eqb T old); [exact H|].
  destruct (ids_eqb (ids T) (ids old)).
  - cbn [fst _translations_hash]. exists [T], T.
    rewrite dict_get_set, String.eqb_refl.
    split; [reflexivity|]. split; [now left|apply translation_eqb_refl].
  - apply IH. cbn [_translations_hash].
    rewrite dict_get_set, String.eqb_refl. eexists. exists T.
    split; [reflexivity|]. split; [|apply translation_eqb_refl].
    apply in_or_app. right. now left.
Qed.

Lemma add_scan_present_first (tid : String.string) (T : Translation)
    (fuel : nat) (pending b : list Translation) (self : TranslationFile)
    (warns : list warning) :
  dict_get (_translations_hash self) tid = Some b ->
  pending <> [] -> (forall y, In y pending -> In y b) ->
  exists b' x,
    dict_get
      (_translations_hash (fst (add_scan (S fuel) tid T pending self warns)))
      tid
    = Some b' /\
    In x b' /\ translation_eqb T x = true.
Proof.
  intros Hb Hne Hin. destruct pending as [|old rest]; [congruence|].
  cbn [add_scan]. destruct (translation_eqb T old) eqn:Ee.
  - cbn [fst]. exists b, old. split; [exact Hb|].
    split; [apply Hin; now left|exact Ee].
  - destruct (ids_eqb (ids T) (ids old)).
    + cbn [fst _translations_hash]. exists [T], T.
      rewrite dict_get_set, String.eqb_refl.
      split; [reflexivity|]. split; [now left|apply translation_eqb_refl].
    + apply add_scan_present. cbn [_translations_hash].
      rewrite dict_get_set, String.eqb_refl. eexists. exists T.
      split; [reflexivity|]. split; [|apply translation_eqb_refl].
      apply in_or_app. right. now left.
Qed.

(** X20.  After [_add_translation_hashed] has added a translation under an
    id whose bucket, if there was one, was not empty, looking the id up
    gives a bucket that holds a translation equal to it.  Whatever that
    bucket holds is the incoming translation or was in the bucket before;
    the buckets of the other ids are as they were; and the ordered list
    has gained nothing. *)
Theorem add_then_lookup (self : TranslationFile) (tid : String.string)
    (T : Translation) :
  dict_get (_translations_hash self) tid <> Some [] ->
  (exists b x,
     dict_get (_translations_hash (fst (_add_translation_hashed self tid T)))
       tid
     = Some b /\
     In x b /\ translation_eqb T x = true) /\
  (forall b x,
     dict_get (_translations_hash (fst (_add_translation_hashed self tid T)))
       tid
     = Some b ->
     In x b ->
     x = T \/
     exists b0, dict_get (_translations_hash self) tid = Some b0 /\
                In x b0) /\
  (forall other, other <> tid ->
     dict_get (_translations_hash (fst (_add_translation_hashed self tid T)))
       other
     = dict_get (_translations_hash self) other) /\
  (forall x, In x (_translations (fst (_add_translation_hashed self tid T)))
     -> In x (_translations self)).
Proof.
  intros Hne. destruct (add_grown self tid T) as [G1 [_ G3]].
  split; [|split; [|split]].
  - unfold _add_translation_hashed.
    destruct (dict_get (_translations_hash self) tid) as [bucket|] eqn:E.
    + destruct bucket as [|old rest]; [congruence|].
      apply add_scan_present_first with (old :: rest);
        [assumption|discriminate|auto].
    + cbn [fst _translations_hash]. exists [T], T.
      rewrite dict_get_set, String.eqb_refl.
      split; [reflexivity|]. split; [now left|apply translation_eqb_refl].
  - intros b x Hb Hx. destruct (G3 tid b x Hb Hx) as [G|[[= ->]|[]]];
      [now right|now left].
  - intros other Ho. unfold _add_translation_hashed.
    destruct (dict_get (_translations_hash self) tid) as [bucket|].
    + now apply add_scan_frame.
    + cbn [fst _translations_hash]. rewrite dict_get_set.
      now destruct (String.eqb_spec other tid).
  - exact G1.
Qed.

Lemma merge_bucket_grown (tid : String.string) (bucket : list Translation) :
  forall (self : TranslationFile) (warns : list warning),
    grown_from self (fst (merge_bucket self tid bucket warns))
      (map (pair tid) bucket).
Proof.
  induction bucket as [|T b IH]; intros self warns; cbn [merge_bucket map].
  - apply grown_from_nothing.
  - pose proof (add_grown self tid T) as H.
    destruct (_add_translation_hashed self tid T) as [self' w].
    cbn [fst] in H.
    change (pair tid T :: map (pair tid) b)
      with ([(tid, T)] ++ map (pair tid) b).
    eapply grown_from_trans; [exact H|apply IH].
Qed.

Lemma merge_hash_grown (other_hash : dict (list Translation)) :
  forall (self : TranslationFile) (warns : list warning),
    grown_from self (fst (merge_hash self other_hash warns))
      (flat_map (fun e => map (pair (fst e)) (snd e)) other_hash).
Proof.
  induction other_hash as [|[tid bucket] d IH]; intros self warns;
    cbn [merge_hash flat_map fst snd].
  - apply grown_from_nothing.
  - pose proof (merge_bucket_grown tid bucket self warns) as H.
    destruct (merge_bucket self tid bucket warns) as [self' warns'].
    cbn [fst] in H. eapply grown_from_trans; [exact H|apply IH].
Qed.

(** X21.  [merge] brings nothing in from nowhere and loses no key.  Every
    translation of the ordered list of the merged file comes from one of
    the two lists; a key the merged index lacks was in neither index,
    unless with an empty bucket in the other one; whatever a bucket of the
    merged index holds was in the bucket of that id in one of the two
    indexes; and the merged index is in order when both were. *)
Theorem merge_brings_nothing_new (self other : TranslationFile) :
  (forall x, In x (_translations (fst (merge self other))) ->
     In x (_translations self) \/ In x (_translations other)) /\
  (forall k,
     dict_get (_translations_hash (fst (merge self other))) k = None ->
     dict_get (_translations_hash self) k = None /\
     forall b, In (k, b) (_translations_hash other) -> b = []) /\
  (forall k b x,
     dict_get (_translations_hash (fst (merge self other))) k = Some b ->
     In x b ->
     (exists b0, dict_get (_translations_hash self) k = Some b0 /\
                 In x b0) \/
     (exists b0, In (k, b0) (_translations_hash other) /\ In x b0)) /\
  (index_ok self ->
   (forall tid bucket T,
      In (tid, bucket) (_translations_hash other) -> In T bucket ->
      In tid (ids T)) ->
   index_ok (fst (merge self other))).
Proof.
  assert (Hadd : forall k x,
             In (k, x)
               (flat_map (fun e => map (pair (fst e)) (snd e))
                  (_translations_hash other)) <->
             exists b0, In (k, b0) (_translations_hash other) /\ In x b0).
  { intros k x. rewrite in_flat_map. split.
    - intros [[k' b0] [Hin Hx]]. cbn [fst snd] in Hx.
      apply in_map_iff in Hx as [y [[= <- <-] Hy]]. eauto.
    - intros [b0 [Hin Hx]]. exists (k, b0). split; [exact Hin|].
      cbn [fst snd]. now apply in_map. }
  unfold merge.
  destruct (merge_hash_grown (_translations_hash other)
              (mkFile (_translations self ++ _translations other)
                 (_translations_hash self)) []) as [G1 [G2 G3]].
  cbn [_translations _translations_hash] in G1, G2, G3.
  split; [|split; [|split]].
  - intros x Hx. apply in_app_or. now apply G1.
  - intros k Hk. destruct (G2 k Hk) as [Hs Hn]. split; [exact Hs|].
    intros [|x b] Hb; [reflexivity|]. exfalso.
    apply (Hn x). apply Hadd. exists (x :: b). split; [exact Hb|now left].
  - intros k b x Hk Hx. destruct (G3 k b x Hk Hx) as [G|G]; [now left|].
    right. now apply Hadd.
  - intros Hok Hd. now apply merge_index_ok.
Qed.

Lemma add_then_lookup_witness :
  exists b x,
    dict_get
      (_translations_hash (fst (_add_translation_hashed pair_file "a" only_a)))
      "a"
    = Some b /\
    In x b /\ translation_eqb only_a x = true.
Proof.
  apply (add_then_lookup pair_file "a" only_a). discriminate.
Defined.

Lemma merge_brings_nothing_new_witness :
  index_ok (fst (merge life_file pair_file)).
Proof.
  apply (proj2 (proj2 (proj2 (merge_brings_nothing_new life_file pair_file)))).
  - intros tag bucket. cbn [life_file _translations_hash dict_get].
    destruct (String.eqb tag "life_regen") eqn:E; [|discriminate].
    apply String.eqb_eq in E. subst tag. intros [= <-].
    split; [discriminate|]. intros tr [<-|[]]. now left.
  - intros tid bucket T [[= <- <-]|[[= <- <-]|[]]] [<-|[]]; simpl; auto.
Defined.

(** ** Queries that return *)

Lemma delitem_ok {A} (l : list A) (i : nat) :
  (i < List.length l)%nat -> exists l', delitem l i = Ok l'.
Proof.
  revert i. induction l as [|h t IH]; intros [|i] H; simpl in *; try lia.
  - eauto.
  - destruct (IH i) as [t' ->]; [lia|]. eauto.
Qed.

Lemma pairwise_ne_nth (l : list Translation) :
  pairwise_ne l ->
  forall i j x y, (i < j)%nat ->
    nth_error l i = Some x -> nth_error l j = Some y ->
    translation_eqb x y = false.
Proof.
  induction l as [|h t IH]; intros Hp i j x y Hij Hx Hy.
  - destruct i; discriminate.
  - destruct Hp as [Hh Ht]. destruct j as [|j]; [lia|].
    cbn [nth_error] in Hy. destruct i as [|i].
    + cbn [nth_error] in Hx. injection Hx as <-.
      apply Hh. now apply nth_error_In in Hy.
    + cbn [nth_error] in Hx. apply (IH Ht i j); [lia|assumption..].
Qed.

Section Returns.
Context {PF : PyFloat}.

Lemma touch_rows (vals : list value) (i : nat) (tag : String.string)
    (st st' : scan) (tr : Translation) :
  scan_wf st -> touch vals i tag st tr = Ok st' ->
  (forall x, In x (trans_found st') -> In x (trans_found st) \/ x = tr) /\
  (indexes_ok st -> indexes_ok st').
Proof.
  intros [Hli [Hlv _]]. unfold touch.
  destruct (find_index (String.eqb tag) (ids tr)) as [index|] eqn:Ei;
    [|discriminate].
  assert (Hindex : (index < List.length (ids tr))%nat).
  { apply index_of_tag in Ei. apply nth_error_Some. congruence. }
  destruct (find_index (fun x => translation_eqb x tr) (trans_found st))
    as [tf|] eqn:Ef.
  - intros H. apply bind_ok in H as [idx [H1 H]].
    apply bind_ok in H as [fi [H2 H]]. apply bind_ok in H as [vi [_ H]].
    apply bind_ok in H as [v [_ H]]. apply bind_ok in H as [v' [_ H]].
    apply bind_ok in H as [fv [_ H]]. injection H as <-.
    cbn [trans_found]. split; [auto|].
    intros Hok k x ixs Hx Hixs. cbn [trans_found trans_found_indexes] in *.
    apply getitem_ok in H1.
    destruct (setitem_spec _ _ _ _ H2) as [_ [Hfi Hfj]].
    apply find_index_some in Ef as [x0 [Hx0 Heq]].
    destruct (Nat.eq_dec k tf) as [->|Hk].
    + assert (x = x0) by congruence. subst x.
      assert (ixs = idx ++ [index]) by congruence. subst ixs.
      intros j Hj. apply in_app_or in Hj as [Hj|[<-|[]]].
      * now apply (Hok tf x0 idx).
      * now rewrite (translation_eqb_ids _ _ Heq).
    + rewrite Hfj in Hixs by assumption. now apply (Hok k x ixs).
  - intros H. apply bind_ok in H as [vi [_ H]].
    apply bind_ok in H as [v' [_ H]]. injection H as <-.
    cbn [trans_found]. split.
    + intros x Hx. apply in_app_or in Hx as [Hx|[<-|[]]]; auto.
    + intros Hok k x ixs Hx Hixs.
      cbn [trans_found trans_found_indexes] in *.
      apply nth_error_snoc in Hx as [[Hk Hx]|[Hk ->]];
        apply nth_error_snoc in Hixs as [[Hk' Hixs]|[Hk' ->]]; try lia.
      * now apply (Hok k x ixs).
      * intros j [<-|[]]. exact Hindex.
Qed.

Section Renderable.
Variable Q : Translation -> Prop.

Lemma touch_bucket_renderable (vals : list value) (i : nat)
    (tag : String.string) (bucket : list Translation) :
  (forall tr, In tr bucket -> In tag (ids tr) /\ Q tr) ->
  (i < List.length vals)%nat ->
  forall st,
    scan_wf st -> indexes_ok st ->
    (forall x, In x (trans_found st) -> Q x) ->
    exists st',
      touch_bucket vals i tag st bucket = Ok st' /\
      scan_wf st' /\ indexes_ok st' /\
      forall x, In x (trans_found st') -> Q x.
Proof.
  intros Hb Hi. induction bucket as [|tr b IH]; intros st W I HQ;
    cbn [touch_bucket]; [eauto|].
  destruct (Hb tr (or_introl eq_refl)) as [Htag Htr].
  destruct (touch_progress vals i tag st tr W Htag Hi) as [st1 H1].
  rewrite H1. cbn [bind].
  destruct (touch_effect _ _ _ _ _ _ W H1) as [? [? [_ [_ [W1 _]]]]].
  destruct (touch_rows _ _ _ _ _ _ W H1) as [Hf Hix].
  apply IH; [intros; apply Hb; now right|exact W1|auto|].
  intros y Hy. destruct (Hf y Hy) as [G| ->]; auto.
Qed.

Lemma scan_tags_renderable (self : TranslationFile) (vals : list value) :
  index_ok self ->
  forall (tags : list String.string) (n : nat) (st : scan),
    (forall tag b tr, In tag tags ->
       dict_get (_translations_hash self) tag = Some b -> In tr b -> Q tr) ->
    scan_wf st -> indexes_ok st ->
    (forall x, In x (trans_found st) -> Q x) ->
    (n + List.length tags <= List.length vals)%nat ->
    exists st',
      scan_tags self vals (enumerate_from n tags) st = Ok st' /\
      scan_wf st' /\ indexes_ok st' /\
      forall x, In x (trans_found st') -> Q x.
Proof.
  intros Hok tags. induction tags as [|tag tags IH];
    intros n st HQb W I HQ Hn; cbn [enumerate_from scan_tags]; [eauto|].
  cbn [List.length] in Hn.
  assert (HQb' : forall t b tr, In t tags ->
            dict_get (_translations_hash self) t = Some b -> In tr b ->
            Q tr).
  { intros t b tr Ht. apply HQb. now right. }
  destruct (dict_get (_translations_hash self) tag) as [bucket|] eqn:Eb.
  - destruct (Hok _ _ Eb) as [_ Hin].
    destruct (touch_bucket_renderable vals n tag bucket) with (st := st)
      as [st1 [H1 [W1 [I1 HQ1]]]]; try assumption.
    + intros tr Htr. split; [now apply Hin|].
      apply (HQb tag bucket tr); [now left|assumption..].
    + lia.
    + rewrite H1. cbn [bind]. apply IH; try assumption. lia.
  - destruct (getitem_in_range vals n) as [vi ->]; [lia|]. cbn [bind].
    apply IH; try assumption. lia.
Qed.

End Renderable.

Lemma collect_invalid_progress (found_ : list Translation)
    (l : list (list value)) :
  pairwise_ne found_ ->
  forall n, (n + List.length l <= List.length found_)%nat ->
    exists inv,
      collect_invalid found_ (enumerate_from n l) = Ok inv /\
      pairwise_ne inv /\
      forall x, In x inv ->
        exists j, (n <= j)%nat /\ nth_error found_ j = Some x.
Proof.
  intros Hp. induction l as [|vs l IH]; intros n Hn;
    cbn [enumerate_from collect_invalid].
  - exists []. split; [reflexivity|]. split; [exact I|intros x []].
  - cbn [List.length] in Hn.
    destruct (IH (S n)) as [inv [Hc [Hne Hpos]]]; [lia|].
    destruct (existsb is_sentinel vs).
    + destruct (getitem_in_range found_ n) as [tr Htr]; [lia|].
      rewrite Htr, Hc. cbn [bind]. apply getitem_ok in Htr.
      exists (tr :: inv). split; [reflexivity|]. split.
      * split; [|exact Hne]. intros y Hy.
        destruct (Hpos y Hy) as [j [Hj Hyj]].
        apply (pairwise_ne_nth found_ Hp n j); [lia|assumption..].
      * intros x [<-|Hx]; [exists n; auto|].
        destruct (Hpos x Hx) as [j [Hj Hxj]]. exists j. split; [lia|].
        assumption.
    + exists inv. split; [exact Hc|]. split; [exact Hne|].
      intros x Hx. destruct (Hpos x Hx) as [j [Hj Hxj]].
      exists j. split; [lia|assumption].
Qed.

Lemma remove_invalid_progress (inv : list Translation) :
  forall st,
    List.length (trans_found_indexes st) = List.length (trans_found st) ->
    List.length (trans_found_values st) = List.length (trans_found st) ->
    pairwise_ne (trans_found st) -> pairwise_ne inv ->
    (forall x, In x inv -> In x (trans_found st)) ->
    exists st', remove_invalid inv st = Ok st'.
Proof.
  induction inv as [|tr inv IH]; intros st Hi Hv Hp Hinv Hin;
    cbn [remove_invalid]; [eauto|].
  destruct Hinv as [Htr Hinv'].
  destruct (find_index_in (fun x => translation_eqb x tr) (trans_found st)
              tr) as [index Ef];
    [apply Hin; now left|apply translation_eqb_refl|].
  rewrite Ef.
  assert (Hlt : (index < List.length (trans_found st))%nat).
  { apply find_index_some in Ef as [x0 [Hx0 _]].
    apply nth_error_Some. congruence. }
  destruct (delitem_ok (trans_found st) index Hlt) as [f H1].
  destruct (delitem_ok (trans_found_indexes st) index) as [fi H2]; [lia|].
  destruct (delitem_ok (trans_found_values st) index) as [fv H3]; [lia|].
  rewrite H1, H2, H3. cbn [bind].
  destruct (delitem_nth _ _ _ H1) as [L1 _].
  destruct (delitem_nth _ _ _ H2) as [L2 _].
  destruct (delitem_nth _ _ _ H3) as [L3 _].
  destruct (find_index_split _ _ _ _ Ef H1) as [a [x [b [Ea [Hx ->]]]]].
  rewrite Ea in Hp. destruct (pairwise_ne_remove _ _ _ Hp) as [Hp' _].
  apply IH; cbn [trans_found trans_found_indexes trans_found_values];
    try lia; try assumption.
  intros y Hy. pose proof (Hin y (or_intror Hy)) as Hyf.
  rewrite Ea in Hyf. apply in_app_or in Hyf as [G|[<-|G]].
  - apply in_or_app. now left.
  - exfalso. pose proof (Htr x Hy) as Hne.
    apply translation_eqb_sym in Hx. congruence.
  - apply in_or_app. now right.
Qed.

Lemma remove_invalid_rows (inv : list Translation) :
  forall st st',
    remove_invalid inv st = Ok st' ->
    forall k, exists k',
      nth_error (trans_found st') k = nth_error (trans_found st) k' /\
      nth_error (trans_found_indexes st') k
      = nth_error (trans_found_indexes st) k' /\
      nth_error (trans_found_values st') k
      = nth_error (trans_found_values st) k'.
Proof.
  induction inv as [|tr inv IH]; intros st st'; cbn [remove_invalid].
  - intros [= <-] k. exists k. auto.
  - destruct (find_index (fun x => translation_eqb x tr) (trans_found st))
      as [index|]; [|discriminate].
    intros H. apply bind_ok in H as [f [H1 H]].
    apply bind_ok in H as [fi [H2 H]].
    apply bind_ok in H as [fv [H3 H]].
    destruct (delitem_nth _ _ _ H1) as [_ N1].
    destruct (delitem_nth _ _ _ H2) as [_ N2].
    destruct (delitem_nth _ _ _ H3) as [_ N3].
    intros k. destruct (IH _ _ H k) as [k1 [G1 [G2 G3]]].
    cbn [trans_found trans_found_indexes trans_found_values] in G1, G2, G3.
    exists (if (k1 <? index)%nat then k1 else S k1).
    rewrite G1, G2, G3, N1, N2, N3. auto.
Qed.

Lemma render_progress (st : scan) (lang : String.string)
    (full ph ov : bool) (l : list Translation) :
  forall (n : nat) (ls : list line) (un : list (list hval)),
    (forall k tr, nth_error l k = Some tr ->
       exists tl vs ixs r,
         get_language tr lang = Some tl /\
         nth_error (trans_found_values st) (n + k) = Some vs /\
         nth_error (trans_found_indexes st) (n + k) = Some ixs /\
         get_string tl vs ixs ph ov = Ok r) ->
    exists r, render st lang full ph ov (enumerate_from n l) ls un = Ok r.
Proof.
  induction l as [|tr l IH]; intros n ls un H;
    cbn [enumerate_from render]; [eauto|].
  destruct (H 0%nat tr eq_refl) as [tl [vs [ixs [r [Hl [Hvs [Hixs Hr]]]]]]].
  rewrite Nat.add_0_r in Hvs, Hixs.
  rewrite Hl, (proj2 (getitem_ok _ _ _) Hvs),
    (proj2 (getitem_ok _ _ _) Hixs). cbn [bind]. rewrite Hr. cbn [bind].
  apply IH. intros k x Hx. destruct (H (S k) x Hx) as [tl' G].
  exists tl'. now rewrite Nat.add_succ_comm.
Qed.

(** X22.  A query returns, with or without the result object, when the
    index of the file is in order, there is a value for every tag, and
    every translation listed under one of the tags can be rendered: it has
    a bundle for the language or for English, and [get_string] returns on
    that bundle for every vector of one value per id and every list of
    positions of its ids. *)
Theorem query_returns (self : TranslationFile)
    (tags : list String.string) (vals : list value) (lang : String.string)
    (full ph ov : bool) :
  index_ok self ->
  (List.length tags <= List.length vals)%nat ->
  (forall tag b tr,
     In tag tags -> dict_get (_translations_hash self) tag = Some b ->
     In tr b ->
     exists tl,
       get_language tr lang = Some tl /\
       forall vs ixs,
         List.length vs = List.length (ids tr) ->
         (forall i, In i ixs -> (i < List.length (ids tr))%nat) ->
         exists r, get_string tl vs ixs ph ov = Ok r) ->
  exists out, get_translation self tags vals lang full ph ov = Ok out.
Proof.
  intros Hok Hlen Hrender. unfold get_translation, enumerate.
  destruct (scan_tags_renderable
              (fun tr =>
                 exists tl,
                   get_language tr lang = Some tl /\
                   forall vs ixs,
                     List.length vs = List.length (ids tr) ->
                     (forall i, In i ixs ->
                        (i < List.length (ids tr))%nat) ->
                     exists r, get_string tl vs ixs ph ov = Ok r)
              self vals Hok tags 0 (mkScan [] [] [] [] []))
    as [st [H1 [W [I HQ]]]].
  - exact Hrender.
  - apply scan_wf_empty.
  - intros [|k] x ixs Hx; discriminate.
  - intros x [].
  - simpl. lia.
  - rewrite H1. cbn [bind]. destruct W as [Wi [Wv [Wne Wlen]]].
    destruct (collect_invalid_progress (trans_found st)
                (trans_found_values st) Wne 0) as [inv [H2 [Hne Hpos]]];
      [simpl; lia|].
    rewrite H2. cbn [bind].
    destruct (remove_invalid_progress inv st Wi Wv Wne Hne) as [st' H3].
    { intros x Hx. destruct (Hpos x Hx) as [j [_ Hj]].
      now apply nth_error_In in Hj. }
    rewrite H3. cbn [bind].
    destruct (remove_invalid_entries _ _ _ Wi Wv H3) as [Li [Lv _]].
    pose proof (remove_invalid_rows _ _ _ H3) as Rows.
    destruct (render_progress st' lang full ph ov (trans_found st') 0
                [] []) as [r H4].
    { intros k tr Hk. cbn [Nat.add].
      assert (Hlt : (k < List.length (trans_found st'))%nat)
        by (apply nth_error_Some; congruence).
      destruct (nth_error (trans_found_values st') k) as [vs|] eqn:Evs;
        [|apply nth_error_None in Evs; lia].
      destruct (nth_error (trans_found_indexes st') k) as [ixs|] eqn:Eixs;
        [|apply nth_error_None in Eixs; lia].
      destruct (Rows k) as [k' [R1 [R2 R3]]].
      rewrite Hk in R1. rewrite Eixs in R2. rewrite Evs in R3.
      symmetry in R1, R2, R3.
      destruct (HQ tr (nth_error_In _ _ R1)) as [tl [Hl Hs]].
      destruct (Hs vs ixs) as [res Hres].
      - apply (Wlen k'). now split.
      - now apply (I k' tr ixs).
      - exists tl, vs, ixs, res. auto. }
    rewrite H4. cbn [bind]. destruct full; eauto.
Qed.

End Returns.

Lemma query_returns_witness :
  exists out,
    get_translation (PF := rational_float) life_file ["life_regen"; "mana"]
      [VInt 3; VInt 4] "German" true false true
    = Ok out.
Proof.
  apply (query_returns (PF := rational_float)).
  - intros tag bucket. cbn [life_file _translations_hash dict_get].
    destruct (String.eqb tag "life_regen") eqn:E; [|discriminate].
    apply String.eqb_eq in E. subst tag. intros [= <-].
    split; [discriminate|]. intros tr [<-|[]]. now left.
  - simpl. lia.
  - intros tag b tr _. cbn [life_file _translations_hash dict_get].
    destruct (String.eqb tag "life_regen"); [|discriminate].
    intros [= <-] [<-|[]]. eexists. split; [reflexivity|].
    intros vs ixs Hvs Hixs.
    destruct (get_string_picks (PF := rational_float)
                (mkLanguage "English"
                   [mkString no_quantifier [wildcard] "%1% life regen"])
                vs ixs false true) as [ts [[<-|[]] ->]].
    + discriminate.
    + intros ts [<-|[]]. unfold match_range.
      rewrite match_range_from_sum; [eauto|].
      intros i Hi. rewrite length_map, Hvs. split; now apply Hixs.
    + unfold format_string, handle.
      cbn [quantifier no_quantifier registered_handlers handle_names bind].
      destruct (only_values_loop _ _ _ _). eauto.
Defined.

(** ** A translation read from a file and queried by its ids *)

Lemma find_index_fresh (tag : String.string)
    (done todo : list String.string) :
  ~ In tag done ->
  find_index (String.eqb tag) (done ++ tag :: todo)
  = Some (List.length done).
Proof.
  induction done as [|h t IH]; intros H; cbn [app find_index List.length].
  - now rewrite String.eqb_refl.
  - destruct (String.eqb_spec tag h) as [->|N];
      [exfalso; apply H; now left|].
    rewrite IH; [reflexivity|]. intros G. apply H. now right.
Qed.

Lemma setitem_middle {A} (a b : list A) (x v : A) :
  setitem (a ++ x :: b) (List.length a) v = Ok (a ++ v :: b).
Proof.
  induction a as [|h t IH]; cbn [app List.length setitem]; [reflexivity|].
  now rewrite IH.
Qed.

Lemma firstn_snoc_nth {A} (l : list A) :
  forall k a, nth_error l k = Some a -> firstn (S k) l = firstn k l ++ [a].
Proof.
  induction l as [|h t IH]; intros [|k] a H; try discriminate.
  - cbn in H. injection H as <-. reflexivity.
  - cbn [nth_error] in H. cbn [firstn app]. f_equal.
    change (firstn (S k) t = firstn k t ++ [a]). now apply IH.
Qed.

Lemma setitem_fill (vals : list value) (n k : nat) (vk : value) :
  (k < n)%nat -> nth_error vals k = Some vk ->
  setitem (firstn k vals ++ repeat (VInt sentinel) (n - k)) k vk
  = Ok (firstn (S k) vals ++ repeat (VInt sentinel) (n - S k)).
Proof.
  intros Hk Hv.
  assert (Hl : List.length (firstn k vals) = k).
  { rewrite length_firstn. apply Nat.min_l.
    apply Nat.lt_le_incl, nth_error_Some. congruence. }
  replace (n - k)%nat with (S (n - S k)) by lia. cbn [repeat].
  pose proof (setitem_middle (firstn k vals)
                (repeat (VInt sentinel) (n - S k)) (VInt sentinel) vk) as E.
  rewrite Hl in E. rewrite E.
  rewrite (firstn_snoc_nth vals k vk Hv), <- app_assoc. reflexivity.
Qed.

Lemma add_under_ids_fresh (T : Translation) (l : list String.string) :
  forall (self : TranslationFile) (warns : list warning),
    (forall id, In id l ->
       dict_get (_translations_hash self) id = None \/
       dict_get (_translations_hash self) id = Some [T]) ->
    snd (add_under_ids self T l warns) = warns /\
    _translations (fst (add_under_ids self T l warns)) = _translations self /\
    (forall id, In id l ->
       dict_get (_translations_hash (fst (add_under_ids self T l warns))) id
       = Some [T]) /\
    (forall id, ~ In id l ->
       dict_get (_translations_hash (fst (add_under_ids self T l warns))) id
       = dict_get (_translations_hash self) id).
Proof.
  induction l as [|tid l IH]; intros self warns H; cbn [add_under_ids].
  - repeat split; auto. intros id [].
  - assert (E : exists self',
               _add_translation_hashed self tid T = (self', []) /\
               _translations self' = _translations self /\
               forall id,
                 dict_get (_translations_hash self') id
                 = if String.eqb id tid then Some [T]
                   else dict_get (_translations_hash self) id).
    { unfold _add_translation_hashed.
      destruct (H tid (or_introl eq_refl)) as [G|G]; rewrite G.
      - eexists. split; [reflexivity|]. split; [reflexivity|].
        intros id. cbn [_translations_hash]. apply dict_get_set.
      - cbn [List.length add_scan]. rewrite translation_eqb_refl.
        exists self. split; [reflexivity|]. split; [reflexivity|].
        intros id. destruct (String.eqb_spec id tid) as [->|_];
          [exact G|reflexivity]. }
    destruct E as [self' [-> [El Eg]]]. rewrite app_nil_r.
    destruct (IH self' warns) as [I1 [I2 [I3 I4]]].
    { intros id Hid. rewrite Eg.
      destruct (String.eqb id tid); [now right|]. apply H. now right. }
    split; [exact I1|]. split; [congruence|]. split.
    + intros id [<-|Hid]; [|now apply I3].
      destruct (in_dec String.string_dec tid l) as [G|G]; [now apply I3|].
      rewrite (I4 tid G), Eg. now rewrite String.eqb_refl.
    + intros id Hid. rewrite I4 by (intros G; apply Hid; now right).
      rewrite Eg. destruct (String.eqb_spec id tid) as [->|_];
        [|reflexivity].
      exfalso. apply Hid. now left.
Qed.

Lemma add_under_ids_index_ok (T : Translation) (l : list String.string) :
  (forall id, In id l -> In id (ids T)) ->
  forall (self : TranslationFile) (warns : list warning),
    index_ok self -> index_ok (fst (add_under_ids self T l warns)).
Proof.
  induction l as [|tid l IH]; intros Hl self warns Hok; [exact Hok|].
  cbn [add_under_ids].
  pose proof (add_index_ok self tid T Hok (Hl tid (or_introl eq_refl))) as H.
  destruct (_add_translation_hashed self tid T) as [self' w].
  apply IH; [|exact H]. intros id Hid. apply Hl. now right.
Qed.

(** X23.  The end of the [description] branch of [_read] puts the
    translation at the end of the ordered list and keeps the index in
    order.  When none of its ids is a key of the index yet, no warning is
    issued, each of its ids leads to the translation alone, and the other
    keys are as they were. *)
Theorem appended_translation_indexed (self : TranslationFile)
    (T : Translation) :
  (index_ok self -> index_ok (fst (append_translation self T))) /\
  ((forall id, In id (ids T) ->
      dict_get (_translations_hash self) id = None) ->
   snd (append_translation self T) = [] /\
   _translations (fst (append_translation self T))
   = _translations self ++ [T] /\
   (forall id, In id (ids T) ->
      dict_get (_translations_hash (fst (append_translation self T))) id
      = Some [T]) /\
   (forall id, ~ In id (ids T) ->
      dict_get (_translations_hash (fst (append_translation self T))) id
      = dict_get (_translations_hash self) id)).
Proof.
  unfold append_translation. split.
  - intros Hok. apply add_under_ids_index_ok; [auto|]. exact Hok.
  - intros Hfresh.
    apply (add_under_ids_fresh T (ids T)
             (mkFile (_translations self ++ [T]) (_translations_hash self))
             []).
    intros id Hid. left. now apply Hfresh.
Qed.

Section RoundTrip.
Context {PF : PyFloat}.

Lemma scan_own_ids (F : TranslationFile) (T : Translation)
    (vals : list value) :
  (forall id, In id (ids T) ->
     dict_get (_translations_hash F) id = Some [T]) ->
  NoDup (ids T) ->
  (List.length (ids T) <= List.length vals)%nat ->
  forall (todo done : list String.string),
    ids T = done ++ todo ->
    scan_tags F vals (enumerate_from (List.length done) todo)
      (mkScan [T] [] [] [seq 0 (List.length done)]
         [firstn (List.length done) vals
          ++ repeat (VInt sentinel)
               (List.length (ids T) - List.length done)])
    = Ok (mkScan [T] [] [] [seq 0 (List.length (ids T))]
            [firstn (List.length (ids T)) vals]).
Proof.
  intros Hb Hnd Hlen. induction todo as [|tag todo IH]; intros done Hs.
  - rewrite app_nil_r in Hs. rewrite Hs, Nat.sub_diag. cbn [repeat].
    now rewrite app_nil_r.
  - cbn [enumerate_from scan_tags].
    assert (Hin : In tag (ids T)).
    { rewrite Hs. apply in_or_app. right. now left. }
    rewrite (Hb tag Hin). cbn [touch_bucket]. unfold touch.
    assert (Hfresh : ~ In tag done).
    { rewrite Hs in Hnd. apply NoDup_remove_2 in Hnd.
      intros G. apply Hnd. apply in_or_app. now left. }
    assert (Hk : (List.length done < List.length (ids T))%nat).
    { rewrite Hs, length_app. simpl. lia. }
    rewrite Hs at 1. rewrite (find_index_fresh tag done todo Hfresh).
    cbn [trans_found find_index]. rewrite translation_eqb_refl.
    cbn [trans_found_indexes trans_found_values trans_missing
         trans_missing_values getitem nth_error bind setitem].
    destruct (nth_error vals (List.length done)) as [vk|] eqn:Ev;
      [|apply nth_error_None in Ev; lia].
    rewrite (proj2 (getitem_ok _ _ _) Ev). cbn [bind].
    rewrite (setitem_fill vals _ _ vk Hk Ev). cbn [bind].
    specialize (IH (done ++ [tag])).
    rewrite length_app in IH. cbn [List.length] in IH.
    rewrite Nat.add_1_r in IH. rewrite seq_S in IH. cbn [Nat.add] in IH.
    apply IH. rewrite <- app_assoc. exact Hs.
Qed.

(** X24.  A translation read into a file under fresh ids is found when
    the file is queried by those ids.  When the ids are pairwise different,
    there is a value for each and none of these values is the marker, the
    result object holds the translation alone, with the values as its
    vector, the positions of the ids in order as its indexes, nothing
    missing and nothing invalid, and its line is the one [get_string]
    gives for the bundle of the language. *)
Theorem appended_translation_is_found (self : TranslationFile)
    (T : Translation) (vals : list value) (lang : String.string)
    (ph ov : bool) (tl : TranslationLanguage) (ln : line)
    (un : list hval) :
  (forall id, In id (ids T) ->
     dict_get (_translations_hash self) id = None) ->
  NoDup (ids T) -> ids T <> [] ->
  (List.length (ids T) <= List.length vals)%nat ->
  existsb is_sentinel (firstn (List.length (ids T)) vals) = false ->
  get_language T lang = Some tl ->
  get_string tl (firstn (List.length (ids T)) vals)
    (seq 0 (List.length (ids T))) ph ov
  = Ok (ln, un) ->
  get_translation (fst (append_translation self T)) (ids T) vals lang
    true ph ov
  = Ok (Full (mkResult [T] [ln] [seq 0 (List.length (ids T))] [] []
                [firstn (List.length (ids T)) vals] [] [un])).
Proof.
  intros Hfresh Hnd Hne Hlen Hmark Hlang Hgs.
  assert (Hb : forall id, In id (ids T) ->
             dict_get
               (_translations_hash (fst (append_translation self T))) id
             = Some [T]).
  { unfold append_translation.
    apply (add_under_ids_fresh T (ids T)
             (mkFile (_translations self ++ [T]) (_translations_hash self))
             []).
    intros id Hid. left. now apply Hfresh. }
  set (F := fst (append_translation self T)) in *.
  assert (Hscan : scan_tags F vals (enumerate (ids T))
                    (mkScan [] [] [] [] [])
                  = Ok (mkScan [T] [] [] [seq 0 (List.length (ids T))]
                          [firstn (List.length (ids T)) vals])).
  { unfold enumerate.
    destruct (ids T) as [|t0 rest] eqn:Ei; [congruence|].
    cbn [enumerate_from scan_tags].
    rewrite (Hb t0 (or_introl eq_refl)). cbn [touch_bucket]. unfold touch.
    rewrite Ei. cbn [find_index trans_found]. rewrite String.eqb_refl.
    destruct (nth_error vals 0) as [v0|] eqn:Ev;
      [|apply nth_error_None in Ev; simpl in Hlen; lia].
    rewrite (proj2 (getitem_ok _ _ _) Ev). cbn [bind].
    pose proof (setitem_fill vals (List.length (t0 :: rest)) 0 v0) as Hf.
    cbn [firstn app] in Hf. rewrite Nat.sub_0_r in Hf.
    rewrite Hf; [|simpl; lia|exact Ev]. cbn [bind].
    cbn [trans_found trans_found_indexes trans_found_values trans_missing
         trans_missing_values app].
    pose proof (scan_own_ids F T vals) as Hrest. rewrite Ei in Hrest.
    apply (Hrest Hb Hnd Hlen rest [t0]). reflexivity. }
  unfold get_translation. rewrite Hscan. cbn [bind].
  cbn [trans_found trans_found_values trans_found_indexes trans_missing
       trans_missing_values enumerate enumerate_from collect_invalid].
  rewrite Hmark. cbn [bind remove_invalid].
  cbn [trans_found trans_found_values trans_found_indexes trans_missing
       trans_missing_values enumerate enumerate_from render].
  rewrite Hlang. cbn [getitem nth_error bind]. rewrite Hgs.
  reflexivity.
Qed.

End RoundTrip.

Lemma appended_translation_indexed_witness :
  dict_get
    (_translations_hash (fst (append_translation life_file a_and_b))) "b"
  = Some [a_and_b] /\
  snd (append_translation life_file a_and_b) = [].
Proof.
  destruct (appended_translation_indexed life_file a_and_b) as [_ H].
  destruct H as [Hw [_ [Hin _]]].
  - intros id [<-|[<-|[]]]; reflexivity.
  - split; [apply Hin; right; now left|exact Hw].
Defined.

Lemma appended_translation_is_found_witness :
  get_translation (PF := rational_float)
    (fst (append_translation life_file a_and_b)) ["a"; "b"]
    [VInt 1; VRange 2 3] "English" true false false
  = Ok (Full (mkResult [a_and_b] [LStr "1 and (2 to 3)"]
                [[0%nat; 1%nat]] [] [] [[VInt 1; VRange 2 3]] [] [[]])).
Proof.
  apply (appended_translation_is_found (PF := rational_float) life_file
           a_and_b [VInt 1; VRange 2 3] "English" false false
           (mkLanguage "English"
              [mkString no_quantifier [wildcard; wildcard] "%1% and %2%"])).
  - intros id [<-|[<-|[]]]; reflexivity.
  - repeat constructor; simpl; intuition discriminate.
  - discriminate.
  - simpl. lia.
  - reflexivity.
  - reflexivity.
  - reflexivity.
Defined.

(** ** The two forms of a placeholder inside a longer template *)
















Section SignForm.
Context {PF : PyFloat}.







End SignForm.

